(** * The scientific core of the risk library

    A shallow embedding of [openquake/risklib/scientific.py]: the
    vulnerability functions with their distributions, the curve builders
    ([event_based], [conditional_loss_ratio]), the damage fractions
    ([scenario_damage]) and the statistics ([mean_curve], [quantile_curve]).

    Python's [float] is the IEEE 754 binary64 format.  The functions are
    written once, over an interface [PyFloat] of the float operations the
    source uses, and read at two carriers:
    - [float], Rocq's primitive binary64 numbers, on which the definitions
      run bit for bit as the Python code does, NaN included;
    - [xreal], the real numbers with one more point for NaN, the exact
      arithmetic in which the numeric formulas of the specification
      (sums, exponentials, interpolation) are meant. *)

From Stdlib Require Import String.
From Stdlib Require Import ZArith Lia Bool List Floats Reals Lra.
From Stdlib Require Import Sorted Permutation.
Import ListNotations.

Set Warnings "-inexact-float".

(** ** The float interface *)

Class PyFloat (F : Type) : Type := {
  fadd : F -> F -> F;
  fsub : F -> F -> F;
  fmul : F -> F -> F;
  fdiv : F -> F -> F;
  fneg : F -> F;
  fabs : F -> F;
  (** [x < y], [x <= y] and [x == y] of Python *)
  fltb : F -> F -> bool;
  fleb : F -> F -> bool;
  feqb : F -> F -> bool;
  (** [float('nan')] *)
  fnan : F;
  (** [float(n)] for a Python [int] *)
  of_int : Z -> F;
  (** [numpy.floor(x).astype(int)]; undefined ([None]) off the finite numbers *)
  ffloor : F -> option Z
}.

Section FloatOperators.
Context {F : Type} `{PyFloat F}.

(** [x > y] and [x >= y] are the mirrored comparisons. *)
Definition fgtb (x y : F) : bool := fltb y x.
Definition fgeb (x y : F) : bool := fleb y x.

(** A decimal literal [n/d], such as [0.4] or [1E-12], correctly rounded. *)
Definition lit (n d : Z) : F := fdiv (of_int n) (of_int d).

Definition f0 : F := of_int 0.
Definition f1 : F := of_int 1.

(** Every number equals itself; NaN does not. *)
Definition is_num (x : F) : bool := feqb x x.

(** Truth value of a float: [not x] holds for [0.0] and [-0.0] only. *)
Definition py_not (x : F) : bool := feqb x f0.
End FloatOperators.

(** The order laws of the comparisons, NaN apart. *)
Class PyFloatOrder (F : Type) `{PyFloat F} : Prop := {
  fltb_is_num : forall x y, fltb x y = true -> is_num x = true /\ is_num y = true;
  feqb_is_num : forall x y, feqb x y = true -> is_num x = true /\ is_num y = true;
  fleb_spec : forall x y, fleb x y = fltb x y || feqb x y;
  f_total : forall x y, is_num x = true -> is_num y = true ->
            fltb x y = true \/ feqb x y = true \/ fltb y x = true;
  fltb_asym : forall x y, fltb x y = true -> fltb y x = false;
  fltb_neq : forall x y, fltb x y = true -> feqb x y = false;
  feqb_sym : forall x y, feqb x y = feqb y x;
  fltb_trans : forall x y z, fltb x y = true -> fltb y z = true -> fltb x z = true;
  feqb_trans : forall x y z, feqb x y = true -> feqb y z = true -> feqb x z = true;
  fltb_eq_l : forall x y z, feqb x y = true -> fltb x z = true -> fltb y z = true;
  fltb_eq_r : forall x y z, feqb x y = true -> fltb z x = true -> fltb z y = true;
  f0_is_num : is_num (f0 : F) = true
}.

(** ** Binary64 *)

Module Binary64.

Definition of_Z (z : Z) : float :=
  match z with
  | Z0 => PrimFloat.zero
  | Zpos _ => PrimFloat.of_uint63 (Uint63.of_Z z)
  | Zneg p => PrimFloat.opp (PrimFloat.of_uint63 (Uint63.of_Z (Zpos p)))
  end.

Definition floor (x : float) : option Z :=
  match Prim2SF x with
  | S754_zero _ => Some 0%Z
  | S754_finite s m e =>
      let v := if s then Zneg m else Zpos m in
      Some (if (0 <=? e)%Z then Z.shiftl v e else Z.shiftr v (- e))
  | _ => None
  end.

(** The comparisons of binary64 are those of a lexicographic key. *)
Definition SFkey (x : spec_float) : Z * Z * Z :=
  match x with
  | S754_nan => (0, 0, 0)
  | S754_zero _ => (0, 0, 0)
  | S754_infinity true => (-2, 0, 0)
  | S754_infinity false => (2, 0, 0)
  | S754_finite false m e => (1, e, Zpos m)
  | S754_finite true m e => (-1, - e, Zneg m)
  end%Z.

Definition lex3 (k k' : Z * Z * Z) : comparison :=
  let '(a, b, c) := k in
  let '(a', b', c') := k' in
  match (a ?= a')%Z with
  | Eq => match (b ?= b')%Z with Eq => (c ?= c')%Z | r => r end
  | r => r
  end.

Definition key (x : float) : option (Z * Z * Z) :=
  match Prim2SF x with
  | S754_nan => None
  | s => Some (SFkey s)
  end.

Definition cmp_key (p : comparison -> bool) (x y : float) : bool :=
  match key x, key y with
  | Some a, Some b => p (lex3 a b)
  | _, _ => false
  end.

End Binary64.

#[global] Instance float_PyFloat : PyFloat float := {
  fadd := PrimFloat.add;
  fsub := PrimFloat.sub;
  fmul := PrimFloat.mul;
  fdiv := PrimFloat.div;
  fneg := PrimFloat.opp;
  fabs := PrimFloat.abs;
  fltb := PrimFloat.ltb;
  fleb := PrimFloat.leb;
  feqb := PrimFloat.eqb;
  fnan := PrimFloat.nan;
  of_int := Binary64.of_Z;
  ffloor := Binary64.floor
}.

(** ** Exact arithmetic: the reals and NaN *)

Inductive xreal : Type :=
| XNaN : xreal
| XR (r : R) : xreal.

Module Exact.

Definition lift1 (f : R -> R) (x : xreal) : xreal :=
  match x with XR a => XR (f a) | XNaN => XNaN end.

Definition lift2 (f : R -> R -> R) (x y : xreal) : xreal :=
  match x, y with XR a, XR b => XR (f a b) | _, _ => XNaN end.

(** A division by zero leaves the numbers. *)
Definition xdiv (x y : xreal) : xreal :=
  match x, y with
  | XR a, XR b => if Req_dec_T b 0 then XNaN else XR (a / b)
  | _, _ => XNaN
  end.

Definition Rltb (a b : R) : bool := if Rlt_dec a b then true else false.
Definition Rleb (a b : R) : bool := if Rle_dec a b then true else false.
Definition Reqb (a b : R) : bool := if Req_dec_T a b then true else false.

Definition xcmp (f : R -> R -> bool) (x y : xreal) : bool :=
  match x, y with XR a, XR b => f a b | _, _ => false end.

Definition xfloor (x : xreal) : option Z :=
  match x with XR a => Some (Int_part a) | XNaN => None end.

End Exact.

#[global] Instance xreal_PyFloat : PyFloat xreal := {
  fadd := Exact.lift2 Rplus;
  fsub := Exact.lift2 Rminus;
  fmul := Exact.lift2 Rmult;
  fdiv := Exact.xdiv;
  fneg := Exact.lift1 Ropp;
  fabs := Exact.lift1 Rabs;
  fltb := Exact.xcmp Exact.Rltb;
  fleb := Exact.xcmp Exact.Rleb;
  feqb := Exact.xcmp Exact.Reqb;
  fnan := XNaN;
  of_int := fun z => XR (IZR z);
  ffloor := Exact.xfloor
}.

(** ** Python sequences *)

Declare Scope py_scope.
Delimit Scope py_scope with py.
Notation "x <- e ;; k" :=
  (match e with Some x => k | None => None end)
  (at level 61, e at next level, right associativity) : py_scope.
Notation "' p <- e ;; k" :=
  (match e with Some p => k | None => None end)
  (at level 61, p pattern, e at next level, right associativity) : py_scope.
Open Scope py_scope.

(** A raised exception is [None]. *)

Section PySeq.
Context {A : Type}.

(** A slice bound: negative bounds count from the end, and all are
    clamped to the sequence. *)
Definition py_bound (n i : Z) : nat :=
  Z.to_nat (if (i <? 0)%Z then Z.max 0 (i + n) else Z.min i n).

(** [l[i]], an [IndexError] outside [-len(l) .. len(l)-1] *)
Definition py_index (l : list A) (i : Z) : option A :=
  let n := Z.of_nat (length l) in
  let j := if (i <? 0)%Z then (i + n)%Z else i in
  if ((0 <=? j) && (j <? n))%Z then nth_error l (Z.to_nat j) else None.

(** [l[a:b]] *)
Definition py_slice (l : list A) (a b : Z) : list A :=
  let n := Z.of_nat (length l) in
  let a' := py_bound n a in
  let b' := py_bound n b in
  firstn (b' - a') (skipn a' l).

(** [l[a:]] *)
Definition py_slice_from (l : list A) (a : Z) : list A :=
  skipn (py_bound (Z.of_nat (length l)) a) l.

(** [x1, x2 = l], a [ValueError] unless [l] has two items *)
Definition unpack2 (l : list A) : option (A * A) :=
  match l with
  | [x1; x2] => Some (x1, x2)
  | _ => None
  end.

(** Modelled from the spec: [utils.pairwise] of [openquake.risklib.utils],
    which is not among the sources; the pairs of a value and the next one
    behind the pairwise differences and means. *)
Fixpoint pairwise (l : list A) : list (A * A) :=
  match l with
  | x :: (y :: _) as r => (x, y) :: pairwise r
  | _ => []
  end.
End PySeq.

Section PyFloatSeq.
Context {F : Type} `{PyFloat F}.

(** [x in l] on a numpy array: [(l == x).any()], by [==] alone.  On a list
    of numbers it is the same, a number being equal to itself. *)
Definition py_in (x : F) (l : list F) : bool := existsb (feqb x) l.

(** [x in l] on a list: [any(x is e or x == e for e in l)], the identity of
    the objects before [==].  [same_object i] tells whether [x] is the very
    object at the rank [i] of the list; it matters for a NaN only, which is
    not equal to itself. *)
Definition py_in_list (same_object : nat -> bool) (x : F) (l : list F) : bool :=
  existsb (fun '(i, e) => same_object i || feqb x e)
          (combine (seq 0 (length l)) l).

(** The builtins [max] and [min]: the first of the largest (smallest)
    items, a [ValueError] on the empty sequence. *)
Definition py_max (l : list F) : option F :=
  match l with
  | [] => None
  | x :: r => Some (fold_left (fun m y => if fgtb y m then y else m) r x)
  end.

Definition py_min (l : list F) : option F :=
  match l with
  | [] => None
  | x :: r => Some (fold_left (fun m y => if fltb y m then y else m) r x)
  end.

(** The builtin [sum], which starts from the integer [0]. *)
Definition py_sum (l : list F) : F := fold_left fadd l f0.

(** [bisect.bisect_right(a, x)] of the standard library: the loop
    [while lo < hi: mid = (lo+hi)//2; if x < a[mid]: hi = mid else: lo = mid+1]
    started at [lo = 0], [hi = len(a)].  The distance [hi - lo] shrinks at
    every turn, so [len(a)] turns are enough. *)
Fixpoint bisect_loop (fuel : nat) (a : list F) (x : F) (lo hi : nat) : nat :=
  match fuel with
  | O => lo
  | S fuel' =>
      if (lo <? hi)%nat then
        let mid := Nat.div (lo + hi) 2 in
        if fltb x (nth mid a fnan) then bisect_loop fuel' a x lo mid
        else bisect_loop fuel' a x (S mid) hi
      else lo
  end.

Definition bisect_right (a : list F) (x : F) : nat :=
  bisect_loop (length a) a x 0 (length a).

(** ** [conditional_loss_ratio] *)

(** [[loss for i, loss in enumerate(loss_ratios) if probability == poes[i]]];
    [poes[i]] raises when [poes] is the shorter sequence. *)
Fixpoint matching_losses (loss_ratios poes : list F) (probability : F)
  : option (list F) :=
  match loss_ratios with
  | [] => Some []
  | loss :: loss_ratios' =>
      match poes with
      | [] => None
      | poe :: poes' =>
          rest <- matching_losses loss_ratios' poes' probability ;;
          Some (if feqb probability poe then loss :: rest else rest)
      end
  end.

Definition interpolate_between (x1 x2 y1 y2 probability : F) : F :=
  fadd (fmul (fdiv (fsub y2 y1) (fsub x2 x1)) (fsub probability x1)) y1.

(** [conditional_loss_ratio(loss_ratios, poes, probability)]; what
    [probability in poes] tests depends on the sequence that [poes] is, and
    [contains] is that test. *)
Definition conditional_loss_ratio_with (contains : F -> list F -> bool)
           (loss_ratios poes : list F) (probability : F) : option F :=
  let rpoes := rev poes in
  poe_max <- py_index poes 0 ;;
  if fgtb probability poe_max then Some f0
  else
    poe_min <- py_index poes (-1) ;;
    if fltb probability poe_min then py_index loss_ratios (-1)
    else if contains probability poes then
      losses <- matching_losses loss_ratios poes probability ;;
      py_max losses
    else
      let interval_index := bisect_right rpoes probability in
      if (interval_index =? length poes)%nat then Some fnan
      else
        let i := Z.of_nat interval_index in
        '(xs, ys) <-
          (if (interval_index =? 1)%nat then
             xs <- unpack2 (py_slice_from poes (-2)) ;;
             ys <- unpack2 (py_slice_from loss_ratios (-2)) ;;
             Some (xs, ys)
           else
             xs <- unpack2 (py_slice poes (- i - 1) (- i + 1)) ;;
             ys <- unpack2 (py_slice loss_ratios (- i - 1) (- i + 1)) ;;
             Some (xs, ys)) ;;
        let '(x1, x2) := xs in
        let '(y1, y2) := ys in
        Some (interpolate_between x1 x2 y1 y2 probability).

(** The call on numpy arrays, as [loss_map_matrix] receives the curves. *)
Definition conditional_loss_ratio : list F -> list F -> F -> option F :=
  conditional_loss_ratio_with py_in.

(** The call on lists. *)
Definition conditional_loss_ratio_of_lists (same_object : nat -> bool)
  : list F -> list F -> F -> option F :=
  conditional_loss_ratio_with (py_in_list same_object).

End PyFloatSeq.

(** ** Curves: the orders of their points *)

Section Curves.
Context {F : Type} `{PyFloat F}.

(** Consecutive items are related by [rel]. *)
Fixpoint chain (rel : F -> F -> bool) (l : list F) : bool :=
  match l with
  | x :: (y :: _) as r => rel x y && chain rel r
  | _ => true
  end.

Definition non_decreasing (l : list F) : bool := chain fleb l.
Definition non_increasing (l : list F) : bool := chain fgeb l.

(** [r] is a largest item of [l]. *)
Definition is_max (r : F) (l : list F) : Prop :=
  In r l /\ forall x, In x l -> fleb x r = true.

(** [r] is a smallest item of [l]. *)
Definition is_min (r : F) (l : list F) : Prop :=
  In r l /\ forall x, In x l -> fleb r x = true.

(** The loss ratios at the points of the curve whose PoE equals the target. *)
Definition losses_at (loss_ratios poes : list F) (probability : F) : list F :=
  map fst (filter (fun point => feqb probability (snd point))
                  (combine loss_ratios poes)).

(** What the specification says of [conditional_loss_ratio]: the four cases
    in their priority order, for the result [r].  The linear interpolation
    is the value at [probability] of the line through the points [(x1, y1)]
    and [(x2, y2)], in the arithmetic of the carrier. *)
Definition conditional_loss_ratio_spec
           (loss_ratios poes : list F) (probability r : F) : Prop :=
  exists poe_max poe_min,
    py_max poes = Some poe_max /\ py_min poes = Some poe_min /\
    is_max poe_max poes /\ is_min poe_min poes /\
    if fgtb probability poe_max then r = f0
    else if fltb probability poe_min then is_max r loss_ratios
    else if py_in probability poes then
           is_max r (losses_at loss_ratios poes probability)
    else
      exists (i : nat) (x1 x2 y1 y2 : F),
        i = bisect_right (rev poes) probability /\
        (1 <= i < length poes)%nat /\
        nth_error poes (length poes - 1 - i) = Some x1 /\
        nth_error poes (length poes - i) = Some x2 /\
        nth_error loss_ratios (length poes - 1 - i) = Some y1 /\
        nth_error loss_ratios (length poes - i) = Some y2 /\
        fltb probability x1 = true /\ fltb x2 probability = true /\
        r = fadd (fmul (fdiv (fsub y2 y1) (fsub x2 x1)) (fsub probability x1)) y1.
End Curves.

(** The curve used by the examples of the specification. *)
Definition example_loss_ratios : list float := [0; 0.5; 1]%float.
Definition example_poes : list float := [0.9; 0.5; 0.1]%float.

(** ** numpy and scipy *)

Section Numpy.
Context {F : Type} `{PyFloat F}.

(** [numpy.piecewise(x, [cond], [v, w])] at a scalar [x]: [v] where the
    condition holds and [w] elsewhere. *)
Definition piecewise1 (cond : bool) (v w : F) : F := if cond then v else w.

(** [numpy.piecewise(xs, [xs > hi], [hi, lambda x: x])], item by item, and
    with a second condition [xs < lo] that yields [lo]. *)
Definition clip_above (hi : F) (xs : list F) : list F :=
  map (fun x => if fgtb x hi then hi else x) xs.

Definition clip_both (lo hi : F) (xs : list F) : list F :=
  map (fun x => if fltb x lo then lo else if fgtb x hi then hi else x) xs.

(** [x.clip(lo, hi)], that is [minimum(maximum(x, lo), hi)] *)
Definition fclip (x lo hi : F) : F :=
  let y := if fltb x lo then lo else x in
  if fgtb y hi then hi else y.

(** [numpy.max]: a NaN item makes the maximum NaN. *)
Definition np_max (l : list F) : option F :=
  if existsb (fun x => negb (is_num x)) l then
    match l with [] => None | _ => Some fnan end
  else py_max l.

(** [numpy.linspace(start, stop, num)]: [num] points at the constant step
    [(stop - start) / (num - 1)], the last of them [stop] itself. *)
Definition linspace (start stop : F) (num : nat) : list F :=
  match num with
  | O => []
  | S O => [start]
  | S (S k as div) =>
      let step := fdiv (fsub stop start) (of_int (Z.of_nat div)) in
      map (fun i => fadd start (fmul (of_int (Z.of_nat i)) step)) (seq 0 div)
      ++ [stop]
  end.

(** [scipy.interpolate.interp1d(xs, ys)(x)] on increasing abscissae: the
    linear interpolation on the segment that holds [x], and a [ValueError]
    outside [xs[0] .. xs[-1]]. *)
Fixpoint interp_segments (xs ys : list F) (x : F) : option F :=
  match xs, ys with
  | x0 :: (x1 :: _) as xs', y0 :: (y1 :: _) as ys' =>
      if fleb x x1 then
        Some (fadd (fmul (fdiv (fsub y1 y0) (fsub x1 x0)) (fsub x x0)) y0)
      else interp_segments xs' ys' x
  | _, _ => None
  end.

Definition linear_interp1d (xs ys : list F) (x : F) : option F :=
  match xs with
  | [] => None
  | x0 :: _ => if fltb x x0 then None else interp_segments xs ys x
  end.

(** [[f(x) for x in xs]], raising as soon as one call raises *)
Fixpoint map_raise {A B : Type} (f : A -> option B) (xs : list A)
  : option (list B) :=
  match xs with
  | [] => Some []
  | x :: xs' => y <- f x ;; ys <- map_raise f xs' ;; Some (y :: ys)
  end.
End Numpy.

(** ** Statistics helpers *)

Section Pairwise.
Context {F : Type} `{PyFloat F}.

(** [pairwise_diff]: the differences between a value and the next one. *)
Definition pairwise_diff (values : list F) : list F :=
  map (fun '(x, y) => fsub x y) (pairwise values).
End Pairwise.

(** ** Distributions: the survival functions *)

Section Survival.
Context {F : Type} `{PyFloat F}.

(** [scipy.stats.lognorm.sf], [numpy.sqrt], [numpy.log] and the power
    operator are the libraries' own. *)
Variable lognorm_sf : F -> F -> F -> F.
Variables fsqrt flog : F -> F.
Variable fpow : F -> F -> F.

Definition f2 : F := of_int 2.

Definition DegenerateDistribution_survival (loss_ratio mean _stddev : F) : F :=
  piecewise1 (fgtb loss_ratio mean || py_not mean) f0 f1.

Definition LogNormalDistribution_survival (loss_ratio mean stddev : F) : F :=
  if feqb stddev f0 then
    piecewise1 (fgtb loss_ratio mean || py_not mean) f0 f1
  else
    let variance := fpow stddev f2 in
    let sigma := fsqrt (flog (fadd (fdiv variance (fpow mean f2)) f1)) in
    let mu := fdiv (fpow mean f2) (fsqrt (fadd variance (fpow mean f2))) in
    lognorm_sf loss_ratio sigma mu.
End Survival.

(** ** Fragility functions and [scenario_damage] *)

Inductive FragilityFunction (F : Type) : Type :=
| FragilityFunctionContinuous (limit_state : nat) (mean stddev : F)
| FragilityFunctionDiscrete (limit_state : nat) (imls poes : list F)
                            (no_damage_limit : option F).
Arguments FragilityFunctionContinuous {F}.
Arguments FragilityFunctionDiscrete {F}.

Section ScenarioDamage.
Context {F : Type} `{PyFloat F}.

(** [scipy.interpolate.interp1d] and [scipy.stats.lognorm.cdf] *)
Variable interp1d : list F -> list F -> F -> option F.
Variable lognorm_cdf : F -> F -> F -> F.
Variables fsqrt flog : F -> F.
Variable fpow : F -> F -> F.

(** [ff(iml)], the probability of exceedance of the limit state *)
Definition FragilityFunction_call (ff : FragilityFunction F) (iml : F) : option F :=
  match ff with
  | FragilityFunctionContinuous _ mean stddev =>
      let variance := fpow stddev f2 in
      let sigma := fsqrt (flog (fadd (fdiv variance (fpow mean f2)) f1)) in
      let mu := fdiv (fpow mean f2) (fsqrt (fadd variance (fpow mean f2))) in
      Some (lognorm_cdf iml sigma mu)
  | FragilityFunctionDiscrete _ imls poes no_damage_limit =>
      highest_iml <- py_index imls (-1) ;;
      if match no_damage_limit with
         | Some limit => fltb iml limit
         | None => false
         end
      then Some f0
      else interp1d imls poes (if fgtb iml highest_iml then highest_iml else iml)
  end.

Definition scenario_damage (fragility_functions : list (FragilityFunction F))
           (gmv : F) : option (list F) :=
  poes <- map_raise (fun ff => FragilityFunction_call ff gmv) fragility_functions ;;
  Some (pairwise_diff ([f1] ++ poes ++ [f0])).
End ScenarioDamage.

(** ** Exact sequences *)

(** The differences between a real and the next one, and the sum of reals:
    what [pairwise_diff] and [sum] compute in exact arithmetic. *)
Definition Rdiffs (l : list R) : list R :=
  map (fun '(x, y) => (x - y)%R) (pairwise l).

Definition Rsum (l : list R) : R := fold_right Rplus 0%R l.

(** Two discrete fragility functions whose limit states are out of order. *)
Definition example_fragility_functions : list (FragilityFunction float) :=
  [FragilityFunctionDiscrete 0 [0.1; 0.2]%float [0.2; 0.2]%float None;
   FragilityFunctionDiscrete 1 [0.1; 0.2]%float [0.5; 0.5]%float None].

(** ** Event based loss curves *)

Section EventBased.
Context {F : Type} `{PyFloat F}.

(** [numpy.exp] *)
Variable fexp : F -> F.

(** [build_poes(counts, nses)], [1. - numpy.exp(- numpy.array(counts, F32) / nses)];
    the counts become floats (of single precision in the source, which the
    carriers do not distinguish). *)
Definition build_poes (counts : list Z) (nses : F) : list F :=
  map (fun count => fsub f1 (fexp (fdiv (fneg (of_int count)) nses))) counts.

(** [(loss_values > loss).sum()] *)
Definition count_greater (loss_values : list F) (loss : F) : Z :=
  Z.of_nat (length (filter (fun value => fgtb value loss) loss_values)).

Definition event_based (loss_values : list F) (ses_ratio : F)
           (curve_resolution : nat) : option (list F * list F) :=
  max_loss <- np_max loss_values ;;
  let reference_losses := linspace f0 max_loss curve_resolution in
  let counts := map (count_greater loss_values) reference_losses in
  Some (reference_losses, build_poes counts (fdiv f1 ses_ratio)).
End EventBased.

(** The curve of the specification, in exact arithmetic: the largest loss,
    the evenly spaced reference losses, the number of losses above a
    reference loss and the PoEs [1 - exp(- count * ses_ratio)]. *)
Definition Rmaximum (l : list R) : R :=
  match l with
  | [] => 0%R
  | x :: r => fold_left Rmax r x
  end.

Definition Rreference_losses (loss_values : list R) (curve_resolution : nat)
  : list R :=
  map (fun i => (INR i * (Rmaximum loss_values / INR (curve_resolution - 1)))%R)
      (seq 0 curve_resolution).

Definition Rcount_greater (loss_values : list R) (loss : R) : nat :=
  length (filter (fun value => Exact.Rltb loss value) loss_values).

Definition Rpoes (loss_values : list R) (ses_ratio : R) (curve_resolution : nat)
  : list R :=
  map (fun loss => (1 - exp (- INR (Rcount_greater loss_values loss) * ses_ratio))%R)
      (Rreference_losses loss_values curve_resolution).

(** The five sampled losses of the specification's example. *)
Definition example_loss_values : list R := [0; 10; 20; 30; 40]%R.

(** ** Arrays of curves *)

Section Arrays.
Context {A : Type}.

(** The rows of one length that [numpy.array] accepts as a matrix. *)
Definition rectangular (width : nat) (rows : list (list A)) : bool :=
  forallb (fun row => (length row =? width)%nat) rows.

Definition row_width (rows : list (list A)) : nat :=
  match rows with
  | [] => O
  | row :: _ => length row
  end.

(** [arr.transpose()]: the columns of a matrix, given by its rows. *)
Fixpoint transpose (rows : list (list A)) : list (list A) :=
  match rows with
  | [] => []
  | [row] => map (fun x => [x]) row
  | row :: rest => map (fun '(x, column) => x :: column) (combine row (transpose rest))
  end.
End Arrays.

(** ** Mean curves *)

(** The values of [mean_curve] are numbers, or arrays that take the fast
    lane of [numpy.average]. *)
Inductive Values (F : Type) : Type :=
| Scalars (values : list F)
| Arrays (values : list (list F)).
Arguments Scalars {F}.
Arguments Arrays {F}.

Section MeanCurve.
Context {F : Type} `{PyFloat F}.

Definition weighted_sum (values weights : list F) : F :=
  py_sum (map (fun '(value, weight) => fmul value weight) (combine values weights)).

(** [numpy.average(values, axis=0, weights=weights)]: for each coordinate the
    sum of the weighted values over the sum of the weights; a [ValueError]
    unless there is one weight per row, a [ZeroDivisionError] when the weights
    sum to zero. *)
Definition np_average (rows : list (list F)) (weights : list F)
  : option (list F) :=
  if negb (rectangular (row_width rows) rows) then None
  else if negb (length weights =? length rows)%nat then None
  else
    let scl := py_sum weights in
    if feqb scl f0 then None
    else Some (map (fun column => fdiv (weighted_sum column weights) scl)
                   (transpose rows)).

Definition values_length (values : Values F) : nat :=
  match values with
  | Scalars vs => length vs
  | Arrays rows => length rows
  end.

(** The result is a number on the slow lane and an array on the fast one. *)
Definition mean_curve (values : Values F) (weights : option (list F))
  : option (Values F) :=
  weights' <-
    match weights with
    | Some ((_ :: _) as ws) =>
        (* [assert abs(sum(weights) - 1.) < 1E-12] *)
        if fltb (fabs (fsub (py_sum ws) f1)) (lit 1 1000000000000)
        then Some ws else None
    | _ =>
        let n := values_length values in
        if (n =? 0)%nat then None
        else Some (repeat (fdiv f1 (of_int (Z.of_nat n))) n)
    end ;;
  match values with
  | Arrays ((_ :: _) as rows) =>
      average <- np_average rows weights' ;; Some (Arrays [average])
  | Scalars ((_ :: _) as vs) => Some (Scalars [weighted_sum vs weights'])
  | _ => None
  end.
End MeanCurve.





(** ** Quantile curves *)

Section QuantileCurve.
Context {F : Type} `{PyFloat F}.

(** [numpy.interp(x, xp, fp)] *)
Variable np_interp : F -> list F -> list F -> F.

(** [numpy.sort] of numbers, in ascending order. *)
Fixpoint insert_sorted (x : F) (l : list F) : list F :=
  match l with
  | [] => [x]
  | y :: r => if fleb x y then x :: l else y :: insert_sorted x r
  end.

Definition np_sort (l : list F) : list F := fold_right insert_sorted [] l.

(** [numpy.sort(arr, axis=0)] sorts every column. *)
Definition np_sort_axis0 (rows : list (list F)) : list (list F) :=
  transpose (map np_sort (transpose rows)).

(** [poes[numpy.argsort(poes)]] with [weights[numpy.argsort(poes)]]: the
    points in the ascending order of their first component. *)
Fixpoint insert_point (point : F * F) (l : list (F * F)) : list (F * F) :=
  match l with
  | [] => [point]
  | q :: r => if fleb (fst point) (fst q) then point :: l
              else q :: insert_point point r
  end.

Definition sort_points (l : list (F * F)) : list (F * F) :=
  fold_right insert_point [] l.

(** [numpy.cumsum] *)
Fixpoint cumsum_from (acc : F) (l : list F) : list F :=
  match l with
  | [] => []
  | x :: r => fadd acc x :: cumsum_from (fadd acc x) r
  end.

Definition np_cumsum (l : list F) : list F :=
  match l with
  | [] => []
  | x :: r => x :: cumsum_from x r
  end.

Definition quantile_curve (curves : list (list F)) (quantile : F)
           (weights : option (list F)) : option (list F) :=
  match curves with
  | [] => None  (* [reshape(0, -1)] *)
  | _ :: _ =>
      if negb (rectangular (row_width curves) curves) then None
      else
        match weights with
        | None =>
            let arr := curves in
            let p := quantile in
            let m := fadd (lit 4 10) (fmul p (lit 2 10)) in
            let n := Z.of_nat (length arr) in
            let aleph := fadd (fmul (of_int n) p) m in
            k <- ffloor (fclip aleph (of_int 1) (of_int (n - 1))) ;;
            let gamma := fclip (fsub aleph (of_int k)) f0 f1 in
            let data := transpose (np_sort_axis0 arr) in
            map_raise
              (fun column =>
                 lower <- py_index column (k - 1) ;;
                 upper <- py_index column k ;;
                 Some (fadd (fmul (fsub f1 gamma) lower) (fmul gamma upper)))
              data
        | Some weights =>
            if negb (length weights =? length curves)%nat then None
            else
              Some (map
                (fun poes =>
                   let sorted := sort_points (combine poes weights) in
                   let sorted_poes := map fst sorted in
                   let sorted_weights := map snd sorted in
                   let cum_weights := np_cumsum sorted_weights in
                   np_interp quantile cum_weights sorted_poes)
                (transpose curves))
        end
  end.
End QuantileCurve.

(** The plotting-position estimate of the specification, in exact
    arithmetic, on the ascending values of one coordinate. *)
Fixpoint Rinsert (x : R) (l : list R) : list R :=
  match l with
  | [] => [x]
  | y :: r => if Rle_dec x y then x :: l else y :: Rinsert x r
  end.

Definition Rsort (l : list R) : list R := fold_right Rinsert [] l.

Definition Rclip (x lo hi : R) : R := Rmin (Rmax x lo) hi.

Definition plotting_k (n : nat) (p : R) : Z :=
  let m := (4 / 10 + p * (2 / 10))%R in
  let aleph := (INR n * p + m)%R in
  Int_part (Rclip aleph 1 (INR n - 1)).

Definition plotting_gamma (n : nat) (p : R) : R :=
  let m := (4 / 10 + p * (2 / 10))%R in
  let aleph := (INR n * p + m)%R in
  Rclip (aleph - IZR (plotting_k n p)) 0 1.

Definition plotting_position (p : R) (sorted : list R) : R :=
  let n := length sorted in
  let k := plotting_k n p in
  let gamma := plotting_gamma n p in
  ((1 - gamma) * nth (Z.to_nat (k - 1)) sorted 0
   + gamma * nth (Z.to_nat k) sorted 0)%R.

(** The values of the curves at the coordinate [j]. *)
Definition Rcoordinate (j : nat) (curves : list (list R)) : list R :=
  map (fun curve => nth j curve 0%R) curves.

Definition Rquantile_curve (curves : list (list R)) (p : R) : list R :=
  map (fun j => plotting_position p (Rsort (Rcoordinate j curves)))
      (seq 0 (row_width curves)).

(** The two curves of the specification's example. *)
Definition example_curves : list (list float) :=
  [[0.1; 0.2]; [0.3; 0.4]]%float.

(** ** Objects and their store *)

(** The distribution classes, and the registry [DISTRIBUTIONS] that maps a
    name to its class. *)
Inductive DistributionClass : Type :=
| DegenerateDistribution
| LogNormalDistribution
| BetaDistribution
| DiscreteDistribution.

Definition DISTRIBUTIONS (name : string) : option DistributionClass :=
  if String.eqb name "LN" then Some LogNormalDistribution
  else if String.eqb name "BT" then Some BetaDistribution
  else if String.eqb name "PM" then Some DiscreteDistribution
  else None.

(** A distribution object: its class, the attribute [epsilons] and the
    cursor [asset_idx] of the lognormal distribution. *)
Record Distribution (F : Type) : Type := mkDistribution {
  dist_class : DistributionClass;
  epsilons : option (list (list F));
  asset_idx : nat
}.
Arguments mkDistribution {F}.
Arguments dist_class {F}.
Arguments epsilons {F}.
Arguments asset_idx {F}.

(** A vulnerability function object; [distribution] refers to a distribution
    object of the store, once [init] has set it.  The interpolators
    [_mlr_i1d] and [_covs_i1d] are [interp1d] on the stored points. *)
Record VulnerabilityFunction (F : Type) : Type := mkVulnerabilityFunction {
  vf_id : string;
  imt : string;
  imls : list F;
  mean_loss_ratios : list F;
  covs : list F;
  distribution_name : string;
  stddevs : list F;
  distribution : option nat
}.
Arguments mkVulnerabilityFunction {F}.
Arguments vf_id {F}.
Arguments imt {F}.
Arguments imls {F}.
Arguments mean_loss_ratios {F}.
Arguments covs {F}.
Arguments distribution_name {F}.
Arguments stddevs {F}.
Arguments distribution {F}.

(** The objects that exist, by reference, and the state of the process-wide
    random generator of numpy. *)
Record Store (F RNG : Type) : Type := mkStore {
  distributions : list (Distribution F);
  functions : list (VulnerabilityFunction F);
  random_state : RNG
}.
Arguments mkStore {F RNG}.
Arguments distributions {F RNG}.
Arguments functions {F RNG}.
Arguments random_state {F RNG}.

Fixpoint list_update {A : Type} (l : list A) (i : nat) (x : A) : list A :=
  match l, i with
  | [], _ => []
  | _ :: r, O => x :: r
  | y :: r, S i' => y :: list_update r i' x
  end.

(** A computation on the store: it returns a value or raises, and leaves a
    store in both cases. *)
Definition Py (F RNG A : Type) : Type := Store F RNG -> option A * Store F RNG.

Section PyMonad.
Context {F RNG : Type}.

Definition ret {A : Type} (a : A) : Py F RNG A := fun s => (Some a, s).

Definition raise {A : Type} : Py F RNG A := fun s => (None, s).

Definition bind {A B : Type} (m : Py F RNG A) (k : A -> Py F RNG B) : Py F RNG B :=
  fun s =>
    match m s with
    | (Some a, s') => k a s'
    | (None, s') => (None, s')
    end.

Definition lift {A : Type} (o : option A) : Py F RNG A :=
  match o with
  | Some a => ret a
  | None => raise
  end.

Definition new_distribution (d : Distribution F) : Py F RNG nat :=
  fun s => (Some (length (distributions s)),
            mkStore (distributions s ++ [d]) (functions s) (random_state s)).

Definition get_distribution (r : nat) : Py F RNG (Distribution F) :=
  fun s => (nth_error (distributions s) r, s).

Definition put_distribution (r : nat) (d : Distribution F) : Py F RNG unit :=
  fun s => (Some tt,
            mkStore (list_update (distributions s) r d) (functions s) (random_state s)).

Definition new_function (vf : VulnerabilityFunction F) : Py F RNG nat :=
  fun s => (Some (length (functions s)),
            mkStore (distributions s) (functions s ++ [vf]) (random_state s)).

Definition get_function (r : nat) : Py F RNG (VulnerabilityFunction F) :=
  fun s => (nth_error (functions s) r, s).

Definition put_function (r : nat) (vf : VulnerabilityFunction F) : Py F RNG unit :=
  fun s => (Some tt,
            mkStore (distributions s) (list_update (functions s) r vf) (random_state s)).

(** [[f(x) for x in xs]], in the order of [xs] *)
Fixpoint for_each {A B : Type} (f : A -> Py F RNG B) (xs : list A)
  : Py F RNG (list B) :=
  match xs with
  | [] => ret []
  | x :: xs' => bind (f x) (fun y => bind (for_each f xs') (fun ys => ret (y :: ys)))
  end.
End PyMonad.

Declare Scope obj_scope.
Delimit Scope obj_scope with obj.
Notation "x <- e ;; k" := (bind e (fun x => k))
  (at level 61, e at next level, right associativity) : obj_scope.
Notation "' p <- e ;; k" := (bind e (fun x => match x with p => k end))
  (at level 61, p pattern, e at next level, right associativity) : obj_scope.
Notation "e ;;; k" := (bind e (fun _ => k))
  (at level 61, right associativity) : obj_scope.

(** ** Vulnerability functions *)

Section VulnerabilityFunctions.
Context {F RNG : Type} `{PyFloat F}.
Local Open Scope obj_scope.

(** The libraries: [scipy.interpolate.interp1d], whether its constructor
    accepts the points and what the interpolator returns; [numpy.sqrt],
    [numpy.log], [numpy.exp] and the power operator; and
    [numpy.random.beta], which draws from the process-wide generator. *)
Variable interp1d_init : list F -> list F -> bool.
Variable interp1d : list F -> list F -> F -> option F.
Variables fsqrt flog fexp : F -> F.
Variable fpow : F -> F -> F.
Variable random_beta : RNG -> list F -> list F -> list F * RNG.

(** [set(l)], one item for each class of equal items *)
Fixpoint py_set (l : list F) : list F :=
  match l with
  | [] => []
  | x :: r => x :: filter (fun y => negb (feqb y x)) (py_set r)
  end.

(** [numpy.testing.assert_equal] on two lists of floats: one length, and
    items that are equal or both NaN. *)
Fixpoint assert_equal (actual desired : list F) : bool :=
  match actual, desired with
  | [], [] => true
  | x :: actual', y :: desired' =>
      (feqb x y || (negb (is_num x) && negb (is_num y)))
      && assert_equal actual' desired'
  | _, _ => false
  end.

Definition _check_vulnerability_data (imls loss_ratios : list F)
           (covs : option (list F)) (distribution : string) : bool :=
  assert_equal imls (np_sort (py_set imls))
  && forallb (fun x => fgeb x f0) imls
  && match covs with
     | None => true
     | Some covs => (length covs =? length imls)%nat
     end
  && (length loss_ratios =? length imls)%nat
  && forallb (fun x => fgeb x f0) loss_ratios
  && match covs with
     | None => true
     | Some covs => forallb (fun x => fgeb x f0) covs
     end
  && (String.eqb distribution "LN" || String.eqb distribution "BT").

(** The class that [set_distribution] instantiates: the registered one when
    [(self.covs > 0).any()], the degenerate one otherwise. *)
Definition distribution_class_for (covs : list F) (distribution_name : string)
  : option DistributionClass :=
  if existsb (fun cov => fgtb cov f0) covs
  then DISTRIBUTIONS distribution_name
  else Some DegenerateDistribution.

Definition set_distribution (self : nat) (epsilons : option (list (list F)))
  : Py F RNG unit :=
  vf <- get_function self ;;
  class <- lift (distribution_class_for (covs vf) (distribution_name vf)) ;;
  d <- new_distribution (mkDistribution class None 0) ;;
  put_function self
    (mkVulnerabilityFunction (vf_id vf) (imt vf) (imls vf) (mean_loss_ratios vf)
       (covs vf) (distribution_name vf) (stddevs vf) (Some d)) ;;;
  dist <- get_distribution d ;;
  put_distribution d (mkDistribution (dist_class dist) epsilons (asset_idx dist)).

(** [VulnerabilityFunction(vf_id, imt, imls, mean_loss_ratios, covs, distribution)] *)
Definition VulnerabilityFunction_init (vf_id imt : string)
           (imls mean_loss_ratios : list F) (covs : option (list F))
           (distribution : string) : Py F RNG nat :=
  if negb (_check_vulnerability_data imls mean_loss_ratios covs distribution)
  then raise
  else
    let covs := match covs with
                | Some covs => covs
                | None => repeat f0 (length imls)
                end in
    if existsb (fun '(lr, cov) => feqb lr f0 && fgtb cov f0)
               (combine mean_loss_ratios covs)
    then raise
    else
      let stddevs := map (fun '(cov, lr) => fmul cov lr)
                         (combine covs mean_loss_ratios) in
      if negb (interp1d_init imls mean_loss_ratios && interp1d_init imls covs)
      then raise
      else
        self <- new_function
                  (mkVulnerabilityFunction vf_id imt imls mean_loss_ratios covs
                     distribution stddevs None) ;;
        set_distribution self None ;;;
        ret self.

(** The loop of [strictly_increasing] over [enumerate(self.mean_loss_ratios)] *)
Fixpoint strictly_increasing_loop (previous_mlr : option F) (i : Z)
         (mlrs self_imls self_covs : list F)
  : option (list F * list F * list F) :=
  match mlrs with
  | [] => Some ([], [], [])
  | mlr :: rest =>
      if match previous_mlr with
         | Some previous => feqb previous mlr
         | None => false
         end
      then strictly_increasing_loop previous_mlr (i + 1) rest self_imls self_covs
      else
        (iml <- py_index self_imls i ;;
         cov <- py_index self_covs i ;;
         '(imls, mlrs', covs) <-
           strictly_increasing_loop (Some mlr) (i + 1) rest self_imls self_covs ;;
         Some (iml :: imls, mlr :: mlrs', cov :: covs))%py
  end.

(** The decorator [utils.memoized] keeps the first result for later calls on
    the same object; it is not among the sources and is left out. *)
Definition strictly_increasing (self : nat) : Py F RNG nat :=
  vf <- get_function self ;;
  '(imls, mlrs, covs) <-
    lift (strictly_increasing_loop None 0 (mean_loss_ratios vf) (imls vf) (covs vf)) ;;
  VulnerabilityFunction_init (vf_id vf) (imt vf) imls mlrs (Some covs)
                             (distribution_name vf).

(** [numpy.where(cond)]: the positions that satisfy the condition *)
Definition np_where (cond : F -> bool) (xs : list F) : list nat :=
  map fst (filter (fun '(_, x) => cond x) (combine (seq 0 (length xs)) xs)).

(** [ret[idxs] = samples] *)
Definition scatter (ret : list F) (idxs : list nat) (samples : list F)
  : option (list F) :=
  if (length idxs =? length samples)%nat
  then Some (fold_left (fun acc '(i, x) => list_update acc i x)
                       (combine idxs samples) ret)
  else None.

Definition lognormal_sample (mean cov eps : F) : F :=
  let sigma := fsqrt (flog (fadd (fpow cov f2) f1)) in
  fmul (fdiv mean (fsqrt (fadd f1 (fpow cov f2)))) (fexp (fmul eps sigma)).

Definition BetaDistribution_alpha (mean stddev : F) : F :=
  fmul (fsub (fdiv (fsub f1 mean) (fpow stddev f2)) (fdiv f1 mean))
       (fpow mean f2).

Definition BetaDistribution_beta (mean stddev : F) : F :=
  fmul (fsub (fdiv (fsub f1 mean) (fpow stddev f2)) (fdiv f1 mean))
       (fsub mean (fpow mean f2)).

(** [self.distribution.sample(means, covs, stddevs, idxs)] *)
Definition sample (d : nat) (means covs stddevs : list F) (idxs : list nat)
  : Py F RNG (list F) :=
  dist <- get_distribution d ;;
  match dist_class dist with
  | DegenerateDistribution => ret means
  | LogNormalDistribution =>
      match epsilons dist with
      | None => raise
      | Some epsilons =>
          row <- lift (nth_error epsilons (asset_idx dist)) ;;
          eps <- lift (map_raise (nth_error row) idxs) ;;
          put_distribution d
            (mkDistribution (dist_class dist) (Some epsilons) (S (asset_idx dist))) ;;;
          ret (map (fun '(mean, cov, e) => lognormal_sample mean cov e)
                   (combine (combine means covs) eps))
      end
  | BetaDistribution =>
      let alpha := map (fun '(mean, stddev) => BetaDistribution_alpha mean stddev)
                       (combine means stddevs) in
      let beta := map (fun '(mean, stddev) => BetaDistribution_beta mean stddev)
                      (combine means stddevs) in
      fun s =>
        let '(draws, state) := random_beta (random_state s) alpha beta in
        (Some draws, mkStore (distributions s) (functions s) state)
  | DiscreteDistribution => raise
  end.

(** [self._apply(imls)] *)
Definition VulnerabilityFunction_apply (self : nat) (gmvs : list F)
  : Py F RNG (list F) :=
  vf <- get_function self ;;
  let ret0 := repeat f0 (length gmvs) in
  highest <- lift (py_index (imls vf) (-1)) ;;
  let imls_curve := clip_above highest gmvs in
  lowest <- lift (py_index (imls vf) 0) ;;
  let idxs := np_where (fun x => fgeb x lowest) imls_curve in
  let imls_curve := map (fun i => nth i imls_curve fnan) idxs in
  means <- lift (map_raise (interp1d (imls vf) (mean_loss_ratios vf)) imls_curve) ;;
  covs <- lift (map_raise (interp1d (imls vf) (covs vf))
                          (clip_both lowest highest imls_curve)) ;;
  d <- lift (distribution vf) ;;
  samples <- sample d means covs
               (map (fun '(cov, iml) => fmul cov iml) (combine covs imls_curve))
               idxs ;;
  lift (scatter ret0 idxs samples).

(** Modelled from the spec: [utils.numpy_map] of [openquake.risklib.utils],
    which is not among the sources; the asset rows are processed one after
    the other, in the order 0 .. N-1, and their results stacked. *)
Definition numpy_map {A B : Type} (f : A -> Py F RNG B) (rows : list A)
  : Py F RNG (list B) :=
  for_each f rows.

Definition apply_to (self : nat) (ground_motion_values epsilons : list (list F))
  : Py F RNG (list (list F)) :=
  if negb (length epsilons =? length ground_motion_values)%nat then raise
  else
    vf <- get_function self ;;
    vulnerability_function <- new_function vf ;;
    set_distribution vulnerability_function (Some epsilons) ;;;
    numpy_map (VulnerabilityFunction_apply vulnerability_function)
              ground_motion_values.
End VulnerabilityFunctions.

(** The objects a call of [apply_to] works on: the newest function object
    [c] of the store, bound to the newest distribution object [x]. *)
Definition bound {F RNG : Type} (s : Store F RNG)
           (fs : list (VulnerabilityFunction F)) (ds : list (Distribution F))
           (c : VulnerabilityFunction F) (x : Distribution F) : Prop :=
  functions s = fs ++ [c] /\ distributions s = ds ++ [x] /\
  distribution c = Some (length ds).

(** The objects of the store before a call are a prefix of those after. *)
Definition grown {F RNG : Type} (s s' : Store F RNG) : Prop :=
  exists fs ds,
    functions s' = functions s ++ fs /\ distributions s' = distributions s ++ ds.

(** ** A store for the examples *)

(** An interpolator that wants two points at least, a generator whose
    draws tell its state, and two functions of the same points: one
    lognormal, one beta. *)
Definition example_interp1d_init (xs _ys : list float) : bool :=
  (2 <=? length xs)%nat.

Definition example_random_beta (state : nat) (alpha _beta : list float)
  : list float * nat :=
  (map (fun _ => of_int (Z.of_nat state)) alpha, S state).

Definition example_imls : list float := [0.1; 0.2; 0.3; 0.5]%float.
Definition example_mean_loss_ratios : list float := [0.05; 0.1; 0.1; 0.4]%float.
Definition example_covs : list float := [0.1; 0.1; 0.1; 0.2]%float.

Definition example_store : Store float nat :=
  snd (VulnerabilityFunction_init example_interp1d_init "BT1" "PGA" example_imls
         example_mean_loss_ratios (Some example_covs) "BT"
         (snd (VulnerabilityFunction_init example_interp1d_init "LN1" "PGA"
                 example_imls example_mean_loss_ratios (Some example_covs) "LN"
                 (mkStore [] [] 0%nat)))).

Definition example_apply_to
  : nat -> list (list float) -> list (list float) -> Py float nat (list (list float)) :=
  apply_to linear_interp1d PrimFloat.sqrt (fun x => x) (fun x => x)
           (fun x _ => PrimFloat.mul x x) example_random_beta.

Definition example_gmvs : list (list float) :=
  [[0.05; 0.15; 0.6]; [0.2; 0.3; 0.1]]%float.
Definition example_epsilons : list (list float) :=
  [[1; 2; 3]; [4; 5; 6]]%float.

(** ** Plateaus *)

(** [l'] keeps some of the items of [l], in their order. *)
Inductive subseq {A : Type} : list A -> list A -> Prop :=
| subseq_nil : subseq [] []
| subseq_skip (x : A) (l' l : list A) : subseq l' l -> subseq l' (x :: l)
| subseq_keep (x : A) (l' l : list A) : subseq l' l -> subseq (x :: l') (x :: l).

Section Plateaus.
Context {F : Type} `{PyFloat F}.

(** No two consecutive items are equal. *)
Definition no_plateau (l : list F) : bool :=
  chain (fun a b => negb (feqb a b)) l.

Definition strictly_ascending (l : list F) : bool := chain fltb l.

(** The points [(iml, mean loss ratio, cov)] that [strictly_increasing]
    keeps: the first of every run of equal mean loss ratios. *)
Fixpoint collapse_points (previous_mlr : option F) (points : list (F * F * F))
  : list (F * F * F) :=
  match points with
  | [] => []
  | (iml, mlr, cov) :: rest =>
      if match previous_mlr with
         | Some previous => feqb previous mlr
         | None => false
         end
      then collapse_points previous_mlr rest
      else (iml, mlr, cov) :: collapse_points (Some mlr) rest
  end.

Definition points_of (imls mlrs covs : list F) : list (F * F * F) :=
  combine (combine imls mlrs) covs.

Definition imls_of (points : list (F * F * F)) : list F :=
  map (fun point => fst (fst point)) points.
Definition mlrs_of (points : list (F * F * F)) : list F :=
  map (fun point => snd (fst point)) points.
Definition covs_of (points : list (F * F * F)) : list F :=
  map snd points.

(** The constructor's checks hold of the attributes of a function: it is
    validly constructed. *)
Definition constructed (interp1d_init : list F -> list F -> bool)
           (vf : VulnerabilityFunction F) : Prop :=
  _check_vulnerability_data (imls vf) (mean_loss_ratios vf) (Some (covs vf))
                            (distribution_name vf) = true /\
  existsb (fun '(lr, cov) => feqb lr f0 && fgtb cov f0)
          (combine (mean_loss_ratios vf) (covs vf)) = false /\
  interp1d_init (imls vf) (mean_loss_ratios vf)
  && interp1d_init (imls vf) (covs vf) = true.

(** The same function: identity, points and distribution name. *)
Definition same_function (vf vf' : VulnerabilityFunction F) : Prop :=
  vf_id vf = vf_id vf' /\ imt vf = imt vf' /\ imls vf = imls vf' /\
  mean_loss_ratios vf = mean_loss_ratios vf' /\ covs vf = covs vf' /\
  distribution_name vf = distribution_name vf'.
End Plateaus.

(** The lognormal function of the example store, with its plateau. *)
Definition example_function : VulnerabilityFunction float :=
  mkVulnerabilityFunction "LN1" "PGA" example_imls example_mean_loss_ratios
    example_covs "LN"
    (map (fun '(cov, lr) => fmul cov lr)
         (combine example_covs example_mean_loss_ratios))
    (Some 0%nat).

(** * The rest of the module

    The functions around those above: the finer loss ratios and the mean
    IMLs of a vulnerability function, its pickled state, the insured
    losses, the average loss of a curve, the loss maps, the counts of the
    curve builder and the classical damage. *)

(** ** More of numpy *)

(** [numpy.concatenate]: a [ValueError] without an array to concatenate. *)
Definition np_concatenate {A : Type} (arrays : list (list A)) : option (list A) :=
  match arrays with
  | [] => None
  | _ :: _ => Some (concat arrays)
  end.

Section MoreNumpy.
Context {F : Type} `{PyFloat F}.

(** [numpy.piecewise(x, condlist, funclist)] at an item [x], with one
    function more than conditions: the result starts from zero and the
    functions are applied in turn where their condition holds, the last one
    where no condition holds; of two conditions that hold, the later wins. *)
Definition np_piecewise (x : F) (conds : list (bool * (F -> F)))
           (otherwise : F -> F) : F :=
  fold_left (fun (y : F) (item : bool * (F -> F)) =>
               if fst item then snd item x else y)
            (conds ++ [(negb (existsb fst conds), otherwise)]) f0.

(** The builtin [max(a, b)]: [b] when [b > a], else [a]. *)
Definition py_max2 (a b : F) : F := if fgtb b a then b else a.

(** [numpy.mean(pair)] of a pair of numbers *)
Definition np_mean2 (pair : F * F) : F :=
  fdiv (fadd (fst pair) (snd pair)) f2.

(** [numpy.dot(a, b)] of two vectors: a [ValueError] unless they have one
    length.  The order of the additions is the library's own; the sum is
    read in exact arithmetic, where it does not matter. *)
Definition np_dot (a b : list F) : option F :=
  if (length a =? length b)%nat
  then Some (py_sum (map (fun '(x, y) => fmul x y) (combine a b)))
  else None.

(** [a * b] on two vectors: item by item, a vector of one item being
    broadcast, and a [ValueError] on other lengths. *)
Definition np_mul (a b : list F) : option (list F) :=
  if (length a =? length b)%nat
  then Some (map (fun '(x, y) => fmul x y) (combine a b))
  else match a, b with
       | [x], _ => Some (map (fun y => fmul x y) b)
       | _, [y] => Some (map (fun x => fmul x y) a)
       | _, _ => None
       end.

(** [numpy.putmask(a, mask, v)], the mask given by a condition on the items *)
Definition np_putmask (a : list F) (mask : F -> bool) (v : F) : list F :=
  map (fun x => if mask x then v else x) a.
End MoreNumpy.

(** ** Finer loss ratios and mean IMLs *)

Section FineGraining.
Context {F : Type} `{PyFloat F}.

(** [fine_graining(points, steps)] *)
Definition fine_graining (points : list F) (steps : Z) : option (list F) :=
  if (steps <? 2)%Z then Some points
  else
    ls <- np_concatenate
            (map (fun '(x, y) =>
                    py_slice (linspace x y (Z.to_nat (steps + 1))) 0 (-1))
                 (pairwise points)) ;;
    last <- py_index points (-1) ;;
    np_concatenate [ls; [last]].

(** [self.mean_loss_ratios_with_steps(steps)] *)
Definition mean_loss_ratios_with_steps (self : VulnerabilityFunction F)
           (steps : Z) : option (list F) :=
  let loss_ratios := mean_loss_ratios self in
  lowest <- py_min loss_ratios ;;
  let loss_ratios :=
    if fgtb lowest f0 then [f0] ++ loss_ratios else loss_ratios in
  highest <- py_max loss_ratios ;;
  let loss_ratios :=
    if fltb highest f1 then loss_ratios ++ [f1] else loss_ratios in
  fine_graining loss_ratios steps.

(** [self.mean_imls()]; the decorator [utils.memoized] is left out. *)
Definition mean_imls (self : VulnerabilityFunction F) : option (list F) :=
  first <- py_index (imls self) 0 ;;
  second <- py_index (imls self) 1 ;;
  let lowest := py_max2 f0 (fsub first (fdiv (fsub second first) f2)) in
  let means := map np_mean2 (pairwise (imls self)) in
  last <- py_index (imls self) (-1) ;;
  before <- py_index (imls self) (-2) ;;
  Some ([lowest] ++ means ++ [fadd last (fdiv (fsub last before) f2)]).
End FineGraining.

(** The points between two reals at [steps] equal steps, the second one
    left out: what [numpy.linspace(x, y, steps + 1)[:-1]] holds in exact
    arithmetic. *)
Definition Rsegment (steps : nat) (x y : R) : list R :=
  map (fun j => (x + INR j * ((y - x) / INR steps))%R) (seq 0 steps).

Definition Rfine_graining (points : list R) (steps : nat) : list R :=
  concat (map (fun '(x, y) => Rsegment steps x y) (pairwise points))
  ++ [last points 0%R].

(** ** Insured losses *)

Section InsuredLosses.
Context {F : Type} `{PyFloat F}.

(** [scipy.interpolate.interp1d(xs, ys, bounds_error=False, fill_value=v)(x)];
    the constructor may raise. *)
Variable interp1d_fill : list F -> list F -> F -> F -> option F.

(** [insured_losses(losses, deductible, insured_limit)] *)
Definition insured_losses (losses : list F) (deductible insured_limit : F)
  : list F :=
  map (fun x =>
         np_piecewise x
           [(fltb x deductible, fun _ => f0);
            (fgtb x insured_limit, fun _ => fsub insured_limit deductible)]
           (fun x => fsub x deductible))
      losses.

(** [insured_loss_curve(curve, deductible, insured_limit)]; the curve is an
    array of two rows, the losses and the PoEs. *)
Definition insured_loss_curve (curve : list F * list F)
           (deductible insured_limit : F) : option (list F * list F) :=
  let '(curve0, curve1) := curve in
  if negb (length curve0 =? length curve1)%nat then None
  else
    let kept := filter (fun '(loss, _) => fleb loss insured_limit)
                       (combine curve0 curve1) in
    let losses := map fst kept in
    let poes := map snd kept in
    limit_poe <- interp1d_fill curve0 curve1 f1 deductible ;;
    Some (losses, clip_above limit_poe poes).
End InsuredLosses.

(** ** The average loss of a curve *)

Section AverageLoss.
Context {F : Type} `{PyFloat F}.

(** [pairwise_mean]: the averages between a value and the next one. *)
Definition pairwise_mean (values : list F) : list F :=
  map np_mean2 (pairwise values).

(** [average_loss((losses, poes))] *)
Definition average_loss (losses_poes : list F * list F) : option F :=
  let '(losses, poes) := losses_poes in
  np_dot (map fneg (pairwise_diff losses)) (pairwise_mean poes).
End AverageLoss.

(** The trapezoids under a curve of reals: the widths of the loss bins by
    the mean PoEs of their ends. *)
Fixpoint Rtrapezoids (losses poes : list R) : R :=
  match losses, poes with
  | l0 :: (l1 :: _) as losses', p0 :: (p1 :: _) as poes' =>
      ((l1 - l0) * ((p0 + p1) / 2) + Rtrapezoids losses' poes')%R
  | _, _ => 0%R
  end.

(** ** Frequencies and probabilities of exceedance *)

(** The logarithm and the exponential in exact arithmetic; the logarithm
    of a number that is not positive leaves the numbers. *)
Definition xlog (x : xreal) : xreal :=
  match x with
  | XR a => if Rlt_dec 0 a then XR (ln a) else XNaN
  | XNaN => XNaN
  end.

Definition xexp (x : xreal) : xreal := Exact.lift1 exp x.

(** A [FragilityFunctionList]: the functions with the attributes [imls] and
    [steps_per_interval] that [classical_damage] reads. *)
Record FragilityFunctionList (F : Type) : Type := mkFragilityFunctionList {
  elements : list (FragilityFunction F);
  ffl_imls : list F;
  steps_per_interval : option Z
}.
Arguments mkFragilityFunctionList {F}.
Arguments elements {F}.
Arguments ffl_imls {F}.
Arguments steps_per_interval {F}.

Section ClassicalDamage.
Context {F : Type} `{PyFloat F}.

Variable interp1d_init : list F -> list F -> bool.
Variable interp1d : list F -> list F -> F -> option F.
Variable lognorm_cdf : F -> F -> F -> F.
Variables fsqrt flog fexp : F -> F.
Variable fpow : F -> F -> F.

(** [annual_frequency_of_exceedence(poe, t_haz)] *)
Definition annual_frequency_of_exceedence (poe t_haz : F) : F :=
  fdiv (fneg (flog (fsub f1 poe))) t_haz.

(** The truth value of [steps_per_interval]: [None] and [0] are false. *)
Definition interpolated (ffs : FragilityFunctionList F) : bool :=
  match steps_per_interval ffs with
  | Some n => negb (n =? 0)%Z
  | None => false
  end.

Definition classical_damage (fragility_functions : FragilityFunctionList F)
           (hazard_imls hazard_poes : list F)
           (investigation_time risk_investigation_time : F)
  : option (list F) :=
  let imls := ffl_imls fragility_functions in
  '(imls, poes) <-
    (if interpolated fragility_functions then
       min_val <- py_index hazard_imls 0 ;;
       max_val <- py_index hazard_imls (-1) ;;
       let imls := np_putmask imls (fun x => fltb x min_val) min_val in
       let imls := np_putmask imls (fun x => fgtb x max_val) max_val in
       if negb (interp1d_init hazard_imls hazard_poes) then None
       else
         poes <- map_raise (interp1d hazard_imls hazard_poes) imls ;;
         Some (imls, poes)
     else Some (imls, hazard_poes)) ;;
  let afe := map (fun poe => annual_frequency_of_exceedence poe investigation_time)
                 poes in
  first <- py_index afe 0 ;;
  last <- py_index afe (-1) ;;
  let annual_frequency_of_occurrence :=
    pairwise_diff (pairwise_mean ([first] ++ afe ++ [last])) in
  poes_per_damage_state <-
    map_raise
      (fun ff =>
         values <- map_raise (FragilityFunction_call interp1d lognorm_cdf
                                fsqrt flog fpow ff) imls ;;
         frequency <- np_dot annual_frequency_of_occurrence values ;;
         Some (fsub f1 (fexp (fmul (fneg frequency) risk_investigation_time))))
      (elements fragility_functions) ;;
  Some (pairwise_diff ([f1] ++ poes_per_damage_state ++ [f0])).
End ClassicalDamage.

(** ** Loss maps *)

Section LossMaps.
Context {F : Type} `{PyFloat F}.

(** [loss_map_matrix(poes, curves)]: a row for each PoE, a column for each
    curve. *)
Definition loss_map_matrix (poes : list F) (curves : list (list F * list F))
  : option (list (list F)) :=
  map_raise
    (fun poe =>
       map_raise (fun curve => conditional_loss_ratio (fst curve) (snd curve) poe)
                 curves)
    poes.

(** [calc_loss_maps(conditional_loss_poes, asset_values, ratios, poe_matrix)];
    the transposed of a matrix without rows has a row, without items, for
    each curve. *)
Definition calc_loss_maps (conditional_loss_poes asset_values ratios : list F)
           (poe_matrix : list (list F)) : option (list (list F)) :=
  let curves :=
    map (fun '(avalue, poes) => (map (fun ratio => fmul ratio avalue) ratios, poes))
        (combine asset_values poe_matrix) in
  matrix <- loss_map_matrix conditional_loss_poes curves ;;
  Some (match conditional_loss_poes with
        | [] => repeat [] (length curves)
        | _ :: _ => transpose matrix
        end).
End LossMaps.

(** ** The curve builder *)

Record CurveBuilder (F : Type) : Type := mkCurveBuilder {
  loss_type : string;
  ratios : list F;
  user_provided : bool;
  curve_resolution : nat
}.
Arguments mkCurveBuilder {F}.
Arguments loss_type {F}.
Arguments ratios {F}.
Arguments user_provided {F}.
Arguments curve_resolution {F}.

Section CurveBuilders.
Context {F : Type} `{PyFloat F}.

(** The rounding of a float to single precision, [numpy.float32]. *)
Variable F32 : F -> F.

(** [CurveBuilder(loss_type, loss_ratios, user_provided)], without the
    record types it prepares for the data store. *)
Definition CurveBuilder_init (loss_type : string) (loss_ratios : list F)
           (user_provided : bool) : CurveBuilder F :=
  mkCurveBuilder loss_type (map F32 loss_ratios) user_provided
                 (length loss_ratios).

(** An item of an array of [numpy.uint32] *)
Definition uint32 (n : Z) : Z := (n mod 2 ^ 32)%Z.

(** [self.build_counts(loss_matrix)]: [get_counts] without a dictionary
    gives a row of [curve_resolution] zeros for each asset, and the row of
    the asset's counts is assigned to it: a single count is broadcast, and
    another number of counts than [curve_resolution] is a [ValueError]. *)
Definition build_counts (self : CurveBuilder F) (loss_matrix : list (list F))
  : option (list (list Z)) :=
  map_raise
    (fun loss_ratios =>
       let counts :=
         map (fun ratio =>
                uint32 (Z.of_nat (length (filter (fun x => fgeb x ratio)
                                                 loss_ratios))))
             (ratios self) in
       if (length counts =? curve_resolution self)%nat then Some counts
       else match counts with
            | [count] => Some (repeat count (curve_resolution self))
            | _ => None
            end)
    loss_matrix.
End CurveBuilders.

(** Counts that do not grow. *)
Fixpoint Zchain_ge (l : list Z) : bool :=
  match l with
  | x :: (y :: _) as r => (y <=? x)%Z && Zchain_ge r
  | _ => true
  end.

(** ** Vulnerability functions with a probability mass function *)

(** The truth value of a list *)
Definition py_bool {A : Type} (l : list A) : bool :=
  match l with
  | [] => false
  | _ :: _ => true
  end.

(** [probs.shape[1]] of the array that [numpy.array] makes of rows: an
    [IndexError] without rows, and on rows of different lengths, which do
    not make an array of two dimensions. *)
Definition shape1 {A : Type} (probs : list (list A)) : option nat :=
  match probs with
  | [] => None
  | row :: rest =>
      if forallb (fun other => (length other =? length row)%nat) rest
      then Some (length row)
      else None
  end.

Section VulnerabilityFunctionsWithPMF.
Context {F : Type} `{PyFloat F}.

(** [VulnerabilityFunctionWithPMF._check_vulnerability_data(imls, loss_ratios, probs)]:
    whether the assertions pass. *)
Definition VulnerabilityFunctionWithPMF_check_vulnerability_data
           (imls loss_ratios : list F) (probs : list (list F)) : bool :=
  forallb (fun x => fgeb x f0) imls
  && forallb (fun x => fgeb x f0) loss_ratios
  && forallb (fun y => py_bool (map (fun x => fgeb f1 x && fgeb x f0) y)) probs
  && (length probs =? length loss_ratios)%nat
  && match shape1 probs with
     | Some width => (width =? length imls)%nat
     | None => false
     end.
End VulnerabilityFunctionsWithPMF.

(** ** The pickled state of a vulnerability function *)

Section Pickling.
Context {F RNG : Type} `{PyFloat F}.
Local Open Scope obj_scope.

Variable interp1d_init : list F -> list F -> bool.

(** [self.init()] *)
Definition init (self : nat) : Py F RNG unit :=
  vf <- get_function self ;;
  stddevs <- lift (np_mul (covs vf) (mean_loss_ratios vf)) ;;
  put_function self
    (mkVulnerabilityFunction (vf_id vf) (imt vf) (imls vf) (mean_loss_ratios vf)
       (covs vf) (distribution_name vf) stddevs (distribution vf)) ;;;
  if negb (interp1d_init (imls vf) (mean_loss_ratios vf)
           && interp1d_init (imls vf) (covs vf))
  then raise
  else set_distribution self None.

(** [self.__getstate__()] *)
Definition VulnerabilityFunction_getstate (self : nat)
  : Py F RNG (string * string * list F * list F * list F * string) :=
  vf <- get_function self ;;
  ret (vf_id vf, imt vf, imls vf, mean_loss_ratios vf, covs vf,
       distribution_name vf).

(** [self.__setstate__(state)] *)
Definition VulnerabilityFunction_setstate (self : nat)
           (state : string * string * list F * list F * list F * string)
  : Py F RNG unit :=
  let '(state0, state1, state2, state3, state4, state5) := state in
  vf <- get_function self ;;
  put_function self
    (mkVulnerabilityFunction state0 state1 state2 state3 state4 state5
       (stddevs vf) (distribution vf)) ;;;
  init self.
End Pickling.

(** ** Examples *)

Definition example_curve_builder : CurveBuilder float :=
  CurveBuilder_init (fun x => x) "structural" [0.1; 0.2; 0.3; 0.9]%float true.

(** A store with one function without covs, hence degenerate. *)
Definition example_degenerate_store : Store float nat :=
  snd (VulnerabilityFunction_init example_interp1d_init "DG1" "PGA" example_imls
         example_mean_loss_ratios None "LN" (mkStore [] [] 0%nat)).

Definition example_apply
  : nat -> list float -> Py float nat (list float) :=
  VulnerabilityFunction_apply linear_interp1d PrimFloat.sqrt (fun x => x)
    (fun x => x) (fun x _ => PrimFloat.mul x x) example_random_beta.

(** ** The benefit-cost ratio *)

Section BenefitCostRatio.
Context {F : Type} `{PyFloat F}.

(** [numpy.exp] *)
Variable fexp : F -> F.

(** [bcr(eal_original, eal_retrofitted, interest_rate,
    asset_life_expectancy, asset_value, retrofitting_cost)] *)
Definition bcr (eal_original eal_retrofitted interest_rate
                  asset_life_expectancy asset_value retrofitting_cost : F) : F :=
  fdiv (fmul (fmul (fsub eal_original eal_retrofitted) asset_value)
             (fsub f1 (fexp (fmul (fneg interest_rate) asset_life_expectancy))))
       (fmul interest_rate retrofitting_cost).
End BenefitCostRatio.

(** ** Curves on common losses *)

Section NormalizeCurves.
Context {F : Type} `{PyFloat F}.

(** [scipy.interpolate.interp1d(xs, ys, bounds_error=False, fill_value=v)]:
    whether the constructor accepts the points, and what the interpolator
    returns at a point. *)
Variable interp1d_fill_init : list F -> list F -> bool.
Variable interp1d_fill : list F -> list F -> F -> F -> F.

(** [normalize_curves(curves)] *)
Definition normalize_curves (curves : list (list F * list F))
  : option (list F * list (list F)) :=
  first <- py_index curves 0 ;;
  Some (fst first, map snd curves).

(** [numpy.argmax]: the rank of the first of the largest items, a NaN
    being larger than the numbers; a [ValueError] on an empty sequence. *)
Fixpoint argmax_from (best : F) (best_rank rank : nat) (l : list F) : nat :=
  match l with
  | [] => best_rank
  | x :: r =>
      if fgtb x best || (negb (is_num x) && is_num best)
      then argmax_from x rank (S rank) r
      else argmax_from best best_rank (S rank) r
  end.

Definition np_argmax (l : list F) : option nat :=
  match l with
  | [] => None
  | x :: r => Some (argmax_from x 0 1 r)
  end.

(** [normalize_curves_eb(curves)] *)
Definition normalize_curves_eb (curves : list (list F * list F))
  : option (list F * list (list F)) :=
  flags <- map_raise (fun curve => last <- py_index (fst curve) (-1) ;;
                                   Some (fgtb last f0)) curves ;;
  let non_zero_curves :=
    map fst (filter snd (combine curves flags)) in
  if negb (py_bool non_zero_curves) then
    first <- py_index curves 0 ;;
    Some (fst first, map snd curves)
  else
    max_losses <- map_raise (fun curve => py_index (fst curve) (-1))
                            non_zero_curves ;;
    rank <- np_argmax max_losses ;;
    reference_curve <- py_index non_zero_curves (Z.of_nat rank) ;;
    let loss_ratios := fst reference_curve in
    curves_poes <-
      map_raise (fun curve =>
                   if interp1d_fill_init (fst curve) (snd curve)
                   then Some (map (interp1d_fill (fst curve) (snd curve) f0)
                                  loss_ratios)
                   else None)
                curves ;;
    Some (loss_ratios, curves_poes).
End NormalizeCurves.

(** ** The order laws at the two carriers *)

Module Binary64Order.
Import Binary64.

Lemma lex3_Lt a b c a' b' c' :
  lex3 (a, b, c) (a', b', c') = Lt <->
  (a < a' \/ (a = a' /\ (b < b' \/ (b = b' /\ c < c'))))%Z.
Proof.
  unfold lex3.
  destruct (Z.compare_spec a a'); [destruct (Z.compare_spec b b');
    [destruct (Z.compare_spec c c')|..]|..];
    split; intros; try discriminate; try lia; reflexivity.
Qed.

Lemma lex3_Eq a b c a' b' c' :
  lex3 (a, b, c) (a', b', c') = Eq <-> (a = a' /\ b = b' /\ c = c')%Z.
Proof.
  unfold lex3.
  destruct (Z.compare_spec a a'); [destruct (Z.compare_spec b b');
    [destruct (Z.compare_spec c c')|..]|..];
    split; intros; try discriminate; try lia; reflexivity.
Qed.

Lemma lex3_Gt k k' : lex3 k k' = Gt <-> lex3 k' k = Lt.
Proof.
  destruct k as [[a b] c], k' as [[a' b'] c']. rewrite lex3_Lt. unfold lex3.
  destruct (Z.compare_spec a a'); [destruct (Z.compare_spec b b');
    [destruct (Z.compare_spec c c')|..]|..];
    split; intros; try discriminate; try lia; reflexivity.
Qed.

Lemma SFcompare_key x y :
  x <> S754_nan -> y <> S754_nan ->
  SFcompare x y = Some (lex3 (SFkey x) (SFkey y)).
Proof.
  destruct x as [s|s| |s m e], y as [s'|s'| |s' m' e']; intros Hx Hy;
    try congruence; cbn [SFcompare SFkey lex3].
  all: try (destruct s; reflexivity); try (destruct s'; reflexivity);
       try (destruct s, s'; reflexivity).
  change (Pos.compare_cont Eq m m') with (Z.pos m ?= Z.pos m')%Z.
  destruct s, s'; cbn [Z.compare]; try reflexivity.
  unfold lex3. change (-1 ?= -1)%Z with Eq. cbv iota.
  rewrite Z.compare_opp, (Z.compare_antisym e e').
  destruct (e ?= e')%Z; reflexivity.
Qed.

Lemma SFcompare_cmp_key (p : comparison -> bool) x y :
  match SFcompare (Prim2SF x) (Prim2SF y) with Some c => p c | None => false end
  = cmp_key p x y.
Proof.
  unfold cmp_key, key.
  destruct (Prim2SF x) eqn:Ex; destruct (Prim2SF y) eqn:Ey;
    try reflexivity; try (destruct s; reflexivity);
    rewrite SFcompare_key by discriminate; reflexivity.
Qed.

Lemma ltb_key x y :
  PrimFloat.ltb x y = cmp_key (fun c => match c with Lt => true | _ => false end) x y.
Proof.
  rewrite ltb_spec, <- SFcompare_cmp_key. unfold SFltb.
  destruct (SFcompare _ _) as [[]|]; reflexivity.
Qed.

Lemma eqb_key x y :
  PrimFloat.eqb x y = cmp_key (fun c => match c with Eq => true | _ => false end) x y.
Proof.
  rewrite eqb_spec, <- SFcompare_cmp_key. unfold SFeqb.
  destruct (SFcompare _ _) as [[]|]; reflexivity.
Qed.

Lemma leb_key x y :
  PrimFloat.leb x y = cmp_key (fun c => match c with Gt => false | _ => true end) x y.
Proof.
  rewrite leb_spec, <- SFcompare_cmp_key. unfold SFleb.
  destruct (SFcompare _ _) as [[]|]; reflexivity.
Qed.

Ltac keys :=
  cbn [fltb feqb fleb float_PyFloat is_num] in *; unfold is_num in *;
  cbn [fltb feqb fleb float_PyFloat] in *;
  rewrite ?ltb_key, ?eqb_key, ?leb_key in *; unfold cmp_key in *;
  repeat match goal with
    | |- context [key ?x] => destruct (key x) as [[[? ?] ?]|]
    | H : context [key ?x] |- _ => destruct (key x) as [[[? ?] ?]|]
    end;
  try discriminate; try tauto;
  repeat match goal with
    | H : context [match lex3 ?a ?b with _ => _ end] |- _ =>
        let E := fresh "E" in destruct (lex3 a b) eqn:E; try discriminate
    | |- context [match lex3 ?a ?b with _ => _ end] =>
        let E := fresh "E" in destruct (lex3 a b) eqn:E
    end;
  repeat match goal with
    | H : lex3 _ _ = Gt |- _ => apply lex3_Gt in H
    end;
  repeat match goal with
    | H : lex3 _ _ = Lt |- _ => apply lex3_Lt in H
    | H : lex3 _ _ = Eq |- _ => apply lex3_Eq in H
    end;
  try discriminate; try tauto; try (exfalso; lia); try lia.

Lemma float_order : PyFloatOrder float.
Proof.
  split; intros.
  - keys; rewrite ?(proj2 (lex3_Eq _ _ _ _ _ _)) by lia; auto.
  - keys; rewrite ?(proj2 (lex3_Eq _ _ _ _ _ _)) by lia; auto.
  - keys.
  - keys.
  - keys.
  - keys.
  - keys.
  - keys.
  - keys.
  - keys.
  - keys.
  - vm_compute. reflexivity.
Qed.

End Binary64Order.

#[global] Instance float_PyFloatOrder : PyFloatOrder float :=
  Binary64Order.float_order.

Module ExactOrder.
Import Exact.

Ltac xcases :=
  cbn [fltb feqb fleb xreal_PyFloat is_num] in *; unfold is_num in *;
  cbn [fltb feqb fleb xreal_PyFloat] in *;
  repeat match goal with
    | x : xreal |- _ => destruct x
    end;
  cbn [xcmp] in *; unfold Rltb, Rleb, Reqb in *;
  repeat match goal with
    | H : context [Rlt_dec ?a ?b] |- _ => destruct (Rlt_dec a b)
    | H : context [Rle_dec ?a ?b] |- _ => destruct (Rle_dec a b)
    | H : context [Req_dec_T ?a ?b] |- _ => destruct (Req_dec_T a b)
    | |- context [Rlt_dec ?a ?b] => destruct (Rlt_dec a b)
    | |- context [Rle_dec ?a ?b] => destruct (Rle_dec a b)
    | |- context [Req_dec_T ?a ?b] => destruct (Req_dec_T a b)
    end;
  try discriminate; try tauto; try (exfalso; lra); auto.

Lemma xreal_order : PyFloatOrder xreal.
Proof.
  split; intros; xcases.
  unfold f0. cbn. unfold Exact.Reqb.
  destruct (Req_dec_T 0 0); [reflexivity|congruence].
Qed.

End ExactOrder.

#[global] Instance xreal_PyFloatOrder : PyFloatOrder xreal :=
  ExactOrder.xreal_order.

(** ** Consequences of the order laws *)

Section OrderFacts.
Context {F : Type} `{PyFloatOrder F}.

Lemma fleb_true x y :
  fleb x y = true <-> fltb x y = true \/ feqb x y = true.
Proof. rewrite fleb_spec, orb_true_iff. tauto. Qed.

Lemma fleb_refl x : is_num x = true -> fleb x x = true.
Proof. intros Hx. apply fleb_true. right. exact Hx. Qed.

Lemma fleb_is_num x y :
  fleb x y = true -> is_num x = true /\ is_num y = true.
Proof.
  intros [Hlt|Heq]%fleb_true; [eapply fltb_is_num|eapply feqb_is_num]; eauto.
Qed.

Lemma fltb_nan_r x y : is_num y = false -> fltb x y = false.
Proof.
  intros Hy. destruct (fltb x y) eqn:E; [|reflexivity].
  apply fltb_is_num in E. destruct E; congruence.
Qed.

Lemma fltb_nan_l x y : is_num x = false -> fltb x y = false.
Proof.
  intros Hx. destruct (fltb x y) eqn:E; [|reflexivity].
  apply fltb_is_num in E. destruct E; congruence.
Qed.

Lemma feqb_nan_r x y : is_num y = false -> feqb x y = false.
Proof.
  intros Hy. destruct (feqb x y) eqn:E; [|reflexivity].
  apply feqb_is_num in E. destruct E; congruence.
Qed.

Lemma fltb_irrefl x : fltb x x = false.
Proof.
  destruct (fltb x x) eqn:E; [|reflexivity].
  pose proof (fltb_asym _ _ E). congruence.
Qed.

Lemma fltb_fleb_trans x y z :
  fltb x y = true -> fleb y z = true -> fltb x z = true.
Proof.
  intros Hxy [Hyz|Hyz]%fleb_true.
  - eapply fltb_trans; eauto.
  - eapply fltb_eq_r; eauto.
Qed.

Lemma fleb_fltb_trans x y z :
  fleb x y = true -> fltb y z = true -> fltb x z = true.
Proof.
  intros [Hxy|Hxy]%fleb_true Hyz.
  - eapply fltb_trans; eauto.
  - eapply fltb_eq_l; [rewrite feqb_sym|]; eauto.
Qed.

Lemma fleb_trans x y z :
  fleb x y = true -> fleb y z = true -> fleb x z = true.
Proof.
  intros Hxy [Hyz|Hyz]%fleb_true.
  - apply fleb_true. left. eapply fleb_fltb_trans; eauto.
  - apply fleb_true in Hxy. apply fleb_true. destruct Hxy as [Hxy|Hxy].
    + left. eapply fltb_eq_r; eauto.
    + right. eapply feqb_trans; eauto.
Qed.

(** Among numbers, [not (x < y)] is [y <= x]. *)
Lemma fltb_false_fleb x y :
  is_num x = true -> is_num y = true -> fltb x y = false -> fleb y x = true.
Proof.
  intros Hx Hy Hlt. apply fleb_true.
  destruct (f_total x y Hx Hy) as [E|[E|E]]; [congruence| |tauto].
  right. rewrite feqb_sym. exact E.
Qed.

Lemma fleb_fltb_false x y : fleb x y = true -> fltb y x = false.
Proof.
  intros [Hlt|Heq]%fleb_true.
  - apply fltb_asym. exact Hlt.
  - destruct (fltb y x) eqn:E; [|reflexivity].
    apply fltb_neq in E. rewrite feqb_sym in E. congruence.
Qed.

(** *** Bisection *)

Lemma midpoint_bounds (lo hi : nat) :
  (lo < hi)%nat -> (lo <= Nat.div (lo + hi) 2 < hi)%nat.
Proof.
  intros Hlt. pose proof (Nat.div_mod_eq (lo + hi) 2) as E.
  pose proof (Nat.mod_upper_bound (lo + hi) 2). lia.
Qed.

Lemma bisect_loop_right (a : list F) (x : F) :
  (forall k, (k < length a)%nat -> fltb x (nth k a fnan) = false) ->
  forall fuel lo hi,
    (lo <= hi)%nat -> (hi <= length a)%nat -> (hi - lo <= fuel)%nat ->
    bisect_loop fuel a x lo hi = hi.
Proof.
  intros Hall. induction fuel as [|fuel IH]; intros lo hi Hlo Hhi Hfuel;
    cbn [bisect_loop].
  - lia.
  - destruct (Nat.ltb_spec lo hi) as [Hlt|Hge]; [|lia].
    assert (Hmid : (lo <= Nat.div (lo + hi) 2 < hi)%nat).
    { apply midpoint_bounds. exact Hlt. }
    rewrite Hall by lia. apply IH; lia.
Qed.

(** On a sequence in non-decreasing order, [bisect_right] returns the
    point that splits the items not above [x] from the items above it. *)
Lemma bisect_loop_sorted (a : list F) (x : F) :
  (forall i j, (i <= j < length a)%nat ->
               fleb (nth i a fnan) (nth j a fnan) = true) ->
  forall fuel lo hi,
    (lo <= hi)%nat -> (hi <= length a)%nat -> (hi - lo <= fuel)%nat ->
    (forall k, (k < lo)%nat -> fltb x (nth k a fnan) = false) ->
    (forall k, (hi <= k < length a)%nat -> fltb x (nth k a fnan) = true) ->
    let r := bisect_loop fuel a x lo hi in
    (r <= length a)%nat /\
    (forall k, (k < r)%nat -> fltb x (nth k a fnan) = false) /\
    (forall k, (r <= k < length a)%nat -> fltb x (nth k a fnan) = true).
Proof.
  intros Hsorted. induction fuel as [|fuel IH];
    intros lo hi Hlo Hhi Hfuel Hbelow Habove; cbn [bisect_loop].
  - assert (lo = hi) by lia. subst. auto.
  - destruct (Nat.ltb_spec lo hi) as [Hlt|Hge].
    2:{ assert (lo = hi) by lia. subst. auto. }
    assert (Hmid : (lo <= Nat.div (lo + hi) 2 < hi)%nat).
    { apply midpoint_bounds. exact Hlt. }
    set (mid := Nat.div (lo + hi) 2) in *.
    destruct (fltb x (nth mid a fnan)) eqn:E.
    + apply IH; try lia; auto.
      intros k Hk. eapply fltb_fleb_trans; [exact E|].
      apply Hsorted. lia.
    + apply IH; try lia; auto.
      intros k Hk. destruct (fltb x (nth k a fnan)) eqn:E'; [|reflexivity].
      assert (fltb x (nth mid a fnan) = true); [|congruence].
      eapply fltb_fleb_trans; [exact E'|]. apply Hsorted. lia.
Qed.

Lemma bisect_right_sorted (a : list F) (x : F) :
  (forall i j, (i <= j < length a)%nat ->
               fleb (nth i a fnan) (nth j a fnan) = true) ->
  (bisect_right a x <= length a)%nat /\
  (forall k, (k < bisect_right a x)%nat -> fltb x (nth k a fnan) = false) /\
  (forall k, (bisect_right a x <= k < length a)%nat ->
             fltb x (nth k a fnan) = true).
Proof.
  intros Hsorted. unfold bisect_right.
  apply bisect_loop_sorted; auto; try lia; intros; lia.
Qed.

Lemma bisect_right_all_nan (a : list F) (x : F) :
  forallb (fun y => negb (is_num y)) a = true ->
  bisect_right a x = length a.
Proof.
  intros Hnan. unfold bisect_right. apply bisect_loop_right; try lia.
  intros k Hk. apply fltb_nan_r.
  rewrite forallb_forall in Hnan.
  specialize (Hnan (nth k a fnan) (nth_In _ _ Hk)).
  now apply negb_true_iff in Hnan.
Qed.

End OrderFacts.

(** ** Indexing and slicing *)

Section PySeqFacts.
Context {A : Type}.

Lemma py_index_0 (x : A) (l : list A) : py_index (x :: l) 0 = Some x.
Proof.
  unfold py_index. cbn [length].
  replace ((0 <=? 0)%Z && (0 <? Z.of_nat (S (length l)))%Z) with true;
    [reflexivity|].
  symmetry. apply andb_true_iff. split; [reflexivity|]. apply Z.ltb_lt. lia.
Qed.

Lemma py_index_last (l : list A) (d : A) :
  l <> [] -> py_index l (-1) = Some (nth (length l - 1) l d).
Proof.
  intros Hl. unfold py_index. cbn [Z.ltb Z.compare].
  assert (Hn : (0 < length l)%nat) by (destruct l; [congruence|simpl; lia]).
  replace ((0 <=? -1 + Z.of_nat (length l))%Z &&
           (-1 + Z.of_nat (length l) <? Z.of_nat (length l))%Z) with true.
  - replace (Z.to_nat (-1 + Z.of_nat (length l))) with (length l - 1)%nat by lia.
    apply nth_error_nth'. lia.
  - symmetry. apply andb_true_iff. split; [apply Z.leb_le|apply Z.ltb_lt]; lia.
Qed.

Lemma firstn_2_skipn (l : list A) (d : A) (k : nat) :
  (S k < length l)%nat ->
  firstn 2 (skipn k l) = [nth k l d; nth (S k) l d].
Proof.
  revert l. induction k as [|k IH]; intros l Hk.
  - destruct l as [|x [|y l]]; simpl in Hk; try lia. reflexivity.
  - destruct l as [|x l]; simpl in Hk; [lia|].
    cbn [skipn]. rewrite IH by lia. reflexivity.
Qed.

(** The last two items, [l[-2:]]. *)
Lemma py_slice_from_last2 (l : list A) (d : A) :
  (2 <= length l)%nat ->
  py_slice_from l (-2) = [nth (length l - 2) l d; nth (length l - 1) l d].
Proof.
  intros Hn. unfold py_slice_from, py_bound. cbn [Z.ltb Z.compare].
  replace (Z.to_nat (Z.max 0 (-2 + Z.of_nat (length l))))
    with (length l - 2)%nat by lia.
  rewrite <- (firstn_all (skipn _ l)).
  rewrite length_skipn.
  replace (length l - (length l - 2))%nat with 2%nat by lia.
  rewrite (firstn_2_skipn l d) by lia.
  repeat f_equal. lia.
Qed.

(** The two items [l[-i-1:-i+1]] for [2 <= i < len(l)]. *)
Lemma py_slice_interval (l : list A) (d : A) (i : nat) :
  (2 <= i < length l)%nat ->
  py_slice l (- Z.of_nat i - 1) (- Z.of_nat i + 1)
  = [nth (length l - 1 - i) l d; nth (length l - i) l d].
Proof.
  intros Hi. unfold py_slice, py_bound.
  destruct (Z.ltb_spec (- Z.of_nat i - 1) 0) as [_|?]; [|lia].
  destruct (Z.ltb_spec (- Z.of_nat i + 1) 0) as [_|?]; [|lia].
  replace (Z.to_nat (Z.max 0 (- Z.of_nat i - 1 + Z.of_nat (length l))))
    with (length l - 1 - i)%nat by lia.
  replace (Z.to_nat (Z.max 0 (- Z.of_nat i + 1 + Z.of_nat (length l))))
    with (length l - 1 - i + 2)%nat by lia.
  replace (length l - 1 - i + 2 - (length l - 1 - i))%nat with 2%nat by lia.
  rewrite (firstn_2_skipn l d) by lia.
  repeat f_equal. lia.
Qed.
End PySeqFacts.

(** ** The cases of [conditional_loss_ratio] *)

Section ConditionalLossRatio.
Context {F : Type} `{PyFloatOrder F}.

(** The fall-through of the first three tests with a bisection that runs to
    the end of the curve is the NaN branch, whatever the membership test. *)
Lemma conditional_loss_ratio_nan_branch (contains : F -> list F -> bool)
      (loss_ratios poes : list F) (probability poe_max poe_min : F) :
  py_index poes 0 = Some poe_max ->
  py_index poes (-1) = Some poe_min ->
  fgtb probability poe_max = false ->
  fltb probability poe_min = false ->
  contains probability poes = false ->
  bisect_right (rev poes) probability = length poes ->
  conditional_loss_ratio_with contains loss_ratios poes probability = Some fnan.
Proof.
  intros Hfirst Hlast Hgt Hlt Hin Hbis. unfold conditional_loss_ratio_with.
  rewrite Hfirst, Hgt, Hlast, Hlt, Hin, Hbis, Nat.eqb_refl. reflexivity.
Qed.

(** When the membership test succeeds and no PoE is a number, no PoE is
    equal to the probability and [max] has nothing to choose from. *)
Lemma matching_losses_all_nan (loss_ratios poes : list F) (probability : F) :
  forallb (fun y => negb (is_num y)) poes = true ->
  (losses <- matching_losses loss_ratios poes probability ;; py_max losses) = None.
Proof.
  intros Hnan.
  assert (Hcases : matching_losses loss_ratios poes probability = None \/
                   matching_losses loss_ratios poes probability = Some []).
  { revert poes Hnan. induction loss_ratios as [|loss lrs IH]; intros poes Hnan.
    - right. reflexivity.
    - destruct poes as [|poe poes']; [left; reflexivity|].
      cbn [forallb] in Hnan. apply andb_true_iff in Hnan.
      destruct Hnan as [Hpoe Hnan]. apply negb_true_iff in Hpoe.
      cbn [matching_losses]. rewrite (feqb_nan_r probability poe Hpoe).
      destruct (IH poes' Hnan) as [E|E]; rewrite E; [left|right]; reflexivity. }
  destruct Hcases as [E|E]; rewrite E; reflexivity.
Qed.

Lemma conditional_loss_ratio_found_nan (contains : F -> list F -> bool)
      (loss_ratios poes : list F) (probability poe_max poe_min : F) :
  py_index poes 0 = Some poe_max ->
  py_index poes (-1) = Some poe_min ->
  fgtb probability poe_max = false ->
  fltb probability poe_min = false ->
  contains probability poes = true ->
  forallb (fun y => negb (is_num y)) poes = true ->
  conditional_loss_ratio_with contains loss_ratios poes probability = None.
Proof.
  intros Hfirst Hlast Hgt Hlt Hin Hnan. unfold conditional_loss_ratio_with.
  rewrite Hfirst, Hgt, Hlast, Hlt, Hin. apply matching_losses_all_nan. exact Hnan.
Qed.

(** On a list without a number, membership is the identity of the objects. *)
Lemma py_in_list_all_nan (same_object : nat -> bool) (x : F) (l : list F) :
  forallb (fun y => negb (is_num y)) l = true ->
  py_in_list same_object x l = existsb same_object (seq 0 (length l)).
Proof.
  intros Hnan. unfold py_in_list. generalize 0%nat as k.
  induction l as [|e l IH]; intros k; [reflexivity|].
  cbn [forallb] in Hnan. apply andb_true_iff in Hnan.
  destruct Hnan as [He Hnan]. apply negb_true_iff in He.
  cbn [length seq combine existsb].
  rewrite (feqb_nan_r x e He), orb_false_r, (IH Hnan). reflexivity.
Qed.

Lemma all_nan_tests (poes : list F) (probability : F) :
  poes <> [] ->
  forallb (fun y => negb (is_num y)) poes = true ->
  exists poe_max poe_min,
    py_index poes 0 = Some poe_max /\
    py_index poes (-1) = Some poe_min /\
    fgtb probability poe_max = false /\
    fltb probability poe_min = false /\
    py_in probability poes = false /\
    bisect_right (rev poes) probability = length poes.
Proof.
  intros Hne Hnan.
  assert (Hall : forall y, In y poes -> is_num y = false).
  { intros y Hy. rewrite forallb_forall in Hnan.
    apply negb_true_iff. apply Hnan. exact Hy. }
  destruct poes as [|q poes']; [congruence|].
  exists q, (nth (length (q :: poes') - 1) (q :: poes') q).
  split; [apply py_index_0|].
  split; [apply py_index_last; discriminate|].
  split; [apply fltb_nan_l, Hall; left; reflexivity|].
  split; [apply fltb_nan_r, Hall, nth_In; simpl; lia|].
  split.
  - unfold py_in. destruct (existsb _ _) eqn:E; [|reflexivity].
    apply existsb_exists in E. destruct E as [y [Hy E]].
    rewrite (feqb_nan_r _ _ (Hall y Hy)) in E. discriminate.
  - rewrite <- (length_rev (q :: poes')). apply bisect_right_all_nan.
    apply forallb_forall. intros y Hy. apply negb_true_iff, Hall.
    apply in_rev. exact Hy.
Qed.


(** *** Sorted sequences *)

Lemma chain_head (rel : F -> F -> bool) (x : F) (l : list F) :
  (forall a b c, rel a b = true -> rel b c = true -> rel a c = true) ->
  chain rel (x :: l) = true -> forall y, In y l -> rel x y = true.
Proof.
  intros Htrans. revert x. induction l as [|z l IH]; intros x Hc y Hy.
  - destruct Hy.
  - cbn [chain] in Hc. apply andb_true_iff in Hc. destruct Hc as [Hxz Hc].
    destruct Hy as [<-|Hy]; [exact Hxz|].
    eapply Htrans; [exact Hxz|]. apply IH; assumption.
Qed.

Lemma chain_nth (rel : F -> F -> bool) (l : list F) (d : F) :
  (forall a b c, rel a b = true -> rel b c = true -> rel a c = true) ->
  (forall x, In x l -> rel x x = true) ->
  chain rel l = true ->
  forall i j, (i <= j < length l)%nat -> rel (nth i l d) (nth j l d) = true.
Proof.
  intros Htrans. induction l as [|x l IH]; intros Hrefl Hc i j Hij.
  - simpl in Hij. lia.
  - assert (Hc' : chain rel l = true).
    { destruct l; [reflexivity|]. cbn [chain] in Hc.
      apply andb_true_iff in Hc. tauto. }
    destruct i as [|i], j as [|j]; cbn [nth]; simpl in Hij.
    + apply Hrefl. left. reflexivity.
    + eapply chain_head; eauto. apply nth_In. lia.
    + lia.
    + apply IH; auto; [|lia]. intros z Hz. apply Hrefl. right. exact Hz.
Qed.

Lemma forallb_is_num_In (l : list F) :
  forallb is_num l = true -> forall x, In x l -> is_num x = true.
Proof. intros Hl. apply forallb_forall. exact Hl. Qed.

Lemma non_decreasing_nth (l : list F) (d : F) :
  forallb is_num l = true -> non_decreasing l = true ->
  forall i j, (i <= j < length l)%nat -> fleb (nth i l d) (nth j l d) = true.
Proof.
  intros Hnum Hs. apply chain_nth; auto.
  - apply fleb_trans.
  - intros x Hx. apply fleb_refl. eapply forallb_is_num_In; eauto.
Qed.

Lemma non_increasing_nth (l : list F) (d : F) :
  forallb is_num l = true -> non_increasing l = true ->
  forall i j, (i <= j < length l)%nat -> fleb (nth j l d) (nth i l d) = true.
Proof.
  intros Hnum Hs i j Hij.
  change (fgeb (nth i l d) (nth j l d) = true). apply chain_nth; auto.
  - unfold fgeb. intros a b c Hab Hbc. eapply fleb_trans; eauto.
  - intros x Hx. apply fleb_refl. eapply forallb_is_num_In; eauto.
Qed.

(** *** The builtins [max] and [min] *)

Lemma fold_max_is_max (l : list F) (x : F) :
  is_num x = true -> forallb is_num l = true ->
  let r := fold_left (fun m y => if fgtb y m then y else m) l x in
  In r (x :: l) /\ fleb x r = true /\ forall z, In z l -> fleb z r = true.
Proof.
  revert x. induction l as [|y l IH]; intros x Hx Hl; cbn [fold_left].
  - split; [left; reflexivity|]. split; [apply fleb_refl; exact Hx|].
    intros z [].
  - cbn [forallb] in Hl. apply andb_true_iff in Hl. destruct Hl as [Hy Hl].
    set (m := if fgtb y x then y else x).
    assert (Hm : is_num m = true) by (unfold m; destruct (fgtb y x); assumption).
    assert (Hxm : fleb x m = true).
    { unfold m, fgtb. destruct (fltb x y) eqn:E.
      - apply fleb_true. left. exact E.
      - apply fleb_refl. exact Hx. }
    assert (Hym : fleb y m = true).
    { unfold m, fgtb. destruct (fltb x y) eqn:E.
      - apply fleb_refl. exact Hy.
      - apply fltb_false_fleb; assumption. }
    destruct (IH m Hm Hl) as [Hin [Hmr Hrest]].
    split; [|split].
    + destruct Hin as [Hin|Hin]; [|right; right; exact Hin].
      rewrite <- Hin. unfold m. destruct (fgtb y x); [right|]; left; reflexivity.
    + eapply fleb_trans; eauto.
    + intros z [<-|Hz]; [eapply fleb_trans; eauto|apply Hrest; exact Hz].
Qed.

Lemma py_max_is_max (l : list F) :
  l <> [] -> forallb is_num l = true ->
  exists r, py_max l = Some r /\ is_max r l.
Proof.
  destruct l as [|x l]; [congruence|]. intros _ Hl.
  cbn [forallb] in Hl. apply andb_true_iff in Hl. destruct Hl as [Hx Hl].
  eexists. split; [reflexivity|].
  destruct (fold_max_is_max l x Hx Hl) as [Hin [Hxr Hrest]].
  split; [exact Hin|]. intros z [<-|Hz]; auto.
Qed.

Lemma fold_min_is_min (l : list F) (x : F) :
  is_num x = true -> forallb is_num l = true ->
  let r := fold_left (fun m y => if fltb y m then y else m) l x in
  In r (x :: l) /\ fleb r x = true /\ forall z, In z l -> fleb r z = true.
Proof.
  revert x. induction l as [|y l IH]; intros x Hx Hl; cbn [fold_left].
  - split; [left; reflexivity|]. split; [apply fleb_refl; exact Hx|].
    intros z [].
  - cbn [forallb] in Hl. apply andb_true_iff in Hl. destruct Hl as [Hy Hl].
    set (m := if fltb y x then y else x).
    assert (Hm : is_num m = true) by (unfold m; destruct (fltb y x); assumption).
    assert (Hxm : fleb m x = true).
    { unfold m. destruct (fltb y x) eqn:E.
      - apply fleb_true. left. exact E.
      - apply fleb_refl. exact Hx. }
    assert (Hym : fleb m y = true).
    { unfold m. destruct (fltb y x) eqn:E.
      - apply fleb_refl. exact Hy.
      - apply fltb_false_fleb; assumption. }
    destruct (IH m Hm Hl) as [Hin [Hmr Hrest]].
    split; [|split].
    + destruct Hin as [Hin|Hin]; [|right; right; exact Hin].
      rewrite <- Hin. unfold m. destruct (fltb y x); [right|]; left; reflexivity.
    + eapply fleb_trans; eauto.
    + intros z [<-|Hz]; [eapply fleb_trans; eauto|apply Hrest; exact Hz].
Qed.

Lemma py_min_is_min (l : list F) :
  l <> [] -> forallb is_num l = true ->
  exists r, py_min l = Some r /\ is_min r l.
Proof.
  destruct l as [|x l]; [congruence|]. intros _ Hl.
  cbn [forallb] in Hl. apply andb_true_iff in Hl. destruct Hl as [Hx Hl].
  eexists. split; [reflexivity|].
  destruct (fold_min_is_min l x Hx Hl) as [Hin [Hxr Hrest]].
  split; [exact Hin|]. intros z [<-|Hz]; auto.
Qed.

(** Two largest items compare alike with everything else. *)
Lemma is_max_fltb (l : list F) (m m' x : F) :
  is_max m l -> is_max m' l -> fltb m x = fltb m' x.
Proof.
  intros [Hin Hm] [Hin' Hm'].
  destruct (fltb m x) eqn:E, (fltb m' x) eqn:E'; try reflexivity.
  - rewrite <- E'. symmetry. eapply fleb_fltb_trans; [apply Hm; exact Hin'|exact E].
  - rewrite <- E. eapply fleb_fltb_trans; [apply Hm'; exact Hin|exact E'].
Qed.

Lemma is_min_fltb (l : list F) (m m' x : F) :
  is_min m l -> is_min m' l -> fltb x m = fltb x m'.
Proof.
  intros [Hin Hm] [Hin' Hm'].
  destruct (fltb x m) eqn:E, (fltb x m') eqn:E'; try reflexivity.
  - rewrite <- E'. symmetry. eapply fltb_fleb_trans; [exact E|apply Hm; exact Hin'].
  - rewrite <- E. eapply fltb_fleb_trans; [exact E'|apply Hm'; exact Hin].
Qed.

(** *** The matching points *)

Lemma matching_losses_losses_at (loss_ratios poes : list F) (probability : F) :
  length loss_ratios = length poes ->
  matching_losses loss_ratios poes probability
  = Some (losses_at loss_ratios poes probability).
Proof.
  revert poes. induction loss_ratios as [|loss lrs IH]; intros [|poe poes] Hlen;
    try discriminate; [reflexivity|].
  cbn [matching_losses]. rewrite IH by (simpl in Hlen; lia).
  unfold losses_at. cbn [combine filter snd].
  destruct (feqb probability poe); reflexivity.
Qed.

Lemma losses_at_nonempty (loss_ratios poes : list F) (probability : F) :
  length loss_ratios = length poes ->
  py_in probability poes = true ->
  losses_at loss_ratios poes probability <> [].
Proof.
  revert poes. induction loss_ratios as [|loss lrs IH]; intros [|poe poes] Hlen Hin;
    try discriminate.
  unfold losses_at. cbn [combine filter snd].
  unfold py_in in Hin. cbn [existsb] in Hin.
  destruct (feqb probability poe); [discriminate|].
  apply IH; [simpl in Hlen; lia|exact Hin].
Qed.

Lemma losses_at_incl (loss_ratios poes : list F) (probability x : F) :
  In x (losses_at loss_ratios poes probability) -> In x loss_ratios.
Proof.
  unfold losses_at. intros Hx. apply in_map_iff in Hx.
  destruct Hx as [[l q] [<- Hx]]. apply filter_In in Hx.
  destruct Hx as [Hx _]. apply in_combine_l in Hx. exact Hx.
Qed.


(** A probability that is no number passes the first two tests, equals no
    PoE, and sends the bisection to the end of the curve. *)
Lemma nan_probability_tests (poes : list F) (probability : F) :
  poes <> [] ->
  is_num probability = false ->
  exists poe_max poe_min,
    py_index poes 0 = Some poe_max /\
    py_index poes (-1) = Some poe_min /\
    fgtb probability poe_max = false /\
    fltb probability poe_min = false /\
    py_in probability poes = false /\
    bisect_right (rev poes) probability = length poes.
Proof.
  intros Hne Hp.
  destruct poes as [|q poes']; [congruence|].
  exists q, (nth (length (q :: poes') - 1) (q :: poes') q).
  split; [apply py_index_0|].
  split; [apply py_index_last; discriminate|].
  split; [apply fltb_nan_r; exact Hp|].
  split; [apply fltb_nan_l; exact Hp|].
  split.
  - unfold py_in. destruct (existsb _ _) eqn:E; [|reflexivity].
    apply existsb_exists in E. destruct E as [y [Hy E]].
    rewrite feqb_sym, (feqb_nan_r _ _ Hp) in E. discriminate.
  - rewrite <- (length_rev (q :: poes')). unfold bisect_right.
    apply bisect_loop_right; try lia.
    intros k Hk. apply fltb_nan_l. exact Hp.
Qed.

(** *** The four cases *)

Lemma head_is_max (poes : list F) (d : F) :
  poes <> [] -> forallb is_num poes = true -> non_increasing poes = true ->
  is_max (nth 0 poes d) poes.
Proof.
  intros Hne Hnum Hs.
  assert (Hn : (0 < length poes)%nat) by (destruct poes; [congruence|simpl; lia]).
  split; [apply nth_In; exact Hn|].
  intros x Hx. destruct (In_nth _ _ d Hx) as [j [Hj <-]].
  apply non_increasing_nth; auto. lia.
Qed.

Lemma last_is_min (poes : list F) (d : F) :
  poes <> [] -> forallb is_num poes = true -> non_increasing poes = true ->
  is_min (nth (length poes - 1) poes d) poes.
Proof.
  intros Hne Hnum Hs.
  assert (Hn : (0 < length poes)%nat) by (destruct poes; [congruence|simpl; lia]).
  split; [apply nth_In; lia|].
  intros x Hx. destruct (In_nth _ _ d Hx) as [j [Hj <-]].
  apply non_increasing_nth; auto. lia.
Qed.

Lemma last_is_max (lrs : list F) (d : F) :
  lrs <> [] -> forallb is_num lrs = true -> non_decreasing lrs = true ->
  is_max (nth (length lrs - 1) lrs d) lrs.
Proof.
  intros Hne Hnum Hs.
  assert (Hn : (0 < length lrs)%nat) by (destruct lrs; [congruence|simpl; lia]).
  split; [apply nth_In; lia|].
  intros x Hx. destruct (In_nth _ _ d Hx) as [j [Hj <-]].
  apply non_decreasing_nth; auto. lia.
Qed.

Lemma py_in_false (x : F) (l : list F) :
  py_in x l = false -> forall y, In y l -> feqb x y = false.
Proof.
  unfold py_in. intros Hin y Hy. destruct (feqb x y) eqn:E; [|reflexivity].
  assert (existsb (feqb x) l = true); [|congruence].
  apply existsb_exists. exists y. auto.
Qed.

(** On a list of numbers, membership is by [==]: an object that is an item
    of the list is a number, and equal to itself. *)
Lemma py_in_list_numbers (same_object : nat -> bool) (x : F) (l : list F) :
  (forall i, same_object i = true -> nth_error l i = Some x) ->
  forallb is_num l = true ->
  py_in_list same_object x l = py_in x l.
Proof.
  intros Hsame Hnum. unfold py_in_list, py_in.
  assert (Hshift : forall k (g : nat -> bool) (m : list F),
             (forall i e, g (k + i)%nat = true -> nth_error m i = Some e ->
                          feqb x e = true) ->
             existsb (fun '(i, e) => g i || feqb x e)
                     (combine (seq k (length m)) m)
             = existsb (feqb x) m).
  { intros k g m. revert k. induction m as [|e m IH]; intros k Hg; [reflexivity|].
    cbn [length seq combine existsb]. rewrite (IH (S k)).
    - destruct (g k) eqn:Ek; [|reflexivity].
      rewrite (Hg 0%nat e) by (rewrite ?Nat.add_0_r; auto). reflexivity.
    - intros i e' Hi He'. apply (Hg (S i) e'); [|exact He'].
      replace (k + S i)%nat with (S k + i)%nat by lia. exact Hi. }
  apply Hshift. intros i e Hi He. cbn [Nat.add] in Hi.
  rewrite (Hsame i Hi) in He. injection He as <-.
  assert (Hx : is_num x = true).
  { eapply forallb_is_num_In; [exact Hnum|].
    eapply nth_error_In. apply Hsame. exact Hi. }
  destruct (f_total x x Hx Hx) as [T|[T|T]]; try exact T;
    rewrite fltb_irrefl in T; discriminate.
Qed.

(** On PoEs that are numbers the call on lists is the call on arrays. *)
Lemma conditional_loss_ratio_of_lists_numbers (same_object : nat -> bool)
      (loss_ratios poes : list F) (probability : F) :
  (forall i, same_object i = true -> nth_error poes i = Some probability) ->
  forallb is_num poes = true ->
  conditional_loss_ratio_of_lists same_object loss_ratios poes probability
  = conditional_loss_ratio loss_ratios poes probability.
Proof.
  intros Hsame Hnum.
  unfold conditional_loss_ratio_of_lists, conditional_loss_ratio,
    conditional_loss_ratio_with.
  rewrite (py_in_list_numbers same_object probability poes Hsame Hnum).
  reflexivity.
Qed.

(** C1.  On a curve of numbers with non-decreasing loss ratios and
    non-increasing PoEs, both non-empty and of one length,
    [conditional_loss_ratio] returns a loss ratio [r] for every target
    probability, and [r] is: 0 when the probability exceeds the largest PoE;
    else a largest loss ratio when the probability is below the smallest PoE;
    else, when the probability equals some PoE, a largest loss ratio among the
    points that match; else the linear interpolation
    [(y2 - y1) / (x2 - x1) * (probability - x1) + y1] between the points
    [(x1, y1)] and [(x2, y2)] of the curve at the ranks [n-1-i] and [n-i],
    [i] being the right bisection of the reversed PoEs; they bracket the
    probability and are the last two points of the curve when [i = 1].  A
    target that is no number, hence no probability, gives NaN.  It holds at
    every carrier with the order laws, binary64 and exact alike, and of
    lists as of arrays, the PoEs being numbers. *)
Theorem conditional_loss_ratio_cases (loss_ratios poes : list F) (probability : F) :
  poes <> [] ->
  length loss_ratios = length poes ->
  forallb is_num loss_ratios = true ->
  forallb is_num poes = true ->
  non_decreasing loss_ratios = true ->
  non_increasing poes = true ->
  exists r,
    conditional_loss_ratio loss_ratios poes probability = Some r /\
    if is_num probability
    then conditional_loss_ratio_spec loss_ratios poes probability r
    else r = fnan.
Proof.
  intros Hne Hlen Hnl Hnp Hsl Hsp.
  destruct (is_num probability) eqn:Hp.
  2:{ destruct (nan_probability_tests poes probability Hne Hp)
        as [poe_max [poe_min [Hfirst [Hlast [Hgt [Hlt [Hin Hbis]]]]]]].
      exists fnan. split; [|reflexivity].
      eapply conditional_loss_ratio_nan_branch; eauto. }
  set (n := length poes) in *.
  assert (Hn : (0 < n)%nat) by (unfold n; destruct poes; [congruence|simpl; lia]).
  assert (Hne' : loss_ratios <> []) by (destruct loss_ratios; [simpl in Hlen; lia|discriminate]).
  destruct (py_max_is_max poes Hne Hnp) as [poe_max [Emax Hmax]].
  destruct (py_min_is_min poes Hne Hnp) as [poe_min [Emin Hmin]].
  pose proof (head_is_max poes fnan Hne Hnp Hsp) as Hhead.
  pose proof (last_is_min poes fnan Hne Hnp Hsp) as Hlast. fold n in Hlast.
  assert (Efirst : py_index poes 0 = Some (nth 0 poes fnan)).
  { destruct poes; [congruence|]. apply py_index_0. }
  pose proof (py_index_last poes fnan Hne) as Elast. fold n in Elast.
  assert (Egt : fgtb probability poe_max = fgtb probability (nth 0 poes fnan)).
  { unfold fgtb. eapply is_max_fltb; eauto. }
  assert (Elt : fltb probability poe_min
                = fltb probability (nth (n - 1) poes fnan)).
  { eapply is_min_fltb; eauto. }
  unfold conditional_loss_ratio, conditional_loss_ratio_with, conditional_loss_ratio_spec.
  rewrite Efirst, <- Egt.
  destruct (fgtb probability poe_max) eqn:Cgt.
  { exists f0. split; [reflexivity|]. exists poe_max, poe_min.
    rewrite Cgt. do 4 (split; [assumption|]). reflexivity. }
  rewrite Elast, <- Elt.
  destruct (fltb probability poe_min) eqn:Clt.
  { rewrite (py_index_last loss_ratios fnan Hne').
    eexists. split; [reflexivity|]. exists poe_max, poe_min.
    rewrite Cgt, Clt. do 4 (split; [assumption|]).
    apply last_is_max; assumption. }
  destruct (py_in probability poes) eqn:Cin.
  { rewrite matching_losses_losses_at by exact Hlen.
    destruct (py_max_is_max (losses_at loss_ratios poes probability)) as [r [Er Hr]].
    - apply losses_at_nonempty; assumption.
    - apply forallb_forall. intros x Hx. eapply forallb_is_num_In; [exact Hnl|].
      eapply losses_at_incl; eauto.
    - exists r. split; [exact Er|]. exists poe_max, poe_min.
      rewrite Cgt, Clt. do 4 (split; [assumption|]). exact Hr. }
  (* the interpolation *)
  assert (Hrev : forall k, (k < n)%nat ->
                 nth k (rev poes) fnan = nth (n - S k) poes fnan).
  { intros k Hk. apply rev_nth. exact Hk. }
  destruct (bisect_right_sorted (rev poes) probability) as [Hble [Hbelow Habove]].
  { intros i j Hij. rewrite length_rev in Hij. fold n in Hij.
    rewrite !Hrev by lia. apply non_increasing_nth; auto. fold n. lia. }
  rewrite length_rev in Hble, Habove. fold n in Hble, Habove.
  set (i := bisect_right (rev poes) probability) in *.
  assert (Hnum : forall k, (k < n)%nat -> is_num (nth k poes fnan) = true).
  { intros k Hk. eapply forallb_is_num_In; [exact Hnp|]. apply nth_In. exact Hk. }
  assert (Hneq : forall k, (k < n)%nat -> feqb probability (nth k poes fnan) = false).
  { intros k Hk. eapply py_in_false; [exact Cin|]. apply nth_In. exact Hk. }
  assert (Hi1 : (1 <= i)%nat).
  { destruct i as [|i']; [|lia]. exfalso.
    specialize (Habove 0%nat ltac:(lia)). rewrite Hrev in Habove by lia.
    congruence. }
  assert (Hin : (i < n)%nat).
  { destruct (Nat.eq_dec i n) as [E|E]; [|lia]. exfalso.
    specialize (Hbelow (n - 1)%nat ltac:(lia)). rewrite Hrev in Hbelow by lia.
    replace (n - S (n - 1))%nat with 0%nat in Hbelow by lia.
    unfold fgtb in Egt.
    destruct (f_total probability (nth 0 poes fnan) Hp (Hnum 0%nat Hn))
      as [T|[T|T]]; try congruence.
    rewrite (Hneq 0%nat Hn) in T. discriminate. }
  replace (i =? length poes)%nat with false
    by (symmetry; apply Nat.eqb_neq; fold n; lia).
  set (x1 := nth (n - 1 - i) poes fnan).
  set (x2 := nth (n - i) poes fnan).
  set (y1 := nth (n - 1 - i) loss_ratios fnan).
  set (y2 := nth (n - i) loss_ratios fnan).
  assert (Hx1 : fltb probability x1 = true).
  { specialize (Habove i ltac:(lia)). rewrite Hrev in Habove by lia.
    unfold x1. replace (n - 1 - i)%nat with (n - S i)%nat by lia. exact Habove. }
  assert (Hx2 : fltb x2 probability = true).
  { specialize (Hbelow (i - 1)%nat ltac:(lia)). rewrite Hrev in Hbelow by lia.
    replace (n - S (i - 1))%nat with (n - i)%nat in Hbelow by lia.
    destruct (f_total probability x2 Hp (Hnum (n - i)%nat ltac:(lia)))
      as [T|[T|T]]; [unfold x2 in T; congruence| |exact T].
    unfold x2 in T. rewrite (Hneq (n - i)%nat) in T by lia. discriminate. }
  assert (Epts :
    (if (i =? 1)%nat
     then xs <- unpack2 (py_slice_from poes (-2)) ;;
          ys <- unpack2 (py_slice_from loss_ratios (-2)) ;; Some (xs, ys)
     else xs <- unpack2 (py_slice poes (- Z.of_nat i - 1) (- Z.of_nat i + 1)) ;;
          ys <- unpack2 (py_slice loss_ratios (- Z.of_nat i - 1) (- Z.of_nat i + 1)) ;;
          Some (xs, ys))
    = Some ((x1, x2), (y1, y2))).
  { destruct (Nat.eqb_spec i 1) as [E1|E1].
    - rewrite (py_slice_from_last2 poes fnan) by (fold n; lia).
      rewrite (py_slice_from_last2 loss_ratios fnan) by (rewrite Hlen; fold n; lia).
      rewrite Hlen. fold n. cbn [unpack2]. unfold x1, x2, y1, y2. rewrite E1.
      replace (n - 1 - 1)%nat with (n - 2)%nat by lia. reflexivity.
    - rewrite (py_slice_interval poes fnan) by (fold n; lia).
      rewrite (py_slice_interval loss_ratios fnan) by (rewrite Hlen; fold n; lia).
      rewrite Hlen. fold n. cbn [unpack2]. reflexivity. }
  rewrite Epts.
  eexists. split; [reflexivity|]. exists poe_max, poe_min.
  rewrite Cgt, Clt. do 4 (split; [assumption|]).
  exists i, x1, x2, y1, y2.
  split; [reflexivity|]. split; [lia|].
  repeat split; auto; apply nth_error_nth'; try rewrite Hlen; fold n; lia.
Qed.


(** C10.  [conditional_loss_ratio] has a NaN result: when the probability
    does not exceed the first PoE, is not below the last one, is not in the
    PoEs, and the right bisection of the reversed PoEs returns their full
    length, the call returns NaN and raises nothing, on numpy arrays, where
    [in] is by [==], and on lists, where [in] looks at the identity of the
    objects first.  On a non-empty curve whose PoEs are all NaN the
    bisection returns the full length whatever the probability; the call
    returns NaN on arrays, and on lists unless the probability is one of the
    objects of the list, a NaN, for which [in] holds, [max] has no loss to
    choose from and the call raises. *)
Theorem conditional_loss_ratio_nan (same_object : nat -> bool)
        (loss_ratios poes : list F) (probability : F) :
  (forall poe_max poe_min,
      py_index poes 0 = Some poe_max ->
      py_index poes (-1) = Some poe_min ->
      fgtb probability poe_max = false ->
      fltb probability poe_min = false ->
      bisect_right (rev poes) probability = length poes ->
      (py_in probability poes = false ->
       conditional_loss_ratio loss_ratios poes probability = Some fnan) /\
      (py_in_list same_object probability poes = false ->
       conditional_loss_ratio_of_lists same_object loss_ratios poes probability
       = Some fnan)) /\
  (poes <> [] ->
   forallb (fun y => negb (is_num y)) poes = true ->
   bisect_right (rev poes) probability = length poes /\
   conditional_loss_ratio loss_ratios poes probability = Some fnan /\
   conditional_loss_ratio_of_lists same_object loss_ratios poes probability
   = if existsb same_object (seq 0 (length poes)) then None else Some fnan).
Proof.
  split.
  - intros poe_max poe_min Hfirst Hlast Hgt Hlt Hbis. split; intros Hin.
    + eapply conditional_loss_ratio_nan_branch; eauto.
    + eapply conditional_loss_ratio_nan_branch; eauto.
  - intros Hne Hnan.
    destruct (all_nan_tests poes probability Hne Hnan)
      as [poe_max [poe_min [Hfirst [Hlast [Hgt [Hlt [Hin Hbis]]]]]]].
    split; [exact Hbis|]. split.
    + eapply conditional_loss_ratio_nan_branch; eauto.
    + pose proof (py_in_list_all_nan same_object probability poes Hnan) as Hlist.
      destruct (existsb same_object (seq 0 (length poes))) eqn:Esame.
      * eapply conditional_loss_ratio_found_nan; eauto.
      * eapply conditional_loss_ratio_nan_branch; eauto.
Qed.

End ConditionalLossRatio.

(** *** The curve of the specification's examples, in binary64 *)

Lemma conditional_loss_ratio_cases_witness :
  exists r,
    conditional_loss_ratio example_loss_ratios example_poes 0.3%float = Some r /\
    conditional_loss_ratio_spec example_loss_ratios example_poes 0.3%float r.
Proof.
  refine (conditional_loss_ratio_cases (F := float) example_loss_ratios
            example_poes 0.3%float _ _ _ _ _ _);
    solve [discriminate | vm_compute; reflexivity].
Defined.

Lemma conditional_loss_ratio_nan_witness :
  bisect_right (rev [nan; nan]%float) 0.5%float = 2%nat /\
  conditional_loss_ratio example_loss_ratios [nan; nan]%float 0.5%float
  = Some nan /\
  conditional_loss_ratio_of_lists (fun _ => false) example_loss_ratios
    [nan; nan]%float 0.5%float
  = Some nan.
Proof.
  refine (proj2 (conditional_loss_ratio_nan (F := float) (fun _ => false)
                   example_loss_ratios [nan; nan]%float 0.5%float) _ _).
  - discriminate.
  - vm_compute. reflexivity.
Defined.

(** A list whose first PoE is the very NaN that is the probability: [in]
    holds by identity, no PoE is equal to the probability, and [max] of no
    loss raises. *)
Example conditional_loss_ratio_same_nan_raises :
  conditional_loss_ratio_of_lists (fun i => (i =? 0)%nat) example_loss_ratios
    [nan; nan; nan]%float nan
  = None.
Proof. vm_compute. reflexivity. Qed.

(** The same values in a numpy array: NaN. *)
Example conditional_loss_ratio_nan_in_array :
  conditional_loss_ratio example_loss_ratios [nan; nan; nan]%float nan
  = Some nan.
Proof. vm_compute. reflexivity. Qed.

Example conditional_loss_ratio_at_max_poe :
  conditional_loss_ratio example_loss_ratios example_poes 0.9%float
  = Some 0%float.
Proof. vm_compute. reflexivity. Qed.

Example conditional_loss_ratio_above_max_poe :
  conditional_loss_ratio example_loss_ratios example_poes 0.95%float
  = Some 0%float.
Proof. vm_compute. reflexivity. Qed.

Example conditional_loss_ratio_below_min_poe :
  conditional_loss_ratio example_loss_ratios example_poes 0.05%float
  = Some 1%float.
Proof. vm_compute. reflexivity. Qed.

Example conditional_loss_ratio_interpolated :
  conditional_loss_ratio example_loss_ratios example_poes 0.3%float
  = Some 0.75%float.
Proof. vm_compute. reflexivity. Qed.

(** In exact arithmetic the interpolation of the fourth case is the point
    of the line through [(x1, y1)] and [(x2, y2)] at the probability; as
    the probability lies between the PoEs, it lies between the loss ratios. *)
Lemma conditional_loss_ratio_line (x1 x2 y1 y2 p : R) :
  (x2 < p < x1)%R -> (y1 <= y2)%R ->
  exists r : R,
    fadd (fmul (fdiv (fsub (XR y2) (XR y1)) (fsub (XR x2) (XR x1)))
               (fsub (XR p) (XR x1)))
         (XR y1)
    = XR r /\
    ((r - y1) * (x2 - x1) = (y2 - y1) * (p - x1))%R /\
    (y1 <= r <= y2)%R.
Proof.
  intros Hp Hy.
  exists ((y2 - y1) / (x2 - x1) * (p - x1) + y1)%R.
  split; [|split].
  - cbn. destruct (Req_dec_T (x2 - x1) 0); [lra|reflexivity].
  - field. lra.
  - set (t := ((x1 - p) / (x1 - x2))%R).
    assert (Ht : (0 < t < 1)%R).
    { unfold t. split.
      - apply Rdiv_lt_0_compat; lra.
      - apply (Rmult_lt_reg_r (x1 - x2)); [lra|].
        unfold Rdiv. rewrite Rmult_assoc, Rinv_l by lra. lra. }
    replace ((y2 - y1) / (x2 - x1) * (p - x1) + y1)%R
      with (y1 + (y2 - y1) * t)%R by (unfold t; field; lra).
    nra.
Qed.

(** ** The step function of the degenerate distribution *)

Section SurvivalFacts.
Context {F : Type} `{PyFloatOrder F}.

(** Among numbers [x <= y] is [not (y < x)]. *)
Lemma fleb_negb_fltb (x y : F) :
  is_num x = true -> is_num y = true -> fleb x y = negb (fltb y x).
Proof.
  intros Hx Hy. destruct (fltb y x) eqn:E; cbn [negb].
  - destruct (fleb x y) eqn:E'; [|reflexivity].
    apply fleb_fltb_false in E'. congruence.
  - apply fltb_false_fleb; assumption.
Qed.

(** C4, as the code has it.  [DegenerateDistribution.survival] is the step
    function that is 1 when [loss_ratio <= mean] and [mean != 0], and 0
    otherwise, on numbers; a zero mean gives 0 at every loss ratio, the loss
    ratios [<= 0] included. *)
Theorem degenerate_survival_step (loss_ratio mean stddev : F) :
  (is_num loss_ratio = true -> is_num mean = true ->
   DegenerateDistribution_survival loss_ratio mean stddev
   = if fleb loss_ratio mean && negb (feqb mean f0) then f1 else f0) /\
  (feqb mean f0 = true ->
   DegenerateDistribution_survival loss_ratio mean stddev = f0).
Proof.
  unfold DegenerateDistribution_survival, piecewise1, py_not, fgtb. split.
  - intros Hl Hm. rewrite (fleb_negb_fltb loss_ratio mean Hl Hm).
    destruct (fltb mean loss_ratio), (feqb mean f0); reflexivity.
  - intros Hz. rewrite Hz, orb_true_r. reflexivity.
Qed.

(** With a zero standard deviation the lognormal survival is that step. *)
Lemma lognormal_survival_degenerate
      (lognorm_sf : F -> F -> F -> F) (fsqrt flog : F -> F) (fpow : F -> F -> F)
      (loss_ratio mean stddev : F) :
  feqb stddev f0 = true ->
  LogNormalDistribution_survival lognorm_sf fsqrt flog fpow loss_ratio mean stddev
  = DegenerateDistribution_survival loss_ratio mean stddev.
Proof.
  intros Hs. unfold LogNormalDistribution_survival. rewrite Hs. reflexivity.
Qed.

End SurvivalFacts.

Lemma degenerate_survival_step_witness :
  DegenerateDistribution_survival 0.3%float 0.5%float 0%float = 1%float /\
  DegenerateDistribution_survival 0.3%float 0%float 0%float = 0%float.
Proof.
  split.
  - refine (proj1 (degenerate_survival_step (F := float) 0.3 0.5 0)%float _ _);
      vm_compute; reflexivity.
  - refine (proj2 (degenerate_survival_step (F := float) 0.3 0 0)%float _).
    vm_compute. reflexivity.
Defined.

(** The zero mean at a loss ratio [<= 0]: the survival is 0, not 1. *)
Lemma degenerate_survival_zero_mean_counterexample :
  feqb 0%float (f0 : float) = true /\
  fleb 0%float 0%float = true /\
  DegenerateDistribution_survival 0%float 0%float 0%float = 0%float /\
  feqb (DegenerateDistribution_survival 0%float 0%float 0%float) 1%float = false.
Proof. vm_compute. repeat split; reflexivity. Qed.

(** ** Damage fractions *)

Section ScenarioDamageFacts.

Lemma map_raise_length {A B : Type} (f : A -> option B) (xs : list A) (ys : list B) :
  map_raise f xs = Some ys -> length ys = length xs.
Proof.
  revert ys. induction xs as [|x xs IH]; intros ys; cbn [map_raise].
  - intros [= <-]. reflexivity.
  - destruct (f x); [|discriminate]. destruct (map_raise f xs); [|discriminate].
    intros [= <-]. simpl. f_equal. apply IH. reflexivity.
Qed.

Lemma pairwise_diff_exact (l : list R) :
  pairwise_diff (map XR l) = map XR (Rdiffs l).
Proof.
  unfold pairwise_diff, Rdiffs. destruct l as [|x l]; [reflexivity|].
  revert x. induction l as [|y l IH]; intros x; [reflexivity|].
  change (pairwise (map XR (x :: y :: l)))
    with ((XR x, XR y) :: pairwise (map XR (y :: l))).
  change (pairwise (x :: y :: l)) with ((x, y) :: pairwise (y :: l)).
  cbn [map]. rewrite <- IH. reflexivity.
Qed.

Lemma Rdiffs_length (x : R) (l : list R) : length (Rdiffs (x :: l)) = length l.
Proof.
  unfold Rdiffs. revert x. induction l as [|y l IH]; intros x; [reflexivity|].
  change (pairwise (x :: y :: l)) with ((x, y) :: pairwise (y :: l)).
  cbn [map length]. rewrite IH. reflexivity.
Qed.

Lemma last_cons_default {A : Type} (l : list A) (y x : A) :
  last (y :: l) x = last l y.
Proof.
  revert y x. induction l as [|z l IH]; intros y x; [reflexivity|].
  change (last (y :: z :: l) x) with (last (z :: l) x).
  rewrite (IH z x), (IH z y). reflexivity.
Qed.

(** The differences telescope. *)
Lemma Rsum_Rdiffs (x : R) (l : list R) :
  Rsum (Rdiffs (x :: l)) = (x - last l x)%R.
Proof.
  unfold Rdiffs, Rsum. revert x. induction l as [|y l IH]; intros x.
  - simpl. lra.
  - change (pairwise (x :: y :: l)) with ((x, y) :: pairwise (y :: l)).
    cbn [map fold_right]. rewrite IH, last_cons_default. lra.
Qed.

Lemma py_sum_exact_from (l : list R) (acc : R) :
  fold_left fadd (map XR l) (XR acc) = XR (acc + Rsum l).
Proof.
  revert acc. induction l as [|x l IH]; intros acc; cbn [map fold_left Rsum fold_right].
  - f_equal. lra.
  - change (fadd (XR acc) (XR x)) with (XR (acc + x)). rewrite IH.
    f_equal. unfold Rsum. lra.
Qed.

Lemma py_sum_exact (l : list R) : py_sum (map XR l) = XR (Rsum l).
Proof.
  unfold py_sum. change (f0 : xreal) with (XR 0).
  rewrite py_sum_exact_from. f_equal. lra.
Qed.

Lemma Rdiffs_nonneg (l : list R) :
  non_increasing (map XR l) = true -> Forall (fun d => (0 <= d)%R) (Rdiffs l).
Proof.
  unfold Rdiffs, non_increasing. destruct l as [|x l]; [constructor|].
  revert x. induction l as [|y l IH]; intros x Hc; [constructor|].
  change (chain fgeb (map XR (x :: y :: l)))
    with (fgeb (XR x) (XR y) && chain fgeb (map XR (y :: l))) in Hc.
  apply andb_true_iff in Hc. destruct Hc as [Hxy Hc].
  change (pairwise (x :: y :: l)) with ((x, y) :: pairwise (y :: l)).
  cbn [map]. constructor; [|apply IH; exact Hc].
  cbn in Hxy. unfold Exact.Rleb in Hxy. destruct (Rle_dec y x); [lra|discriminate].
Qed.

(** C6, as the code has it.  When every fragility function evaluates to a
    number at the ground-motion value, [scenario_damage] returns the
    differences between consecutive items of [1, p1, ..., pM, 0]: [M + 1]
    fractions whose sum is 1 in exact arithmetic; they are non-negative when
    [1 >= p1 >= ... >= pM >= 0]. *)
Theorem scenario_damage_fractions
        (interp1d : list xreal -> list xreal -> xreal -> option xreal)
        (lognorm_cdf : xreal -> xreal -> xreal -> xreal)
        (fsqrt flog : xreal -> xreal) (fpow : xreal -> xreal -> xreal)
        (fragility_functions : list (FragilityFunction xreal))
        (gmv : xreal) (poes : list R) :
  map_raise (fun ff => FragilityFunction_call interp1d lognorm_cdf fsqrt flog fpow ff gmv)
            fragility_functions = Some (map XR poes) ->
  let fractions := Rdiffs ([1%R] ++ poes ++ [0%R]) in
  scenario_damage interp1d lognorm_cdf fsqrt flog fpow fragility_functions gmv
  = Some (map XR fractions) /\
  length fractions = S (length fragility_functions) /\
  py_sum (map XR fractions) = XR 1 /\
  (non_increasing (map XR ([1%R] ++ poes ++ [0%R])) = true ->
   Forall (fun d => (0 <= d)%R) fractions).
Proof.
  intros Hcalls fractions. unfold scenario_damage. rewrite Hcalls.
  split; [|split; [|split]].
  - f_equal. unfold fractions. rewrite <- pairwise_diff_exact.
    rewrite !map_app. reflexivity.
  - unfold fractions. cbn [app]. rewrite Rdiffs_length, length_app.
    apply map_raise_length in Hcalls. rewrite length_map in Hcalls.
    rewrite Hcalls. simpl. lia.
  - rewrite py_sum_exact. f_equal. unfold fractions. cbn [app].
    rewrite Rsum_Rdiffs, last_last. lra.
  - apply Rdiffs_nonneg.
Qed.

End ScenarioDamageFacts.

Lemma scenario_damage_fractions_witness :
  let ffs := [FragilityFunctionDiscrete 0 [XR 1; XR 2] [XR 1; XR 1] (Some (XR 3))] in
  scenario_damage linear_interp1d (fun _ _ x => x) (fun x => x) (fun x => x)
                  (fun x _ => x) ffs (XR 2)
  = Some (map XR (Rdiffs [1; 0; 0]%R)) /\
  length (Rdiffs [1; 0; 0]%R) = 2%nat /\
  py_sum (map XR (Rdiffs [1; 0; 0]%R)) = XR 1.
Proof.
  intros ffs.
  destruct (scenario_damage_fractions linear_interp1d (fun _ _ x => x)
              (fun x => x) (fun x => x) (fun x _ => x) ffs (XR 2) [0%R])
    as [Hres [Hlen [Hsum _]]].
  - unfold ffs. cbn. unfold Exact.Rltb.
    destruct (Rlt_dec 2 3); [reflexivity|lra].
  - auto.
Defined.

(** Limit states out of order: the second fraction is negative. *)
Lemma scenario_damage_negative_counterexample :
  exists d0 d1 d2 : float,
    scenario_damage linear_interp1d (fun _ _ x => x) PrimFloat.sqrt (fun x => x)
                    (fun x _ => x) example_fragility_functions 0.15%float
    = Some [d0; d1; d2] /\
    fltb d1 f0 = true.
Proof.
  vm_compute. do 3 eexists. split; reflexivity.
Qed.

(** ** Exact arithmetic at work *)

Section ExactFacts.

Lemma xdiv_XR (a b : R) : b <> 0%R -> fdiv (XR a) (XR b) = XR (a / b).
Proof.
  intros Hb. cbn. destruct (Req_dec_T b 0); [contradiction|reflexivity].
Qed.

Lemma is_num_XR (a : R) : is_num (XR a) = true.
Proof.
  unfold is_num. cbn. unfold Exact.Reqb.
  destruct (Req_dec_T a a); [reflexivity|congruence].
Qed.

Lemma forallb_is_num_XR (l : list R) : forallb is_num (map XR l) = true.
Proof.
  induction l as [|x l IH]; [reflexivity|].
  cbn [map forallb]. rewrite is_num_XR, IH. reflexivity.
Qed.

Lemma of_int_nat_XR (i : nat) : of_int (Z.of_nat i) = XR (INR i).
Proof. cbn. rewrite <- INR_IZR_INZ. reflexivity. Qed.

Lemma fold_max_exact (r : list R) (x : R) :
  fold_left (fun m y => if fgtb y m then y else m) (map XR r) (XR x)
  = XR (fold_left Rmax r x).
Proof.
  revert x. induction r as [|y r IH]; intros x; [reflexivity|].
  cbn [map fold_left].
  replace (if fgtb (XR y) (XR x) then XR y else XR x) with (XR (Rmax x y)).
  - apply IH.
  - cbn. unfold Exact.Rltb, Rmax.
    destruct (Rlt_dec x y), (Rle_dec x y); try reflexivity; f_equal; lra.
Qed.

Lemma np_max_exact (l : list R) :
  l <> [] -> np_max (map XR l) = Some (XR (Rmaximum l)).
Proof.
  intros Hl. unfold np_max.
  replace (existsb (fun x : xreal => negb (is_num x)) (map XR l)) with false.
  - destruct l as [|x r]; [congruence|].
    cbn [map py_max Rmaximum]. rewrite fold_max_exact. reflexivity.
  - symmetry. clear Hl. induction l as [|x l IH]; [reflexivity|].
    cbn [map existsb]. rewrite is_num_XR, IH. reflexivity.
Qed.

Lemma count_greater_exact (loss_values : list R) (loss : R) :
  count_greater (map XR loss_values) (XR loss)
  = Z.of_nat (Rcount_greater loss_values loss).
Proof.
  unfold count_greater, Rcount_greater. f_equal.
  induction loss_values as [|v l IH]; [reflexivity|].
  cbn [map filter].
  change (fgtb (XR v) (XR loss)) with (Exact.Rltb loss v).
  destruct (Exact.Rltb loss v); cbn [length]; rewrite IH; reflexivity.
Qed.

Lemma linspace_exact (stop : R) (k : nat) :
  linspace f0 (XR stop) (S (S k))
  = map XR (map (fun i => (INR i * (stop / INR (S k)))%R) (seq 0 (S (S k)))).
Proof.
  assert (Hk : INR (S k) <> 0%R) by (apply not_0_INR; discriminate).
  unfold linspace. rewrite (seq_S (S k) 0), !map_app. f_equal.
  - rewrite map_map. apply map_ext. intros i.
    rewrite !of_int_nat_XR. change (f0 : xreal) with (XR 0).
    change (fsub (XR stop) (XR 0)) with (XR (stop - 0)).
    rewrite xdiv_XR by exact Hk. cbn. f_equal. field. exact Hk.
  - cbn [map Nat.add]. f_equal. f_equal. field. exact Hk.
Qed.

Lemma build_poes_exact (counts : list nat) (ses_ratio : R) :
  ses_ratio <> 0%R ->
  build_poes (Exact.lift1 exp) (map Z.of_nat counts) (fdiv f1 (XR ses_ratio))
  = map XR (map (fun count => (1 - exp (- INR count * ses_ratio))%R) counts).
Proof.
  intros Hs. unfold build_poes. rewrite !map_map. apply map_ext. intros count.
  change (f1 : xreal) with (XR 1). rewrite xdiv_XR by exact Hs.
  rewrite of_int_nat_XR. change (fneg (XR (INR count))) with (XR (- INR count)).
  rewrite xdiv_XR.
  - cbn. do 3 f_equal. field. exact Hs.
  - intros E. apply Hs. apply (f_equal (fun x => (x * ses_ratio)%R)) in E.
    field_simplify in E; [lra|exact Hs].
Qed.

End ExactFacts.

(** ** The event based curve *)

Section EventBasedFacts.

Lemma nth_map_in {A B : Type} (f : A -> B) (l : list A) (i : nat) (d : A) (d' : B) :
  (i < length l)%nat -> nth i (map f l) d' = f (nth i l d).
Proof.
  intros Hi. rewrite (nth_indep _ d' (f d)) by (rewrite length_map; exact Hi).
  apply map_nth.
Qed.

Lemma Rreference_losses_length (loss_values : list R) (n : nat) :
  length (Rreference_losses loss_values n) = n.
Proof. unfold Rreference_losses. rewrite length_map, length_seq. reflexivity. Qed.

Lemma Rreference_losses_nth (loss_values : list R) (n i : nat) :
  (i < n)%nat ->
  nth i (Rreference_losses loss_values n) 0%R
  = (INR i * (Rmaximum loss_values / INR (n - 1)))%R.
Proof.
  intros Hi. unfold Rreference_losses.
  rewrite (nth_map_in _ _ _ 0%nat) by (rewrite length_seq; exact Hi).
  rewrite seq_nth by exact Hi. reflexivity.
Qed.

Lemma Rpoes_nth (loss_values : list R) (ses_ratio : R) (n i : nat) :
  (i < n)%nat ->
  nth i (Rpoes loss_values ses_ratio n) 0%R
  = (1 - exp (- INR (Rcount_greater loss_values
                       (nth i (Rreference_losses loss_values n) 0%R))
              * ses_ratio))%R.
Proof.
  intros Hi. unfold Rpoes.
  rewrite (nth_map_in _ _ _ 0%R) by (rewrite Rreference_losses_length; exact Hi).
  reflexivity.
Qed.

(** The higher the reference loss, the fewer losses above it. *)
Lemma Rcount_greater_antitone (loss_values : list R) (loss loss' : R) :
  (loss <= loss')%R ->
  (Rcount_greater loss_values loss' <= Rcount_greater loss_values loss)%nat.
Proof.
  intros Hle. unfold Rcount_greater.
  induction loss_values as [|v l IH]; [reflexivity|].
  cbn [filter].
  destruct (Exact.Rltb loss' v) eqn:E1, (Exact.Rltb loss v) eqn:E2;
    cbn [length]; try lia.
  unfold Exact.Rltb in E1, E2.
  destruct (Rlt_dec loss' v), (Rlt_dec loss v); try discriminate; lra.
Qed.

Lemma exp_monotone (a b : R) : (a <= b)%R -> (exp a <= exp b)%R.
Proof.
  intros [Hlt|Heq].
  - left. apply exp_increasing. exact Hlt.
  - right. rewrite Heq. reflexivity.
Qed.

(** C5.  For a non-empty array of losses, a positive [ses_ratio] and a
    resolution of at least 2, [event_based] returns as many reference losses
    as the resolution, evenly spaced from 0 to the largest loss, each with the
    PoE [1 - exp(- count * ses_ratio)], [count] being the number of losses
    strictly above the reference loss; the PoEs do not increase when the
    largest loss is not negative.  In exact arithmetic. *)
Theorem event_based_curve (loss_values : list R) (ses_ratio : R)
        (curve_resolution : nat) :
  loss_values <> [] -> (0 < ses_ratio)%R -> (2 <= curve_resolution)%nat ->
  let losses := Rreference_losses loss_values curve_resolution in
  let poes := Rpoes loss_values ses_ratio curve_resolution in
  event_based (Exact.lift1 exp) (map XR loss_values) (XR ses_ratio) curve_resolution
  = Some (map XR losses, map XR poes) /\
  length losses = curve_resolution /\
  length poes = curve_resolution /\
  nth 0 losses 0%R = 0%R /\
  nth (curve_resolution - 1) losses 0%R = Rmaximum loss_values /\
  (forall i, (i < curve_resolution)%nat ->
     nth i losses 0%R
     = (INR i * (Rmaximum loss_values / INR (curve_resolution - 1)))%R /\
     nth i poes 0%R
     = (1 - exp (- INR (Rcount_greater loss_values (nth i losses 0%R))
                 * ses_ratio))%R) /\
  ((0 <= Rmaximum loss_values)%R ->
   forall i j, (i <= j < curve_resolution)%nat ->
     (nth j poes 0%R <= nth i poes 0%R)%R).
Proof.
  intros Hne Hs Hres losses poes.
  assert (Hdiv : (0 < INR (curve_resolution - 1))%R) by (apply lt_0_INR; lia).
  split; [|split; [|split; [|split; [|split; [|split]]]]].
  - unfold event_based. rewrite (np_max_exact _ Hne).
    destruct curve_resolution as [|[|k]]; try lia.
    rewrite linspace_exact.
    replace (map (count_greater (map XR loss_values))
                 (map XR (map (fun i => (INR i * (Rmaximum loss_values / INR (S k)))%R)
                              (seq 0 (S (S k))))))
      with (map Z.of_nat (map (Rcount_greater loss_values)
                              (Rreference_losses loss_values (S (S k))))).
    + rewrite build_poes_exact by lra.
      unfold losses, poes, Rpoes, Rreference_losses.
      rewrite !map_map. reflexivity.
    + unfold Rreference_losses. rewrite !map_map. apply map_ext.
      intros i. rewrite count_greater_exact. reflexivity.
  - apply Rreference_losses_length.
  - unfold poes, Rpoes. rewrite length_map. apply Rreference_losses_length.
  - unfold losses. rewrite Rreference_losses_nth by lia. simpl. lra.
  - unfold losses. rewrite Rreference_losses_nth by lia. field. lra.
  - intros i Hi. split.
    + apply Rreference_losses_nth. exact Hi.
    + apply Rpoes_nth. exact Hi.
  - intros Hmax i j Hij. unfold poes. rewrite !Rpoes_nth by lia.
    apply Rplus_le_compat_l, Ropp_le_contravar, exp_monotone.
    apply Rmult_le_compat_r; [lra|]. apply Ropp_le_contravar, le_INR.
    apply Rcount_greater_antitone.
    rewrite !Rreference_losses_nth by lia.
    apply Rmult_le_compat_r.
    * apply Rmult_le_pos; [exact Hmax|]. left. apply Rinv_0_lt_compat. exact Hdiv.
    * apply le_INR. lia.
Qed.

End EventBasedFacts.

Lemma event_based_curve_witness :
  event_based (Exact.lift1 exp) (map XR example_loss_values) (XR 1) 5
  = Some (map XR (Rreference_losses example_loss_values 5),
          map XR (Rpoes example_loss_values 1 5)) /\
  nth 0 (Rpoes example_loss_values 1 5) 0%R = (1 - exp (- 4))%R /\
  (forall i j, (i <= j < 5)%nat ->
     (nth j (Rpoes example_loss_values 1 5) 0 <=
      nth i (Rpoes example_loss_values 1 5) 0)%R).
Proof.
  destruct (event_based_curve example_loss_values 1 5)
    as [Hcurve [_ [_ [Hfirst [_ [Hnth Hmono]]]]]].
  - discriminate.
  - lra.
  - lia.
  - split; [exact Hcurve|]. split.
    + destruct (Hnth 0%nat) as [_ Hpoe]; [lia|].
      rewrite Hpoe, Hfirst.
      replace (Rcount_greater example_loss_values 0) with 4%nat.
      * f_equal. f_equal. simpl. lra.
      * unfold Rcount_greater, example_loss_values, Exact.Rltb. cbn [filter].
        repeat match goal with
               | |- context [Rlt_dec ?a ?b] => destruct (Rlt_dec a b); try lra
               end.
        reflexivity.
    + apply Hmono. unfold Rmaximum, example_loss_values. cbn [fold_left].
      apply Rle_trans with 40%R; [lra|apply Rmax_r].
Defined.

(** ** Mean curves *)

Section MeanCurveFacts.


Lemma transpose_map {A B : Type} (f : A -> B) (rows : list (list A)) :
  transpose (map (map f) rows) = map (map f) (transpose rows).
Proof.
  induction rows as [|row rest IH]; [reflexivity|].
  destruct rest as [|row' rest'].
  - cbn [map transpose]. rewrite !map_map. reflexivity.
  - change (transpose (map (map f) (row :: row' :: rest')))
      with (map (fun '(x, column) => x :: column)
                (combine (map f row) (transpose (map (map f) (row' :: rest'))))).
    rewrite IH.
    change (transpose (row :: row' :: rest'))
      with (map (fun '(x, column) => x :: column)
                (combine row (transpose (row' :: rest')))).
    generalize (transpose (row' :: rest')). clear.
    induction row as [|x row IH]; intros [|c cs]; try reflexivity.
    cbn [map combine]. rewrite IH. reflexivity.
Qed.

Lemma rectangular_map {A B : Type} (f : A -> B) (w : nat) (rows : list (list A)) :
  rectangular w (map (map f) rows) = rectangular w rows.
Proof.
  unfold rectangular. induction rows as [|row rows IH]; [reflexivity|].
  cbn [map forallb]. rewrite length_map, IH. reflexivity.
Qed.

Lemma row_width_map {A B : Type} (f : A -> B) (rows : list (list A)) :
  row_width (map (map f) rows) = row_width rows.
Proof. destruct rows; [reflexivity|]. simpl. apply length_map. Qed.






End MeanCurveFacts.



Example mean_curve_weights_summing_to_1_2 :
  mean_curve (Scalars [1; 3]%float) (Some [0.6; 0.6]%float) = None.
Proof. vm_compute. reflexivity. Qed.

Example mean_curve_weights_summing_to_1 :
  mean_curve (Arrays [[1; 3]; [2; 5]]%float) (Some [0.5; 0.5]%float)
  = Some (Arrays [[1.5; 4]%float]).
Proof. vm_compute. reflexivity. Qed.

(** ** Matrices *)

Lemma list_as_nth_seq {A : Type} (d : A) (l : list A) :
  l = map (fun j => nth j l d) (seq 0 (length l)).
Proof.
  induction l as [|x l IH]; [reflexivity|].
  cbn [length seq map nth]. f_equal.
  rewrite <- seq_shift, map_map. exact IH.
Qed.

Section MatrixFacts.
Context {A : Type}.

Lemma combine_map_map {B C : Type} (f : C -> A) (g : C -> B) (l : list C) :
  combine (map f l) (map g l) = map (fun x => (f x, g x)) l.
Proof. induction l as [|x l IH]; [reflexivity|]. cbn. rewrite IH. reflexivity. Qed.

Lemma rectangular_In (w : nat) (rows : list (list A)) :
  rectangular w rows = true -> forall row, In row rows -> length row = w.
Proof.
  unfold rectangular. rewrite forallb_forall. intros Hr row Hin.
  apply Nat.eqb_eq. apply Hr. exact Hin.
Qed.

(** The columns of a matrix hold its entries coordinate by coordinate. *)
Lemma transpose_columns (d : A) (w : nat) (rows : list (list A)) :
  rows <> [] -> rectangular w rows = true ->
  transpose rows = map (fun j => map (fun row => nth j row d) rows) (seq 0 w).
Proof.
  induction rows as [|row rest IH]; [congruence|]. intros _ Hrect.
  assert (Hrow : length row = w).
  { apply (rectangular_In w (row :: rest) Hrect). left. reflexivity. }
  destruct rest as [|row' rest'].
  - cbn [transpose map]. rewrite (list_as_nth_seq d row) at 1.
    rewrite map_map, Hrow. reflexivity.
  - change (transpose (row :: row' :: rest'))
      with (map (fun '(x, column) => x :: column)
                (combine row (transpose (row' :: rest')))).
    rewrite IH; [|discriminate|].
    + rewrite (list_as_nth_seq d row) at 1. rewrite Hrow.
      rewrite combine_map_map, map_map. reflexivity.
    + unfold rectangular in *. cbn [forallb] in Hrect.
      apply andb_true_iff in Hrect. tauto.
Qed.

Lemma transpose_involutive (d : A) (n : nat) (columns : list (list A)) :
  (1 <= n)%nat -> rectangular n columns = true ->
  transpose (transpose columns) = columns.
Proof.
  intros Hn Hrect. destruct columns as [|c cs]; [reflexivity|].
  set (C := c :: cs) in *.
  assert (HC : C <> []) by discriminate.
  rewrite (transpose_columns d n C HC Hrect).
  rewrite (transpose_columns d (length C)).
  - etransitivity; [|symmetry; apply (list_as_nth_seq [] C)].
    apply map_ext_in. intros j Hj.
    apply in_seq in Hj. rewrite map_map.
    assert (Hlen : length (nth j C []) = n).
    { apply (rectangular_In n C Hrect). apply nth_In. lia. }
    etransitivity; [|symmetry; apply (list_as_nth_seq d (nth j C []))].
    rewrite Hlen. apply map_ext. intros i.
    rewrite (nth_indep _ d (nth i [] d)) by (rewrite length_map; lia).
    apply (map_nth (fun column => nth i column d)).
  - destruct n as [|n]; [lia|]. discriminate.
  - unfold rectangular. apply forallb_forall. intros row Hrow.
    apply in_map_iff in Hrow. destruct Hrow as [j [<- _]].
    rewrite length_map. apply Nat.eqb_refl.
Qed.

Lemma map_raise_all {B : Type} (f : A -> option B) (g : A -> B) (l : list A) :
  (forall x, In x l -> f x = Some (g x)) -> map_raise f l = Some (map g l).
Proof.
  induction l as [|x l IH]; intros Hall; [reflexivity|].
  cbn [map_raise map]. rewrite Hall by (left; reflexivity).
  rewrite IH; [reflexivity|]. intros y Hy. apply Hall. right. exact Hy.
Qed.

Lemma py_index_nat (d : A) (l : list A) (i : Z) :
  (0 <= i < Z.of_nat (length l))%Z ->
  py_index l i = Some (nth (Z.to_nat i) l d).
Proof.
  intros Hi. unfold py_index.
  destruct (Z.ltb_spec i 0) as [?|_]; [lia|].
  destruct (Z.leb_spec 0 i) as [_|?]; [|lia].
  destruct (Z.ltb_spec i (Z.of_nat (length l))) as [_|?]; [|lia].
  cbn [andb]. apply nth_error_nth'. lia.
Qed.

End MatrixFacts.

(** ** Quantile curves *)

Section QuantileFacts.

Lemma insert_sorted_exact (x : R) (l : list R) :
  insert_sorted (XR x) (map XR l) = map XR (Rinsert x l).
Proof.
  induction l as [|y l IH]; [reflexivity|].
  cbn [map insert_sorted Rinsert].
  change (fleb (XR x) (XR y)) with (Exact.Rleb x y). unfold Exact.Rleb.
  destruct (Rle_dec x y); [reflexivity|].
  cbn [map]. rewrite IH. reflexivity.
Qed.

Lemma np_sort_exact (l : list R) : np_sort (map XR l) = map XR (Rsort l).
Proof.
  unfold np_sort, Rsort. induction l as [|x l IH]; [reflexivity|].
  cbn [map fold_right]. rewrite IH. apply insert_sorted_exact.
Qed.

Lemma Rinsert_perm (x : R) (l : list R) : Permutation (x :: l) (Rinsert x l).
Proof.
  induction l as [|y l IH]; [reflexivity|]. cbn [Rinsert].
  destruct (Rle_dec x y); [reflexivity|].
  rewrite perm_swap. apply perm_skip. exact IH.
Qed.

Lemma Rsort_perm (l : list R) : Permutation l (Rsort l).
Proof.
  unfold Rsort. induction l as [|x l IH]; [reflexivity|].
  cbn [fold_right]. rewrite <- Rinsert_perm. apply perm_skip. exact IH.
Qed.

Lemma Rsort_length (l : list R) : length (Rsort l) = length l.
Proof. symmetry. apply Permutation_length, Rsort_perm. Qed.

Lemma Rinsert_sorted (x : R) (l : list R) :
  Sorted Rle l -> Sorted Rle (Rinsert x l).
Proof.
  induction l as [|y l IH]; intros Hs; cbn [Rinsert].
  - repeat constructor.
  - destruct (Rle_dec x y) as [Hle|Hgt].
    + constructor; [exact Hs|constructor; exact Hle].
    + inversion Hs as [|? ? Hs' Hhd]; subst.
      constructor; [apply IH; exact Hs'|].
      destruct l as [|z l]; cbn [Rinsert].
      * constructor. lra.
      * destruct (Rle_dec x z); constructor; [lra|].
        inversion Hhd; subst. assumption.
Qed.

Lemma Rsort_sorted (l : list R) : Sorted Rle (Rsort l).
Proof.
  unfold Rsort. induction l as [|x l IH]; [constructor|].
  cbn [fold_right]. apply Rinsert_sorted. exact IH.
Qed.

Lemma fclip_exact (x lo hi : R) :
  fclip (XR x) (XR lo) (XR hi) = XR (Rclip x lo hi).
Proof.
  unfold fclip, Rclip, fgtb.
  change (fltb (XR x) (XR lo)) with (Exact.Rltb x lo). unfold Exact.Rltb.
  destruct (Rlt_dec x lo) as [Hlo|Hlo].
  - change (fltb (XR hi) (XR lo)) with (Exact.Rltb hi lo). unfold Exact.Rltb.
    unfold Rmin, Rmax.
    destruct (Rlt_dec hi lo), (Rle_dec x lo); try lra;
      destruct (Rle_dec lo hi); try lra; f_equal; lra.
  - change (fltb (XR hi) (XR x)) with (Exact.Rltb hi x). unfold Exact.Rltb.
    unfold Rmin, Rmax.
    destruct (Rlt_dec hi x), (Rle_dec x lo);
      try (destruct (Rle_dec lo hi)); try (destruct (Rle_dec x hi));
      try lra; f_equal; lra.
Qed.

Lemma Rclip_bounds (x lo hi : R) :
  (lo <= hi)%R -> (lo <= Rclip x lo hi <= hi)%R.
Proof.
  intros Hle. unfold Rclip, Rmin, Rmax.
  destruct (Rle_dec x lo); destruct (Rle_dec _ hi); lra.
Qed.

(** The rank [k] lies within [1 .. n-1], whatever the quantile. *)
Lemma plotting_k_bounds (n : nat) (p : R) :
  (2 <= n)%nat -> (1 <= plotting_k n p <= Z.of_nat n - 1)%Z.
Proof.
  intros Hn. unfold plotting_k.
  set (r := Rclip _ 1 (INR n - 1)).
  assert (Hr : (1 <= r <= INR n - 1)%R).
  { apply Rclip_bounds. apply le_INR in Hn. simpl in Hn. lra. }
  destruct (base_Int_part r) as [Hlow Hup].
  split.
  - assert (0 < Int_part r)%Z; [|lia]. apply lt_IZR. lra.
  - apply le_IZR. rewrite minus_IZR, <- INR_IZR_INZ. lra.
Qed.


Lemma map_raise_map {A B C : Type} (f : B -> option C) (h : A -> B) (l : list A) :
  map_raise f (map h l) = map_raise (fun x => f (h x)) l.
Proof.
  induction l as [|x l IH]; [reflexivity|].
  cbn [map map_raise]. rewrite IH. reflexivity.
Qed.

Lemma quantile_aleph_exact (n : nat) (p : R) :
  fadd (fmul (of_int (Z.of_nat n)) (XR p)) (fadd (lit 4 10) (fmul (XR p) (lit 2 10)))
  = XR (INR n * p + (4 / 10 + p * (2 / 10))).
Proof.
  rewrite of_int_nat_XR. unfold lit.
  change (of_int 4 : xreal) with (XR 4). change (of_int 10 : xreal) with (XR 10).
  change (of_int 2 : xreal) with (XR 2).
  rewrite !xdiv_XR by lra. reflexivity.
Qed.

Lemma quantile_rank_exact (n : nat) (p : R) :
  let aleph := XR (INR n * p + (4 / 10 + p * (2 / 10))) in
  ffloor (fclip aleph (of_int 1) (of_int (Z.of_nat n - 1)))
  = Some (plotting_k n p) /\
  fclip (fsub aleph (of_int (plotting_k n p))) f0 f1 = XR (plotting_gamma n p).
Proof.
  intros aleph. unfold aleph.
  change (of_int 1 : xreal) with (XR 1).
  change (of_int (Z.of_nat n - 1) : xreal) with (XR (IZR (Z.of_nat n - 1))).
  rewrite minus_IZR, <- INR_IZR_INZ. rewrite fclip_exact.
  split; [reflexivity|].
  change (f0 : xreal) with (XR 0). change (f1 : xreal) with (XR 1).
  change (of_int (plotting_k n p) : xreal) with (XR (IZR (plotting_k n p))).
  change (fsub (XR ?a) (XR ?b)) with (XR (a - b)).
  rewrite fclip_exact. reflexivity.
Qed.

Lemma Rcoordinate_length (j : nat) (curves : list (list R)) :
  length (Rcoordinate j curves) = length curves.
Proof. unfold Rcoordinate. apply length_map. Qed.

(** C2.  For at least two curves of one length, [quantile_curve] without
    weights is, at every coordinate, the plotting-position estimate
    [(1 - gamma) * sorted[k-1] + gamma * sorted[k]] on the ascending values
    of the curves at that coordinate, with [m = 0.4 + p * 0.2],
    [aleph = n * p + m], [k = floor(clip(aleph, 1, n-1))] and
    [gamma = clip(aleph - k, 0, 1)]; [k] is a rank counted from 1, so that
    [sorted[k-1]] and [sorted[k]], indexed from 0 as in the source, are the
    [k]-th and the next of the ascending values.  In exact arithmetic, at
    every quantile. *)
Theorem quantile_curve_plotting_position
        (np_interp : xreal -> list xreal -> list xreal -> xreal)
        (curves : list (list R)) (p : R) :
  (2 <= length curves)%nat ->
  rectangular (row_width curves) curves = true ->
  quantile_curve np_interp (map (map XR) curves) (XR p) None
  = Some (map XR (Rquantile_curve curves p)) /\
  (1 <= plotting_k (length curves) p <= Z.of_nat (length curves) - 1)%Z /\
  forall j, Sorted Rle (Rsort (Rcoordinate j curves)) /\
            Permutation (Rcoordinate j curves) (Rsort (Rcoordinate j curves)).
Proof.
  intros Hn Hrect.
  pose proof (plotting_k_bounds (length curves) p Hn) as Hk.
  split; [|split; [exact Hk|intros j; split; [apply Rsort_sorted|apply Rsort_perm]]].
  assert (Hne : curves <> []) by (destruct curves; [simpl in Hn; lia|discriminate]).
  set (n := length curves) in *. set (w := row_width curves) in *.
  unfold quantile_curve.
  destruct (map (map XR) curves) as [|row0 rows0] eqn:Earr.
  { destruct curves; [congruence|discriminate]. }
  rewrite <- Earr. clear Earr row0 rows0.
  rewrite row_width_map, rectangular_map. fold w. rewrite Hrect. cbn [negb].
  rewrite length_map. fold n.
  rewrite quantile_aleph_exact.
  destruct (quantile_rank_exact n p) as [Ek Egamma].
  rewrite Ek, Egamma.
  (* the sorted columns *)
  unfold np_sort_axis0. rewrite transpose_map.
  rewrite (transpose_columns 0%R w curves Hne Hrect).
  fold (Rcoordinate). rewrite !map_map.
  set (columns := map (fun j => np_sort (map XR (map (fun row => nth j row 0%R) curves)))
                      (seq 0 w)).
  assert (Ecols : columns
                  = map (fun j => map XR (Rsort (Rcoordinate j curves))) (seq 0 w)).
  { unfold columns. apply map_ext. intros j. apply np_sort_exact. }
  rewrite Ecols. clear Ecols columns.
  rewrite (transpose_involutive XNaN n).
  - rewrite map_raise_map.
    rewrite (map_raise_all _
               (fun j => XR (plotting_position p (Rsort (Rcoordinate j curves))))).
    + unfold Rquantile_curve. fold w. rewrite map_map. reflexivity.
    + intros j _.
      assert (Hlen : length (Rsort (Rcoordinate j curves)) = n).
      { rewrite Rsort_length. apply Rcoordinate_length. }
      rewrite (py_index_nat XNaN) by (rewrite length_map, Hlen; lia).
      rewrite (py_index_nat XNaN) by (rewrite length_map, Hlen; lia).
      rewrite !(nth_map_in XR _ _ 0%R) by (rewrite Hlen; lia).
      unfold plotting_position. rewrite Hlen. reflexivity.
  - lia.
  - unfold rectangular. apply forallb_forall. intros column Hc.
    apply in_map_iff in Hc. destruct Hc as [j [<- _]].
    rewrite length_map, Rsort_length, Rcoordinate_length. apply Nat.eqb_refl.
Qed.

End QuantileFacts.

Lemma quantile_curve_plotting_position_witness :
  quantile_curve (fun _ _ _ => XNaN)
                 (map (map XR) [[1 / 10; 2 / 10]; [3 / 10; 4 / 10]]%R)
                 (XR (1 / 2)) None
  = Some (map XR (Rquantile_curve [[1 / 10; 2 / 10]; [3 / 10; 4 / 10]]%R (1 / 2))).
Proof.
  apply (quantile_curve_plotting_position (fun _ _ _ => XNaN)
           [[1 / 10; 2 / 10]; [3 / 10; 4 / 10]]%R (1 / 2)%R).
  - simpl. lia.
  - reflexivity.
Defined.

(** The example of the specification, as binary64 computes it: [n = 2],
    [p = 0.5], [k = 1], [gamma = 0.5], half of each of the two values. *)
Example quantile_curve_median_of_two :
  quantile_curve (fun _ _ _ => nan) example_curves 0.5%float None
  = Some [0.2; 0.30000000000000004]%float.
Proof. vm_compute. reflexivity. Qed.

(** ** The store *)

Section ListUpdateFacts.
Context {A : Type}.

Lemma list_update_app_last (l : list A) (y x : A) :
  list_update (l ++ [y]) (length l) x = l ++ [x].
Proof. induction l as [|z l IH]; [reflexivity|]. cbn. rewrite IH. reflexivity. Qed.

Lemma nth_error_app_last (l : list A) (y : A) :
  nth_error (l ++ [y]) (length l) = Some y.
Proof. induction l as [|z l IH]; [reflexivity|]. exact IH. Qed.

Lemma nth_error_app_old (l l' : list A) (i : nat) (x : A) :
  nth_error l i = Some x -> nth_error (l ++ l') i = Some x.
Proof.
  intros Hi. rewrite nth_error_app1; [exact Hi|].
  apply nth_error_Some. congruence.
Qed.

End ListUpdateFacts.

Section ApplyFacts.
Context {F RNG : Type} `{PyFloat F}.
Variable interp1d : list F -> list F -> F -> option F.
Variables fsqrt flog fexp : F -> F.
Variable fpow : F -> F -> F.
Variable random_beta : RNG -> list F -> list F -> list F * RNG.

Local Abbreviation sample_ := (sample (RNG := RNG) fsqrt flog fexp fpow random_beta).
Local Abbreviation apply_row :=
  (VulnerabilityFunction_apply (RNG := RNG) interp1d fsqrt flog fexp fpow random_beta).
Local Abbreviation apply_to_ :=
  (apply_to (RNG := RNG) interp1d fsqrt flog fexp fpow random_beta).

Lemma bind_lift {A B : Type} (o : option A) (k : A -> Py F RNG B) (s : Store F RNG) :
  bind (lift o) k s = match o with Some a => k a s | None => (None, s) end.
Proof. destruct o; reflexivity. Qed.

Lemma bind_run {A B : Type} (m : Py F RNG A) (k : A -> Py F RNG B) (s : Store F RNG) :
  bind m k s = match m s with
               | (Some a, s') => k a s'
               | (None, s') => (None, s')
               end.
Proof. reflexivity. Qed.

Lemma bind_get_function {B : Type} (r : nat)
      (k : VulnerabilityFunction F -> Py F RNG B) (s : Store F RNG) :
  bind (get_function r) k s
  = match nth_error (functions s) r with
    | Some vf => k vf s
    | None => (None, s)
    end.
Proof. unfold bind, get_function. destruct (nth_error _ _); reflexivity. Qed.

Lemma sample_agree (sa sb : Store F RNG) fa fb da db ca cb x
      (means covs' stddevs' : list F) (idxs : list nat) :
  bound sa fa da ca x -> bound sb fb db cb x ->
  (dist_class x = BetaDistribution -> random_state sa = random_state sb) ->
  let ra := sample_ (length da) means covs' stddevs' idxs sa in
  let rb := sample_ (length db) means covs' stddevs' idxs sb in
  fst ra = fst rb /\
  exists x',
    bound (snd ra) fa da ca x' /\ bound (snd rb) fb db cb x' /\
    dist_class x' = dist_class x /\
    (dist_class x = BetaDistribution ->
     random_state (snd ra) = random_state (snd rb)).
Proof.
  intros [Hfa [Hda Hca]] [Hfb [Hdb Hcb]] Hrng.
  unfold sample, bind, get_distribution. rewrite Hda, Hdb, !nth_error_app_last.
  destruct (dist_class x) eqn:Eclass.
  - cbn. split; [reflexivity|]. exists x. unfold bound. rewrite Eclass. auto 10.
  - destruct (epsilons x) as [eps|] eqn:Eeps.
    2:{ cbn. split; [reflexivity|]. exists x. unfold bound. rewrite Eclass. auto 10. }
    unfold lift.
    destruct (nth_error eps (asset_idx x)) as [row|].
    2:{ cbn. split; [reflexivity|]. exists x. unfold bound. rewrite Eclass. auto 10. }
    cbn [ret]. destruct (map_raise (nth_error row) idxs) as [es|].
    2:{ cbn. split; [reflexivity|]. exists x. unfold bound. rewrite Eclass. auto 10. }
    cbn. rewrite Hda, Hdb, !list_update_app_last.
    split; [reflexivity|].
    exists (mkDistribution LogNormalDistribution (Some eps) (S (asset_idx x))).
    unfold bound. cbn. auto 10.
  - rewrite (Hrng eq_refl).
    destruct (random_beta (random_state sb) _ _) as [draws state]. cbn.
    split; [reflexivity|]. exists x. unfold bound. cbn. rewrite Eclass. auto 10.
  - cbn. split; [reflexivity|]. exists x. unfold bound. rewrite Eclass. auto 10.
Qed.


Lemma apply_row_agree (sa sb : Store F RNG) fa fb da db ca cb x (row : list F) :
  bound sa fa da ca x -> bound sb fb db cb x ->
  imls ca = imls cb -> mean_loss_ratios ca = mean_loss_ratios cb ->
  covs ca = covs cb ->
  (dist_class x = BetaDistribution -> random_state sa = random_state sb) ->
  let ra := apply_row (length fa) row sa in
  let rb := apply_row (length fb) row sb in
  fst ra = fst rb /\
  exists x',
    bound (snd ra) fa da ca x' /\ bound (snd rb) fb db cb x' /\
    dist_class x' = dist_class x /\
    (dist_class x = BetaDistribution ->
     random_state (snd ra) = random_state (snd rb)).
Proof.
  intros Ba Bb Himls Hmlrs Hcovs Hrng.
  assert (Hstop : forall A (r : option A),
             r = r /\
             exists x',
               bound sa fa da ca x' /\ bound sb fb db cb x' /\
               dist_class x' = dist_class x /\
               (dist_class x = BetaDistribution ->
                random_state sa = random_state sb)).
  { intros A r. split; [reflexivity|]. exists x. auto. }
  pose proof Ba as [Hfa [Hda Hca]]. pose proof Bb as [Hfb [Hdb Hcb]].
  unfold VulnerabilityFunction_apply.
  rewrite !bind_get_function, Hfa, Hfb, !nth_error_app_last.
  rewrite <- Himls, <- Hmlrs, <- Hcovs, Hca, Hcb.
  rewrite !bind_lift.
  destruct (py_index (imls ca) (-1)) as [highest|]; [|apply (Hstop (list F) None)].
  rewrite !bind_lift.
  destruct (py_index (imls ca) 0) as [lowest|]; [|apply (Hstop (list F) None)].
  rewrite !bind_lift.
  destruct (map_raise (interp1d (imls ca) (mean_loss_ratios ca)) _) as [means|];
    [|apply (Hstop (list F) None)].
  rewrite !bind_lift.
  destruct (map_raise (interp1d (imls ca) (covs ca)) _) as [covs'|];
    [|apply (Hstop (list F) None)].
  rewrite !bind_lift. unfold bind.
  match goal with
  | |- context [sample _ _ _ _ _ (length da) ?m ?c ?sd ?ix sa] =>
      destruct (sample_agree sa sb fa fb da db ca cb x m c sd ix Ba Bb Hrng)
        as [Hfst [x' [Ba' [Bb' [Hclass Hrng']]]]];
      destruct (sample_ (length da) m c sd ix sa) as [[samples|] sa'];
      destruct (sample_ (length db) m c sd ix sb) as [[samples'|] sb'];
      cbn [fst snd] in *; try discriminate
  end.
  - injection Hfst as <-.
    destruct (scatter _ _ samples); cbn; (split; [reflexivity|]); exists x'; auto.
  - cbn. split; [reflexivity|]. exists x'. auto.
Qed.

Lemma for_each_agree (rows : list (list F)) :
  forall (sa sb : Store F RNG) fa fb da db ca cb x,
    bound sa fa da ca x -> bound sb fb db cb x ->
    imls ca = imls cb -> mean_loss_ratios ca = mean_loss_ratios cb ->
    covs ca = covs cb ->
    (dist_class x = BetaDistribution -> random_state sa = random_state sb) ->
    let ra := for_each (apply_row (length fa)) rows sa in
    let rb := for_each (apply_row (length fb)) rows sb in
    fst ra = fst rb /\
    exists x', bound (snd ra) fa da ca x' /\ bound (snd rb) fb db cb x'.
Proof.
  induction rows as [|row rows IH];
    intros sa sb fa fb da db ca cb x Ba Bb Himls Hmlrs Hcovs Hrng.
  - cbn. split; [reflexivity|]. exists x. auto.
  - pose proof (apply_row_agree sa sb fa fb da db ca cb x row
                  Ba Bb Himls Hmlrs Hcovs Hrng) as Hrow.
    cbv zeta in Hrow. cbv zeta. cbn [for_each]. rewrite !bind_run.
    revert Hrow.
    destruct (apply_row (length fa) row sa) as [[ya|] sa'];
      destruct (apply_row (length fb) row sb) as [[yb|] sb'];
      cbn [fst snd]; intros [Hfst [x' [Ba' [Bb' [Hclass Hrng']]]]];
      try discriminate.
    + injection Hfst as <-.
      assert (Hrng'' : dist_class x' = BetaDistribution ->
                       random_state sa' = random_state sb').
      { rewrite Hclass. exact Hrng'. }
      pose proof (IH sa' sb' fa fb da db ca cb x' Ba' Bb' Himls Hmlrs Hcovs Hrng'')
        as Hrest.
      cbv zeta in Hrest. rewrite !bind_run. revert Hrest.
      destruct (for_each (apply_row (length fa)) rows sa') as [[ysa|] sa''];
        destruct (for_each (apply_row (length fb)) rows sb') as [[ysb|] sb''];
        cbn [fst snd ret]; intros [Hfst' [x'' [Ba'' Bb'']]]; try discriminate.
      * injection Hfst' as <-. split; [reflexivity|]. exists x''. auto.
      * split; [reflexivity|]. exists x''. auto.
    + split; [reflexivity|]. exists x'. auto.
Qed.

(** [set_distribution] on the newest function object makes one new
    distribution object and binds the function to it. *)
Lemma set_distribution_bound (s : Store F RNG) fs (c : VulnerabilityFunction F)
      (eps : option (list (list F))) :
  functions s = fs ++ [c] ->
  match distribution_class_for (covs c) (distribution_name c) with
  | None => set_distribution (length fs) eps s = (None, s)
  | Some class =>
      exists s',
        set_distribution (length fs) eps s = (Some tt, s') /\
        random_state s' = random_state s /\
        bound s' fs (distributions s)
              (mkVulnerabilityFunction (vf_id c) (imt c) (imls c)
                 (mean_loss_ratios c) (covs c) (distribution_name c) (stddevs c)
                 (Some (length (distributions s))))
              (mkDistribution class eps 0)
  end.
Proof.
  intros Hfs. unfold set_distribution, bind, get_function.
  rewrite Hfs, nth_error_app_last.
  destruct (distribution_class_for (covs c) (distribution_name c)) as [class|];
    [|reflexivity].
  cbn [lift ret new_distribution put_function get_distribution put_distribution
       distributions functions random_state].
  rewrite Hfs, nth_error_app_last.
  cbn [dist_class asset_idx]. rewrite !list_update_app_last.
  eexists. split; [reflexivity|]. split; [reflexivity|].
  unfold bound. cbn. rewrite list_update_app_last. auto.
Qed.


Lemma grown_refl (s : Store F RNG) : grown s s.
Proof. exists [], []. rewrite !app_nil_r. auto. Qed.

Lemma apply_to_agree (sa sb : Store F RNG) (selfa selfb : nat)
      (vfa vfb : VulnerabilityFunction F)
      (ground_motion_values eps : list (list F)) :
  nth_error (functions sa) selfa = Some vfa ->
  nth_error (functions sb) selfb = Some vfb ->
  imls vfa = imls vfb -> mean_loss_ratios vfa = mean_loss_ratios vfb ->
  covs vfa = covs vfb -> distribution_name vfa = distribution_name vfb ->
  (distribution_class_for (covs vfa) (distribution_name vfa) = Some BetaDistribution ->
   random_state sa = random_state sb) ->
  let ra := apply_to_ selfa ground_motion_values eps sa in
  let rb := apply_to_ selfb ground_motion_values eps sb in
  fst ra = fst rb /\ grown sa (snd ra) /\ grown sb (snd rb).
Proof.
  intros Hsa Hsb Himls Hmlrs Hcovs Hname Hrng. cbv zeta. unfold apply_to.
  destruct (negb (length eps =? length ground_motion_values)%nat).
  { cbn. split; [reflexivity|]. split; apply grown_refl. }
  rewrite !bind_get_function, Hsa, Hsb, !bind_run.
  cbn [new_function].
  set (s1a := mkStore (distributions sa) (functions sa ++ [vfa]) (random_state sa)).
  set (s1b := mkStore (distributions sb) (functions sb ++ [vfb]) (random_state sb)).
  pose proof (set_distribution_bound s1a (functions sa) vfa (Some eps) eq_refl) as Ha.
  pose proof (set_distribution_bound s1b (functions sb) vfb (Some eps) eq_refl) as Hb.
  rewrite <- Hcovs, <- Hname in Hb.
  rewrite !bind_run.
  destruct (distribution_class_for (covs vfa) (distribution_name vfa)) as [class|].
  - destruct Ha as [s2a [Ea [Ga Ba]]]. destruct Hb as [s2b [Eb [Gb Bb]]].
    rewrite Ea, Eb. unfold numpy_map.
    destruct (for_each_agree ground_motion_values s2a s2b _ _ _ _ _ _ _ Ba Bb)
      as [Hfst [x' [[Hfa [Hda _]] [Hfb [Hdb _]]]]]; try (cbn; first [assumption|reflexivity]).
    + cbn [dist_class]. intros ->. rewrite Ga, Gb. apply Hrng. reflexivity.
    + split; [exact Hfst|].
      split; eexists; exists [x']; split; eassumption.
  - rewrite Ha, Hb. cbn [fst snd]. split; [reflexivity|].
    split; [exists [vfa], []|exists [vfb], []]; cbn; rewrite app_nil_r; auto.
Qed.

Lemma grown_function (s s' : Store F RNG) (r : nat) (vf : VulnerabilityFunction F) :
  grown s s' -> nth_error (functions s) r = Some vf ->
  nth_error (functions s') r = Some vf.
Proof.
  intros [fs [ds [Hf _]]] Hr. rewrite Hf. apply nth_error_app_old. exact Hr.
Qed.

Lemma grown_distribution (s s' : Store F RNG) (d : nat) (x : Distribution F) :
  grown s s' -> nth_error (distributions s) d = Some x ->
  nth_error (distributions s') d = Some x.
Proof.
  intros [fs [ds [_ Hd]]] Hr. rewrite Hd. apply nth_error_app_old. exact Hr.
Qed.

Lemma apply_to_grown (s : Store F RNG) (self : nat)
      (ground_motion_values eps : list (list F)) :
  grown s (snd (apply_to_ self ground_motion_values eps s)).
Proof.
  destruct (nth_error (functions s) self) as [vf|] eqn:Hself.
  - apply (apply_to_agree s s self self vf vf ground_motion_values eps); auto.
  - unfold apply_to.
    destruct (negb (length eps =? length ground_motion_values)%nat);
      [apply grown_refl|].
    rewrite bind_get_function, Hself. apply grown_refl.
Qed.

(** C9.  [apply_to] leaves the receiver as it was: the function object, with
    its attribute [distribution] and its construction parameters, and the
    distribution object it refers to are the same after the call as before;
    so is every object that existed before the call, since the epsilons are
    bound to a new distribution object of a copy of the function. *)
Theorem apply_to_frame (s : Store F RNG) (self : nat)
        (vf : VulnerabilityFunction F) (ground_motion_values eps : list (list F)) :
  nth_error (functions s) self = Some vf ->
  let s' := snd (apply_to_ self ground_motion_values eps s) in
  nth_error (functions s') self = Some vf /\
  (forall d x, distribution vf = Some d ->
               nth_error (distributions s) d = Some x ->
               nth_error (distributions s') d = Some x) /\
  (forall r vf', nth_error (functions s) r = Some vf' ->
                 nth_error (functions s') r = Some vf') /\
  (forall d x, nth_error (distributions s) d = Some x ->
               nth_error (distributions s') d = Some x).
Proof.
  intros Hself s'.
  pose proof (apply_to_grown s self ground_motion_values eps) as Hgrown.
  fold s' in Hgrown.
  split; [eapply grown_function; eassumption|].
  split; [intros d x _; apply grown_distribution; exact Hgrown|].
  split; [intros r vf'; apply grown_function; exact Hgrown|].
  intros d x. apply grown_distribution. exact Hgrown.
Qed.

(** C3, as the code has it.  The loss matrix of [apply_to] is a function of
    the parameters of the receiver, of the ground-motion and epsilon
    matrices and, for the beta distribution only, of the state of the random
    generator: two calls with the same inputs on functions of the same
    parameters, in whatever stores, return the same matrix or both fail,
    provided the generator is in one state when the class is
    [BetaDistribution]; hence a call repeated on the receiver returns the
    same matrix twice when the distribution is degenerate or lognormal. *)
Theorem apply_to_deterministic (sa sb : Store F RNG) (selfa selfb : nat)
        (vfa vfb : VulnerabilityFunction F)
        (ground_motion_values eps : list (list F)) :
  nth_error (functions sa) selfa = Some vfa ->
  nth_error (functions sb) selfb = Some vfb ->
  imls vfa = imls vfb -> mean_loss_ratios vfa = mean_loss_ratios vfb ->
  covs vfa = covs vfb -> distribution_name vfa = distribution_name vfb ->
  (distribution_class_for (covs vfa) (distribution_name vfa) = Some BetaDistribution ->
   random_state sa = random_state sb) ->
  fst (apply_to_ selfa ground_motion_values eps sa)
  = fst (apply_to_ selfb ground_motion_values eps sb) /\
  (distribution_class_for (covs vfa) (distribution_name vfa) <> Some BetaDistribution ->
   let first := apply_to_ selfa ground_motion_values eps sa in
   let second := apply_to_ selfa ground_motion_values eps (snd first) in
   fst first = fst second).
Proof.
  intros Hsa Hsb Himls Hmlrs Hcovs Hname Hrng. split.
  - apply (apply_to_agree sa sb selfa selfb vfa vfb); assumption.
  - intros Hclass first second. unfold second.
    apply (apply_to_agree sa (snd first) selfa selfa vfa vfa); auto.
    + eapply grown_function; [|exact Hsa]. apply apply_to_grown.
    + intros E. contradiction.
Qed.

End ApplyFacts.

(** *** The example store *)

Lemma apply_to_frame_witness :
  nth_error (functions example_store) 0 =
  nth_error (functions (snd (example_apply_to 0%nat example_gmvs example_epsilons
                               example_store))) 0 /\
  nth_error (distributions example_store) 0 =
  nth_error (distributions (snd (example_apply_to 0%nat example_gmvs example_epsilons
                                   example_store))) 0.
Proof.
  destruct (nth_error (functions example_store) 0) as [vf|] eqn:Hvf;
    [|vm_compute in Hvf; discriminate].
  destruct (nth_error (distributions example_store) 0) as [x|] eqn:Hx;
    [|vm_compute in Hx; discriminate].
  destruct (apply_to_frame linear_interp1d PrimFloat.sqrt (fun x => x) (fun x => x)
              (fun x _ => PrimFloat.mul x x) example_random_beta
              example_store 0%nat vf example_gmvs example_epsilons Hvf)
    as [Hself [_ [_ Hdist]]].
  split; symmetry; [exact Hself|apply Hdist; exact Hx].
Defined.

Lemma apply_to_deterministic_witness :
  let first := example_apply_to 0%nat example_gmvs example_epsilons example_store in
  let second := example_apply_to 0%nat example_gmvs example_epsilons (snd first) in
  fst first = fst second.
Proof.
  destruct (nth_error (functions example_store) 0) as [vf|] eqn:Hvf;
    [|vm_compute in Hvf; discriminate].
  refine (proj2 (apply_to_deterministic linear_interp1d PrimFloat.sqrt (fun x => x)
                   (fun x => x) (fun x _ => PrimFloat.mul x x) example_random_beta
                   example_store example_store 0%nat 0%nat vf vf
                   example_gmvs example_epsilons Hvf Hvf
                   eq_refl eq_refl eq_refl eq_refl (fun _ => eq_refl)) _).
  vm_compute in Hvf. injection Hvf as <-. vm_compute. discriminate.
Defined.

(** The beta distribution draws from the generator: the same call, made
    twice on the same receiver, returns two matrices. *)
Lemma apply_to_beta_counterexample :
  exists first second : list (list float),
    let run := example_apply_to 1%nat example_gmvs example_epsilons example_store in
    fst run = Some first /\
    fst (example_apply_to 1%nat example_gmvs example_epsilons (snd run))
    = Some second /\
    nth 0 (nth 1 first []) nan = 1%float /\
    nth 0 (nth 1 second []) nan = 3%float.
Proof. vm_compute. do 2 eexists. repeat split; reflexivity. Qed.

(** ** Plateaus of the mean loss ratios *)

Section SubseqFacts.
Context {A : Type}.

Lemma subseq_In (l' l : list A) (x : A) : subseq l' l -> In x l' -> In x l.
Proof.
  induction 1 as [|y l' l Hs IH|y l' l Hs IH]; intros Hx.
  - exact Hx.
  - right. apply IH. exact Hx.
  - destruct Hx as [<-|Hx]; [left; reflexivity|right; apply IH; exact Hx].
Qed.

Lemma subseq_map {B : Type} (f : A -> B) (l' l : list A) :
  subseq l' l -> subseq (map f l') (map f l).
Proof. induction 1; cbn [map]; constructor; assumption. Qed.

Lemma subseq_forallb (p : A -> bool) (l' l : list A) :
  subseq l' l -> forallb p l = true -> forallb p l' = true.
Proof.
  intros Hs Hl. apply forallb_forall. intros x Hx.
  rewrite forallb_forall in Hl. apply Hl. eapply subseq_In; eauto.
Qed.

Lemma subseq_existsb (p : A -> bool) (l' l : list A) :
  subseq l' l -> existsb p l = false -> existsb p l' = false.
Proof.
  intros Hs Hl. destruct (existsb p l') eqn:E; [|reflexivity].
  apply existsb_exists in E. destruct E as [x [Hx Hp]].
  assert (existsb p l = true); [|congruence].
  apply existsb_exists. exists x. split; [eapply subseq_In; eauto|exact Hp].
Qed.

Lemma filter_length_all (p : A -> bool) (l : list A) :
  length (filter p l) = length l -> forallb p l = true.
Proof.
  induction l as [|x l IH]; [reflexivity|]. cbn [filter forallb].
  pose proof (filter_length_le p l) as Hle.
  destruct (p x); cbn [length]; intros Hlen.
  - apply IH. lia.
  - lia.
Qed.

Lemma filter_all (p : A -> bool) (l : list A) :
  forallb p l = true -> filter p l = l.
Proof.
  induction l as [|x l IH]; [reflexivity|]. cbn [filter forallb].
  intros [Hx Hl]%andb_true_iff. rewrite Hx, IH by exact Hl. reflexivity.
Qed.

End SubseqFacts.

Section PlateauFacts.
Context {F : Type} `{PyFloatOrder F}.

Lemma chain_tail (rel : F -> F -> bool) (x : F) (l : list F) :
  chain rel (x :: l) = true -> chain rel l = true.
Proof.
  destruct l as [|y l]; [reflexivity|]. cbn [chain].
  intros [_ Hc]%andb_true_iff. exact Hc.
Qed.

Lemma chain_cons (rel : F -> F -> bool) (x y : F) (l : list F) :
  chain rel (x :: y :: l) = rel x y && chain rel (y :: l).
Proof. reflexivity. Qed.

Lemma chain_impl (r1 r2 : F -> F -> bool) (l : list F) :
  (forall a b, r1 a b = true -> r2 a b = true) ->
  chain r1 l = true -> chain r2 l = true.
Proof.
  intros Himp. induction l as [|x l IH]; [reflexivity|].
  destruct l as [|y l]; [reflexivity|]. rewrite !chain_cons.
  intros [Hxy Hc]%andb_true_iff. rewrite (Himp _ _ Hxy), (IH Hc). reflexivity.
Qed.

Lemma chain_both (r1 r2 : F -> F -> bool) (l : list F) :
  chain r1 l = true -> chain r2 l = true ->
  chain (fun a b => r1 a b && r2 a b) l = true.
Proof.
  induction l as [|x l IH]; [reflexivity|].
  destruct l as [|y l]; [reflexivity|]. rewrite !chain_cons.
  intros [H1 Hc1]%andb_true_iff [H2 Hc2]%andb_true_iff.
  rewrite H1, H2, (IH Hc1 Hc2). reflexivity.
Qed.

Lemma chain_subseq (rel : F -> F -> bool) (l' l : list F) :
  (forall a b c, rel a b = true -> rel b c = true -> rel a c = true) ->
  subseq l' l -> chain rel l = true -> chain rel l' = true.
Proof.
  intros Htrans. induction 1 as [|x l' l Hs IH|x l' l Hs IH]; intros Hc.
  - reflexivity.
  - apply IH. eapply chain_tail. exact Hc.
  - destruct l' as [|y l']; [reflexivity|]. rewrite chain_cons.
    apply andb_true_iff. split.
    + eapply chain_head; [exact Htrans|exact Hc|].
      eapply subseq_In; [exact Hs|left; reflexivity].
    + apply IH. eapply chain_tail. exact Hc.
Qed.

(** *** Sorting numbers *)

Lemma insert_sorted_length (x : F) (l : list F) :
  length (insert_sorted x l) = S (length l).
Proof.
  induction l as [|y l IH]; [reflexivity|]. cbn [insert_sorted].
  destruct (fleb x y); cbn [length]; [reflexivity|]. rewrite IH. reflexivity.
Qed.

Lemma np_sort_length (l : list F) : length (np_sort l) = length l.
Proof.
  unfold np_sort. induction l as [|x l IH]; [reflexivity|].
  cbn [fold_right length]. rewrite insert_sorted_length, IH. reflexivity.
Qed.

Lemma insert_sorted_In (x y : F) (l : list F) :
  In y (insert_sorted x l) -> y = x \/ In y l.
Proof.
  induction l as [|z l IH]; cbn [insert_sorted].
  - intros [<-|[]]. left. reflexivity.
  - destruct (fleb x z).
    + intros [<-|Hy]; [left; reflexivity|right; exact Hy].
    + intros [<-|Hy]; [right; left; reflexivity|].
      destruct (IH Hy) as [->|Hy']; [left; reflexivity|right; right; exact Hy'].
Qed.

Lemma np_sort_In (y : F) (l : list F) : In y (np_sort l) -> In y l.
Proof.
  unfold np_sort. induction l as [|x l IH]; [intros []|].
  cbn [fold_right]. intros Hy. apply insert_sorted_In in Hy.
  destruct Hy as [->|Hy]; [left; reflexivity|right; apply IH; exact Hy].
Qed.

Lemma insert_sorted_chain (x : F) (l : list F) :
  is_num x = true -> forallb is_num l = true ->
  chain fleb l = true -> chain fleb (insert_sorted x l) = true.
Proof.
  intros Hx. induction l as [|y l IH]; intros Hl Hc; [reflexivity|].
  cbn [forallb] in Hl. apply andb_true_iff in Hl. destruct Hl as [Hy Hl].
  cbn [insert_sorted]. destruct (fleb x y) eqn:E.
  - rewrite chain_cons, E, Hc. reflexivity.
  - assert (Hyx : fleb y x = true).
    { apply fleb_true. left.
      destruct (f_total x y Hx Hy) as [T|[T|T]]; [| |exact T].
      - assert (fleb x y = true) by (apply fleb_true; left; exact T). congruence.
      - assert (fleb x y = true) by (apply fleb_true; right; exact T). congruence. }
    specialize (IH Hl (chain_tail _ _ _ Hc)).
    destruct l as [|z l]; cbn [insert_sorted] in *.
    + rewrite chain_cons, Hyx. reflexivity.
    + destruct (fleb x z).
      * rewrite chain_cons, Hyx, IH. reflexivity.
      * rewrite chain_cons in Hc. apply andb_true_iff in Hc.
        rewrite chain_cons, (proj1 Hc), IH. reflexivity.
Qed.

Lemma np_sort_chain (l : list F) :
  forallb is_num l = true -> chain fleb (np_sort l) = true.
Proof.
  unfold np_sort. induction l as [|x l IH]; [reflexivity|].
  cbn [forallb fold_right]. intros [Hx Hl]%andb_true_iff.
  apply insert_sorted_chain; [exact Hx| |apply IH; exact Hl].
  apply forallb_forall. intros y Hy. apply np_sort_In in Hy.
  eapply forallb_is_num_In; eauto.
Qed.

Lemma np_sort_ascending (l : list F) :
  strictly_ascending l = true -> np_sort l = l.
Proof.
  unfold np_sort, strictly_ascending.
  induction l as [|x l IH]; [reflexivity|]. intros Hc.
  cbn [fold_right]. rewrite IH by (eapply chain_tail; exact Hc).
  destruct l as [|y l]; [reflexivity|].
  rewrite chain_cons in Hc. apply andb_true_iff in Hc. destruct Hc as [Hxy _].
  cbn [insert_sorted].
  replace (fleb x y) with true; [reflexivity|].
  symmetry. apply fleb_true. left. exact Hxy.
Qed.

(** *** Sets of numbers *)

Lemma py_set_In (y : F) (l : list F) : In y (py_set l) -> In y l.
Proof.
  induction l as [|x l IH]; [intros []|]. cbn [py_set].
  intros [<-|Hy]; [left; reflexivity|].
  apply filter_In in Hy. right. apply IH. tauto.
Qed.

Lemma py_set_length (l : list F) : (length (py_set l) <= length l)%nat.
Proof.
  induction l as [|x l IH]; [reflexivity|]. cbn [py_set length].
  pose proof (filter_length_le (fun y => negb (feqb y x)) (py_set l)). lia.
Qed.

Lemma py_set_head (x : F) (l : list F) :
  exists r, py_set (x :: l) = x :: r.
Proof. eexists. reflexivity. Qed.

(** A list as long as its set has no plateau. *)
Lemma py_set_no_plateau (l : list F) :
  length (py_set l) = length l -> no_plateau l = true.
Proof.
  unfold no_plateau. induction l as [|x l IH]; [reflexivity|].
  cbn [py_set length]. intros Hlen.
  pose proof (filter_length_le (fun y => negb (feqb y x)) (py_set l)) as Hf.
  pose proof (py_set_length l) as Hs.
  assert (Hall : forallb (fun y => negb (feqb y x)) (py_set l) = true).
  { apply filter_length_all. lia. }
  destruct l as [|y l]; [reflexivity|].
  rewrite chain_cons. apply andb_true_iff. split.
  - rewrite forallb_forall in Hall.
    specialize (Hall y ltac:(left; reflexivity)).
    rewrite feqb_sym. exact Hall.
  - apply IH. cbn [length] in *. lia.
Qed.

Lemma py_set_ascending (l : list F) :
  strictly_ascending l = true -> py_set l = l.
Proof.
  unfold strictly_ascending. induction l as [|x l IH]; [reflexivity|].
  intros Hc. cbn [py_set]. rewrite IH by (eapply chain_tail; exact Hc).
  f_equal. apply filter_all. apply forallb_forall. intros y Hy.
  apply negb_true_iff. rewrite feqb_sym. apply fltb_neq.
  eapply chain_head; [apply fltb_trans|exact Hc|exact Hy].
Qed.

(** *** [assert_equal] *)

Lemma assert_equal_refl (l : list F) :
  forallb is_num l = true -> assert_equal l l = true.
Proof.
  induction l as [|x l IH]; [reflexivity|]. cbn [forallb assert_equal].
  intros [Hx Hl]%andb_true_iff. unfold is_num in Hx. rewrite Hx, (IH Hl).
  reflexivity.
Qed.

Lemma assert_equal_length (l s : list F) :
  assert_equal l s = true -> length l = length s.
Proof.
  revert s. induction l as [|x l IH]; intros [|y s]; cbn [assert_equal];
    try discriminate; [reflexivity|].
  intros [_ Hr]%andb_true_iff. cbn [length]. f_equal. apply IH. exact Hr.
Qed.

Lemma fleb_feqb_compat (x x' y y' : F) :
  feqb x x' = true -> feqb y y' = true -> fleb x' y' = true -> fleb x y = true.
Proof.
  intros Hx Hy Hle.
  assert (Hxx : fleb x x' = true) by (apply fleb_true; right; exact Hx).
  assert (Hyy : fleb y' y = true).
  { apply fleb_true. right. rewrite feqb_sym. exact Hy. }
  eapply fleb_trans; [exact Hxx|]. eapply fleb_trans; [exact Hle|exact Hyy].
Qed.

Lemma assert_equal_chain (l s : list F) :
  forallb is_num l = true -> assert_equal l s = true ->
  chain fleb s = true -> chain fleb l = true.
Proof.
  revert s. induction l as [|x l IH]; intros [|y s] Hl He Hc;
    cbn [assert_equal] in He; try discriminate; [reflexivity|].
  cbn [forallb] in Hl. apply andb_true_iff in Hl. destruct Hl as [Hx Hl].
  apply andb_true_iff in He. destruct He as [Hxy He].
  destruct l as [|x' l]; [reflexivity|].
  destruct s as [|y' s]; [discriminate|].
  rewrite chain_cons in Hc. apply andb_true_iff in Hc. destruct Hc as [Hyy Hc].
  rewrite chain_cons. apply andb_true_iff. split.
  - cbn [assert_equal] in He. apply andb_true_iff in He. destruct He as [Hxy' _].
    cbn [forallb] in Hl. apply andb_true_iff in Hl. destruct Hl as [Hx' _].
    rewrite Hx in Hxy. rewrite Hx' in Hxy'. cbn in Hxy, Hxy'.
    rewrite orb_false_r in Hxy, Hxy'.
    eapply fleb_feqb_compat; eauto.
  - apply (IH (y' :: s)); assumption.
Qed.

(** The check [assert_equal(imls, sorted(set(imls)))] says, of numbers,
    that they are in strictly ascending order. *)
Lemma sorted_set_ascending (l : list F) :
  forallb is_num l = true ->
  assert_equal l (np_sort (py_set l)) = true -> strictly_ascending l = true.
Proof.
  intros Hl He. unfold strictly_ascending.
  assert (Hset : forallb is_num (py_set l) = true).
  { apply forallb_forall. intros y Hy. apply py_set_In in Hy.
    eapply forallb_is_num_In; eauto. }
  pose proof (assert_equal_chain l _ Hl He (np_sort_chain _ Hset)) as Hle.
  pose proof (assert_equal_length _ _ He) as Hlen.
  rewrite np_sort_length in Hlen.
  pose proof (py_set_no_plateau l (eq_sym Hlen)) as Hneq.
  apply (chain_impl (fun a b => fleb a b && negb (feqb a b))).
  - intros a b [Hab Hn]%andb_true_iff. apply negb_true_iff in Hn.
    apply fleb_true in Hab. destruct Hab; congruence.
  - apply chain_both; assumption.
Qed.

Lemma ascending_sorted_set (l : list F) :
  forallb is_num l = true -> strictly_ascending l = true ->
  assert_equal l (np_sort (py_set l)) = true.
Proof.
  intros Hl Hc. rewrite (py_set_ascending l Hc), (np_sort_ascending l Hc).
  apply assert_equal_refl. exact Hl.
Qed.


(** *** The points that [strictly_increasing] keeps *)

Lemma py_index_app_middle (pre rest : list F) (x : F) :
  py_index (pre ++ x :: rest) (Z.of_nat (length pre)) = Some x.
Proof.
  rewrite (py_index_nat x).
  - rewrite Nat2Z.id, app_nth2, Nat.sub_diag by lia. reflexivity.
  - rewrite length_app. cbn [length]. lia.
Qed.

Lemma strictly_increasing_loop_points (mlrs : list F) :
  forall (previous : option F) (pre_imls pre_covs imls covs : list F),
    length pre_imls = length pre_covs ->
    length imls = length mlrs -> length covs = length mlrs ->
    strictly_increasing_loop previous (Z.of_nat (length pre_imls)) mlrs
                             (pre_imls ++ imls) (pre_covs ++ covs)
    = Some (imls_of (collapse_points previous (points_of imls mlrs covs)),
            mlrs_of (collapse_points previous (points_of imls mlrs covs)),
            covs_of (collapse_points previous (points_of imls mlrs covs))).
Proof.
  induction mlrs as [|mlr rest IH];
    intros previous pre_imls pre_covs [|iml imls] [|cov covs] Hpre Hi Hc;
    try discriminate; [reflexivity|].
  cbn [length] in Hi, Hc.
  assert (Hnext : (Z.of_nat (length pre_imls) + 1)%Z
                  = Z.of_nat (length (pre_imls ++ [iml]))).
  { rewrite length_app. cbn [length]. lia. }
  assert (Hpre' : length (pre_imls ++ [iml]) = length (pre_covs ++ [cov])).
  { rewrite !length_app. cbn [length]. lia. }
  cbn [strictly_increasing_loop]. unfold points_of. cbn [combine collapse_points].
  fold (points_of imls rest covs).
  replace (pre_imls ++ iml :: imls) with ((pre_imls ++ [iml]) ++ imls)
    by (rewrite <- app_assoc; reflexivity).
  replace (pre_covs ++ cov :: covs) with ((pre_covs ++ [cov]) ++ covs)
    by (rewrite <- app_assoc; reflexivity).
  rewrite Hnext.
  destruct (match previous with Some p => feqb p mlr | None => false end).
  - apply IH; [exact Hpre'|lia|lia].
  - rewrite <- Hnext.
    rewrite <- !app_assoc. cbn [app].
    rewrite py_index_app_middle, Hpre, py_index_app_middle.
    rewrite <- Hpre, Hnext.
    replace (pre_imls ++ iml :: imls) with ((pre_imls ++ [iml]) ++ imls)
      by (rewrite <- app_assoc; reflexivity).
    replace (pre_covs ++ cov :: covs) with ((pre_covs ++ [cov]) ++ covs)
      by (rewrite <- app_assoc; reflexivity).
    rewrite (IH (Some mlr)) by (try exact Hpre'; lia).
    reflexivity.
Qed.

Lemma collapse_points_subseq (points : list (F * F * F)) :
  forall previous, subseq (collapse_points previous points) points.
Proof.
  induction points as [|[[iml mlr] cov] rest IH]; intros previous;
    cbn [collapse_points]; [constructor|].
  destruct (match previous with Some p => feqb p mlr | None => false end);
    constructor; apply IH.
Qed.

Lemma collapse_points_no_plateau (points : list (F * F * F)) :
  forall previous,
    no_plateau (match previous with
                | Some p => p :: mlrs_of (collapse_points previous points)
                | None => mlrs_of (collapse_points previous points)
                end) = true.
Proof.
  unfold no_plateau.
  induction points as [|[[iml mlr] cov] rest IH]; intros previous;
    cbn [collapse_points].
  - destruct previous; reflexivity.
  - destruct previous as [p|].
    + destruct (feqb p mlr) eqn:E.
      * apply (IH (Some p)).
      * unfold mlrs_of. cbn [map fst snd]. rewrite chain_cons, E. cbn [negb andb].
        apply (IH (Some mlr)).
    + apply (IH (Some mlr)).
Qed.

Lemma collapse_points_fixed (points : list (F * F * F)) :
  forall previous,
    no_plateau (match previous with
                | Some p => p :: mlrs_of points
                | None => mlrs_of points
                end) = true ->
    collapse_points previous points = points.
Proof.
  unfold no_plateau.
  induction points as [|[[iml mlr] cov] rest IH]; intros previous Hc;
    [reflexivity|].
  cbn [collapse_points]. unfold mlrs_of in Hc. cbn [map fst snd] in Hc.
  fold (mlrs_of rest) in Hc.
  assert (Hrest : collapse_points (Some mlr) rest = rest).
  { apply IH. destruct previous; [eapply chain_tail|]; exact Hc. }
  destruct previous as [p|].
  - rewrite chain_cons in Hc. apply andb_true_iff in Hc. destruct Hc as [Hp _].
    apply negb_true_iff in Hp. rewrite Hp, Hrest. reflexivity.
  - rewrite Hrest. reflexivity.
Qed.

Lemma map_fst_combine {A B : Type} (a : list A) (b : list B) :
  length a = length b -> map fst (combine a b) = a.
Proof.
  revert b. induction a as [|x a IH]; intros [|y b] Hlen; try discriminate;
    [reflexivity|].
  cbn. f_equal. apply IH. simpl in Hlen. lia.
Qed.

Lemma map_snd_combine {A B : Type} (a : list A) (b : list B) :
  length a = length b -> map snd (combine a b) = b.
Proof.
  revert b. induction a as [|x a IH]; intros [|y b] Hlen; try discriminate;
    [reflexivity|].
  cbn. f_equal. apply IH. simpl in Hlen. lia.
Qed.

Lemma points_of_projections (points : list (F * F * F)) :
  points_of (imls_of points) (mlrs_of points) (covs_of points) = points.
Proof.
  unfold points_of, imls_of, mlrs_of, covs_of.
  induction points as [|[[iml mlr] cov] rest IH]; [reflexivity|].
  cbn. f_equal. exact IH.
Qed.

Lemma projections_of_points (imls mlrs covs : list F) :
  length imls = length mlrs -> length covs = length mlrs ->
  imls_of (points_of imls mlrs covs) = imls /\
  mlrs_of (points_of imls mlrs covs) = mlrs /\
  covs_of (points_of imls mlrs covs) = covs.
Proof.
  intros Hi Hc. unfold points_of, imls_of, mlrs_of, covs_of.
  assert (Hlen : length (combine imls mlrs) = length covs).
  { rewrite length_combine. lia. }
  split; [|split].
  - rewrite <- (map_map fst fst), map_fst_combine by exact Hlen.
    apply map_fst_combine. exact Hi.
  - rewrite <- (map_map fst snd), map_fst_combine by exact Hlen.
    apply map_snd_combine. exact Hi.
  - apply map_snd_combine. exact Hlen.
Qed.


(** *** The checks of the constructor on the points kept *)

Lemma nonnegative_is_num (l : list F) :
  forallb (fun x => fgeb x f0) l = true -> forallb is_num l = true.
Proof.
  intros Hl. apply forallb_forall. intros x Hx.
  rewrite forallb_forall in Hl. specialize (Hl x Hx).
  unfold fgeb in Hl. apply fleb_is_num in Hl. tauto.
Qed.

Lemma collapse_points_checks (imls mlrs covs : list F) (name : string) :
  _check_vulnerability_data imls mlrs (Some covs) name = true ->
  existsb (fun '(lr, cov) => feqb lr f0 && fgtb cov f0) (combine mlrs covs) = false ->
  let points := collapse_points None (points_of imls mlrs covs) in
  _check_vulnerability_data (imls_of points) (mlrs_of points)
                            (Some (covs_of points)) name = true /\
  existsb (fun '(lr, cov) => feqb lr f0 && fgtb cov f0)
          (combine (mlrs_of points) (covs_of points)) = false.
Proof.
  intros Hcheck Hzero points. unfold _check_vulnerability_data in *.
  repeat (apply andb_true_iff in Hcheck;
          let H := fresh "C" in destruct Hcheck as [Hcheck H]).
  rename Hcheck into Csorted, C into Cname, C0 into Ccovs, C1 into Cmlrs,
         C2 into Clen_mlrs, C3 into Clen_covs, C4 into Cimls.
  apply Nat.eqb_eq in Clen_mlrs, Clen_covs.
  destruct (projections_of_points imls mlrs covs) as [Pi [Pm Pc]]; try lia.
  pose proof (collapse_points_subseq (points_of imls mlrs covs) None) as Hsub.
  fold points in Hsub.
  assert (Si : subseq (imls_of points) imls).
  { rewrite <- Pi. apply subseq_map. exact Hsub. }
  assert (Sm : subseq (mlrs_of points) mlrs).
  { rewrite <- Pm. apply subseq_map. exact Hsub. }
  assert (Sc : subseq (covs_of points) covs).
  { rewrite <- Pc. apply subseq_map. exact Hsub. }
  assert (Bimls : forallb (fun x => fgeb x f0) (imls_of points) = true)
    by (eapply subseq_forallb; eauto).
  split.
  - repeat (apply andb_true_iff; split); try assumption.
    + apply ascending_sorted_set; [apply nonnegative_is_num; exact Bimls|].
      eapply chain_subseq; [apply fltb_trans|exact Si|].
      apply sorted_set_ascending; [apply nonnegative_is_num|]; assumption.
    + apply Nat.eqb_eq. unfold covs_of, imls_of. rewrite !length_map. reflexivity.
    + apply Nat.eqb_eq. unfold mlrs_of, imls_of. rewrite !length_map. reflexivity.
    + eapply subseq_forallb; eauto.
    + eapply subseq_forallb; eauto.
  - unfold mlrs_of, covs_of. rewrite combine_map_map.
    replace (combine mlrs covs)
      with (map (fun point : F * F * F => (snd (fst point), snd point))
                (points_of imls mlrs covs)) in Hzero.
    + eapply subseq_existsb; [|exact Hzero]. apply subseq_map. exact Hsub.
    + rewrite <- combine_map_map. fold (mlrs_of (points_of imls mlrs covs)).
      fold (covs_of (points_of imls mlrs covs)). rewrite Pm, Pc. reflexivity.
Qed.

End PlateauFacts.

(** ** [strictly_increasing] *)

Section StrictlyIncreasingFacts.
Context {F RNG : Type} `{PyFloatOrder F}.
Variable interp1d_init : list F -> list F -> bool.

Local Abbreviation init_ :=
  (VulnerabilityFunction_init (RNG := RNG) interp1d_init).
Local Abbreviation strictly_increasing_ :=
  (strictly_increasing (RNG := RNG) interp1d_init).

Lemma registered_class (covs : list F) (name : string) :
  (String.eqb name "LN" || String.eqb name "BT") = true ->
  exists class, distribution_class_for covs name = Some class.
Proof.
  intros Hname. unfold distribution_class_for, DISTRIBUTIONS.
  destruct (existsb _ covs); [|eexists; reflexivity].
  destruct (String.eqb name "LN"); [eexists; reflexivity|].
  cbn [orb] in Hname. rewrite Hname. eexists. reflexivity.
Qed.

Lemma check_name (imls mlrs : list F) (covs : option (list F)) (name : string) :
  _check_vulnerability_data imls mlrs covs name = true ->
  (String.eqb name "LN" || String.eqb name "BT") = true.
Proof.
  unfold _check_vulnerability_data. intros Hcheck.
  apply andb_true_iff in Hcheck. tauto.
Qed.

Lemma check_lengths (imls mlrs covs : list F) (name : string) :
  _check_vulnerability_data imls mlrs (Some covs) name = true ->
  length imls = length mlrs /\ length covs = length mlrs.
Proof.
  unfold _check_vulnerability_data. intros Hcheck.
  repeat (apply andb_true_iff in Hcheck;
          let C := fresh "C" in destruct Hcheck as [Hcheck C]).
  repeat match goal with
         | E : (_ =? _)%nat = true |- _ => apply Nat.eqb_eq in E
         end.
  lia.
Qed.

(** The constructor, run: it makes the function object when the library
    takes the points, and raises otherwise. *)
Lemma init_run (s : Store F RNG) (id type : string) (xs ms cs : list F)
      (name : string) :
  _check_vulnerability_data xs ms (Some cs) name = true ->
  existsb (fun '(lr, cov) => feqb lr f0 && fgtb cov f0) (combine ms cs) = false ->
  if interp1d_init xs ms && interp1d_init xs cs
  then exists s' d,
      init_ id type xs ms (Some cs) name s
      = (Some (length (functions s)), s') /\
      nth_error (functions s') (length (functions s))
      = Some (mkVulnerabilityFunction id type xs ms cs name
                (map (fun '(cov, lr) => fmul cov lr) (combine cs ms))
                (Some d))
  else init_ id type xs ms (Some cs) name s = (None, s).
Proof.
  intros Hcheck Hzero. unfold VulnerabilityFunction_init.
  rewrite Hcheck, Hzero. cbn [negb].
  destruct (interp1d_init xs ms && interp1d_init xs cs); [|reflexivity].
  cbn [negb]. rewrite bind_run. cbn [new_function].
  set (c := mkVulnerabilityFunction id type xs ms cs name _ None).
  set (s1 := mkStore (distributions s) (functions s ++ [c]) (random_state s)).
  pose proof (set_distribution_bound s1 (functions s) c None eq_refl) as Hset.
  destruct (registered_class cs name (check_name _ _ _ _ Hcheck)) as [class Hclass].
  cbn [covs distribution_name c] in Hset. rewrite Hclass in Hset.
  destruct Hset as [s2 [Eset [_ [Hfs _]]]].
  rewrite bind_run, Eset. cbn [ret].
  exists s2, (length (distributions s1)). split; [reflexivity|].
  rewrite Hfs. apply nth_error_app_last.
Qed.

(** C8.  On a validly constructed function, [strictly_increasing] keeps the
    first point of every run of equal consecutive mean loss ratios, so that
    no two consecutive mean loss ratios of the result are equal; when the
    interpolation library takes the points kept, the call returns a new
    function, and a second application to that function returns a function
    with the same identity, points and distribution name; when the library
    refuses the points kept, the first call raises. *)
Theorem strictly_increasing_idempotent (s : Store F RNG) (self : nat)
        (vf : VulnerabilityFunction F) :
  nth_error (functions s) self = Some vf ->
  constructed interp1d_init vf ->
  let points := collapse_points None
                  (points_of (imls vf) (mean_loss_ratios vf) (covs vf)) in
  no_plateau (mlrs_of points) = true /\
  subseq points (points_of (imls vf) (mean_loss_ratios vf) (covs vf)) /\
  if interp1d_init (imls_of points) (mlrs_of points)
     && interp1d_init (imls_of points) (covs_of points)
  then exists r1 s1 vf1 r2 s2 vf2,
      strictly_increasing_ self s = (Some r1, s1) /\
      nth_error (functions s1) r1 = Some vf1 /\
      vf_id vf1 = vf_id vf /\ imt vf1 = imt vf /\
      imls vf1 = imls_of points /\ mean_loss_ratios vf1 = mlrs_of points /\
      covs vf1 = covs_of points /\
      distribution_name vf1 = distribution_name vf /\
      strictly_increasing_ r1 s1 = (Some r2, s2) /\
      nth_error (functions s2) r2 = Some vf2 /\
      same_function vf2 vf1
  else fst (strictly_increasing_ self s) = None.
Proof.
  intros Hself [Hcheck [Hzero Hinterp]] points.
  pose proof (collapse_points_no_plateau
                (points_of (imls vf) (mean_loss_ratios vf) (covs vf)) None) as Hflat.
  fold points in Hflat.
  split; [exact Hflat|]. split; [apply collapse_points_subseq|].
  destruct (check_lengths _ _ _ _ Hcheck) as [Hli Hlc].
  destruct (collapse_points_checks _ _ _ _ Hcheck Hzero) as [Hcheck' Hzero'].
  fold points in Hcheck', Hzero'.
  assert (Hloop : forall w : VulnerabilityFunction F,
             imls w = imls vf -> mean_loss_ratios w = mean_loss_ratios vf ->
             covs w = covs vf ->
             strictly_increasing_loop None 0 (mean_loss_ratios w) (imls w) (covs w)
             = Some (imls_of points, mlrs_of points, covs_of points)).
  { intros w -> -> ->.
    apply (strictly_increasing_loop_points (mean_loss_ratios vf) None [] []);
      [reflexivity|exact Hli|exact Hlc]. }
  assert (Hfirst : strictly_increasing_ self s
                   = init_ (vf_id vf) (imt vf) (imls_of points) (mlrs_of points)
                           (Some (covs_of points)) (distribution_name vf) s).
  { unfold strictly_increasing. rewrite bind_get_function, Hself, bind_lift.
    rewrite (Hloop vf) by reflexivity. reflexivity. }
  pose proof (init_run s (vf_id vf) (imt vf) _ _ _ _ Hcheck' Hzero') as Hinit.
  destruct (interp1d_init (imls_of points) (mlrs_of points)
            && interp1d_init (imls_of points) (covs_of points)) eqn:Hlib.
  2:{ rewrite Hfirst, Hinit. reflexivity. }
  destruct Hinit as [s1 [d1 [Erun Eobj]]].
  set (vf1 := mkVulnerabilityFunction (vf_id vf) (imt vf) (imls_of points)
                (mlrs_of points) (covs_of points) (distribution_name vf)
                (map (fun '(cov, lr) => fmul cov lr)
                     (combine (covs_of points) (mlrs_of points)))
                (Some d1)) in *.
  (* the second application *)
  assert (Hsecond : strictly_increasing_ (length (functions s)) s1
                    = init_ (vf_id vf) (imt vf) (imls_of points) (mlrs_of points)
                            (Some (covs_of points)) (distribution_name vf) s1).
  { unfold strictly_increasing. rewrite bind_get_function, Eobj, bind_lift.
    cbn [mean_loss_ratios imls covs vf1 vf_id imt distribution_name].
    pose proof (strictly_increasing_loop_points (mlrs_of points) None [] []
                  (imls_of points) (covs_of points) eq_refl) as Hkeep.
    cbn [app length] in Hkeep. change (Z.of_nat 0) with 0%Z in Hkeep.
    rewrite Hkeep.
    - rewrite points_of_projections, (collapse_points_fixed points None Hflat).
      reflexivity.
    - unfold imls_of, mlrs_of. rewrite !length_map. reflexivity.
    - unfold covs_of, mlrs_of. rewrite !length_map. reflexivity. }
  pose proof (init_run s1 (vf_id vf) (imt vf) _ _ _ _ Hcheck' Hzero') as Hinit2.
  rewrite Hlib in Hinit2. destruct Hinit2 as [s2 [d2 [Erun2 Eobj2]]].
  exists (length (functions s)), s1, vf1, (length (functions s1)), s2.
  eexists.
  split; [rewrite Hfirst; exact Erun|].
  split; [exact Eobj|].
  do 6 (split; [reflexivity|]).
  split; [rewrite Hsecond; exact Erun2|].
  split; [exact Eobj2|].
  unfold same_function. cbn. auto 10.
Qed.

End StrictlyIncreasingFacts.

Lemma strictly_increasing_idempotent_witness :
  exists r1 s1 vf1 r2 s2 vf2,
    strictly_increasing example_interp1d_init 0 example_store = (Some r1, s1) /\
    nth_error (functions s1) r1 = Some vf1 /\
    mean_loss_ratios vf1 = [0.05; 0.1; 0.4]%float /\
    strictly_increasing example_interp1d_init r1 s1 = (Some r2, s2) /\
    nth_error (functions s2) r2 = Some vf2 /\
    same_function vf2 vf1.
Proof.
  assert (Hvf : nth_error (functions example_store) 0 = Some example_function)
    by (vm_compute; reflexivity).
  assert (Hc : constructed example_interp1d_init example_function)
    by (vm_compute; auto).
  destruct (strictly_increasing_idempotent example_interp1d_init example_store
              0%nat example_function Hvf Hc) as [_ [_ Hrun]].
  match type of Hrun with
  | (if ?c then _ else _) =>
      assert (Hlib : c = true) by (vm_compute; reflexivity);
      rewrite Hlib in Hrun
  end.
  destruct Hrun as [r1 [s1 [vf1 [r2 [s2 [vf2 Hrun]]]]]].
  exists r1, s1, vf1, r2, s2, vf2.
  destruct Hrun as [E1 [O1 [_ [_ [_ [M1 [_ [_ [E2 [O2 Hsame]]]]]]]]]].
  split; [exact E1|]. split; [exact O1|].
  split; [rewrite M1; vm_compute; reflexivity|].
  split; [exact E2|]. split; [exact O2|exact Hsame].
Defined.

(** A function that is one plateau: the points kept are a single point,
    which the interpolator of the example refuses. *)
Example strictly_increasing_single_point :
  fst (strictly_increasing example_interp1d_init 0
         (snd (VulnerabilityFunction_init example_interp1d_init "flat" "PGA"
                 [0.1; 0.2]%float [0.5; 0.5]%float None "LN"
                 (mkStore [] [] 0%nat))))
  = None.
Proof. vm_compute. reflexivity. Qed.

(** * The rest of the module: properties *)

(** ** Finer loss ratios *)

Section FineGrainingFacts.
Context {F : Type} `{PyFloat F}.

Lemma py_slice_init {A : Type} (l : list A) (x : A) :
  py_slice (l ++ [x]) 0 (-1) = l.
Proof.
  unfold py_slice, py_bound. rewrite length_app. cbn [length].
  destruct (Z.ltb_spec 0 0) as [?|_]; [lia|].
  destruct (Z.ltb_spec (-1) 0) as [_|?]; [|lia].
  replace (Z.to_nat (Z.min 0 (Z.of_nat (length l + 1)))) with 0%nat by lia.
  replace (Z.to_nat (Z.max 0 (-1 + Z.of_nat (length l + 1)))) with (length l) by lia.
  cbn [skipn]. rewrite Nat.sub_0_r, firstn_app, firstn_all, Nat.sub_diag.
  cbn [firstn]. apply app_nil_r.
Qed.

Lemma linspace_init_length (x y : F) (k : nat) :
  length (py_slice (linspace x y (S (S k))) 0 (-1)) = S k.
Proof.
  unfold linspace. rewrite py_slice_init, length_map, length_seq. reflexivity.
Qed.

Lemma pairwise_length {A : Type} (l : list A) :
  length (pairwise l) = (length l - 1)%nat.
Proof.
  destruct l as [|x l]; [reflexivity|].
  revert x. induction l as [|y l IH]; intros x; [reflexivity|].
  change (pairwise (x :: y :: l)) with ((x, y) :: pairwise (y :: l)).
  cbn [length]. rewrite IH. cbn [length]. lia.
Qed.

Lemma concat_uniform_length {A : Type} (n : nat) (chunks : list (list A)) :
  Forall (fun chunk => length chunk = n) chunks ->
  length (concat chunks) = (n * length chunks)%nat.
Proof.
  induction 1 as [|chunk chunks Hc _ IH]; [cbn; lia|].
  cbn [concat length]. rewrite length_app, IH, Hc. lia.
Qed.

(** X1.  With two steps or more, [fine_graining] raises on fewer than two
    points, and turns [N >= 2] points into [steps * (N - 1) + 1] points. *)
Theorem fine_graining_length (points : list F) (steps : Z) :
  (2 <= steps)%Z ->
  if (length points <? 2)%nat then fine_graining points steps = None
  else exists fine,
      fine_graining points steps = Some fine /\
      length fine = (Z.to_nat steps * (length points - 1) + 1)%nat.
Proof.
  intros Hs. unfold fine_graining.
  destruct (Z.ltb_spec steps 2) as [?|_]; [lia|].
  destruct points as [|x [|y points]]; [reflexivity|reflexivity|].
  change (length (x :: y :: points) <? 2)%nat with false. cbv iota.
  change (pairwise (x :: y :: points)) with ((x, y) :: pairwise (y :: points)).
  cbn [map np_concatenate].
  set (chunks := _ :: map _ _).
  destruct (py_index (x :: y :: points) (-1)) as [last|] eqn:Elast.
  - eexists. split; [reflexivity|].
    cbn [concat]. rewrite app_nil_r, length_app. cbn [length].
    rewrite (concat_uniform_length (Z.to_nat steps) chunks).
    + unfold chunks. cbn [length]. rewrite length_map, pairwise_length.
      cbn [length]. lia.
    + assert (Hk : exists k, Z.to_nat (steps + 1) = S (S k) /\ Z.to_nat steps = S k).
      { exists (Z.to_nat steps - 1)%nat. lia. }
      destruct Hk as [k [Hk Hk']]. unfold chunks.
      constructor.
      * rewrite Hk, Hk'. apply linspace_init_length.
      * apply Forall_forall. intros chunk Hin. apply in_map_iff in Hin.
        destruct Hin as [[a b] [<- _]]. rewrite Hk, Hk'.
        apply linspace_init_length.
  - rewrite (py_index_last (x :: y :: points) x) in Elast by discriminate.
    discriminate.
Qed.
End FineGrainingFacts.

Lemma fine_graining_length_witness :
  exists fine,
    fine_graining [0; 0.5; 0.7; 1]%float 2 = Some fine /\ length fine = 7%nat.
Proof.
  exact (fine_graining_length [0; 0.5; 0.7; 1]%float 2 ltac:(lia)).
Defined.



Lemma pairwise_map {A B : Type} (f : A -> B) (l : list A) :
  pairwise (map f l) = map (fun p => (f (fst p), f (snd p))) (pairwise l).
Proof.
  destruct l as [|x l]; [reflexivity|].
  revert x. induction l as [|y l IH]; intros x; [reflexivity|].
  change (pairwise (x :: y :: l)) with ((x, y) :: pairwise (y :: l)).
  change (pairwise (map f (x :: y :: l)))
    with ((f x, f y) :: pairwise (map f (y :: l))).
  rewrite IH. reflexivity.
Qed.

Lemma pairwise_nth {A : Type} (l : list A) (d : A) (i : nat) :
  (S i < length l)%nat ->
  nth i (pairwise l) (d, d) = (nth i l d, nth (S i) l d).
Proof.
  revert i. destruct l as [|x l]; [simpl; lia|].
  revert x. induction l as [|y l IH]; intros x i Hi; [simpl in Hi; lia|].
  change (pairwise (x :: y :: l)) with ((x, y) :: pairwise (y :: l)).
  destruct i as [|i]; [reflexivity|].
  cbn [nth]. rewrite IH by (simpl in *; lia). reflexivity.
Qed.

Lemma nth_last {A : Type} (l : list A) (d : A) :
  nth (length l - 1) l d = last l d.
Proof.
  destruct l as [|x l]; [reflexivity|].
  cbn [length Nat.sub]. rewrite Nat.sub_0_r.
  revert x. induction l as [|y l IH]; intros x; [reflexivity|].
  change (last (x :: y :: l) d) with (last (y :: l) d).
  cbn [length nth]. apply IH.
Qed.

Lemma py_index_last_exact (l : list R) :
  l <> [] -> py_index (map XR l) (-1) = Some (XR (last l 0%R)).
Proof.
  intros Hl. rewrite (py_index_last (map XR l) (XR 0))
    by (destruct l; [congruence|discriminate]).
  rewrite length_map.
  rewrite (nth_map_in XR l _ 0%R)
    by (destruct l; [congruence|simpl; lia]).
  rewrite nth_last. reflexivity.
Qed.

Lemma np_concatenate_some {A : Type} (arrays : list (list A)) :
  arrays <> [] -> np_concatenate arrays = Some (concat arrays).
Proof. destruct arrays; [congruence|reflexivity]. Qed.

Lemma linspace_segment_exact (x y : R) (k : nat) :
  py_slice (linspace (XR x) (XR y) (S (S k))) 0 (-1)
  = map XR (Rsegment (S k) x y).
Proof.
  assert (Hk : INR (S k) <> 0%R) by (apply not_0_INR; discriminate).
  unfold linspace. rewrite py_slice_init. unfold Rsegment.
  rewrite map_map. apply map_ext. intros j.
  rewrite !of_int_nat_XR.
  change (fsub (XR y) (XR x)) with (XR (y - x)).
  rewrite xdiv_XR by exact Hk. reflexivity.
Qed.

Lemma concat_uniform_nth {A : Type} (n : nat) (chunks : list (list A))
      (rest : list A) (d : A) (i j : nat) :
  Forall (fun chunk => length chunk = n) chunks ->
  (i < length chunks)%nat -> (j < n)%nat ->
  nth (n * i + j) (concat chunks ++ rest) d = nth j (nth i chunks []) d.
Proof.
  intros Hall. revert i. induction Hall as [|chunk chunks Hc _ IH]; intros i Hi Hj.
  - simpl in Hi. lia.
  - cbn [concat]. rewrite <- app_assoc. destruct i as [|i].
    + rewrite Nat.mul_0_r, Nat.add_0_l. cbn [nth]. apply app_nth1. lia.
    + rewrite app_nth2 by (rewrite Hc; lia).
      replace (n * S i + j - length chunk)%nat with (n * i + j)%nat
        by (rewrite Hc; lia).
      cbn [nth]. apply IH; [simpl in Hi; lia|exact Hj].
Qed.

Lemma Rsegment_length (steps : nat) (x y : R) :
  length (Rsegment steps x y) = steps.
Proof. unfold Rsegment. rewrite length_map, length_seq. reflexivity. Qed.

Lemma Rsegment_nth (steps : nat) (x y : R) (j : nat) :
  (j < steps)%nat ->
  nth j (Rsegment steps x y) 0%R = (x + INR j * ((y - x) / INR steps))%R.
Proof.
  intros Hj. unfold Rsegment.
  rewrite (nth_map_in _ _ _ 0%nat) by (rewrite length_seq; exact Hj).
  rewrite seq_nth by exact Hj. reflexivity.
Qed.

Lemma Rsegment_chunks (points : list R) (steps : nat) :
  Forall (fun chunk => length chunk = steps)
         (map (fun '(x, y) => Rsegment steps x y) (pairwise points)).
Proof.
  apply Forall_forall. intros chunk Hin. apply in_map_iff in Hin.
  destruct Hin as [[a b] [<- _]]. apply Rsegment_length.
Qed.

Lemma fine_graining_exact (points : list R) (steps : nat) :
  (2 <= steps)%nat -> (2 <= length points)%nat ->
  fine_graining (map XR points) (Z.of_nat steps)
  = Some (map XR (Rfine_graining points steps)).
Proof.
  intros Hs Hn. unfold fine_graining.
  destruct (Z.ltb_spec (Z.of_nat steps) 2) as [?|_]; [lia|].
  rewrite py_index_last_exact by (destruct points; [simpl in Hn; lia|discriminate]).
  rewrite pairwise_map, map_map.
  rewrite np_concatenate_some
    by (destruct points as [|x [|y points]]; simpl in Hn; try lia; discriminate).
  cbn [np_concatenate concat]. unfold Rfine_graining.
  rewrite app_nil_r, map_app, concat_map, map_map.
  do 3 f_equal. apply map_ext. intros [a b]. cbn [fst snd].
  destruct steps as [|[|k]]; [lia|lia|].
  replace (Z.to_nat (Z.of_nat (S (S k)) + 1)) with (S (S (S k))) by lia.
  apply linspace_segment_exact.
Qed.

(** X2.  In exact arithmetic [fine_graining] keeps the points and sets
    [steps - 1] points at equal steps between a point and the next: the
    item [steps * i + j] of the result is the point [i] moved [j] steps
    towards the point [i + 1]. *)
Theorem fine_graining_points (points : list R) (steps : nat) :
  (2 <= steps)%nat -> (2 <= length points)%nat ->
  fine_graining (map XR points) (Z.of_nat steps)
  = Some (map XR (Rfine_graining points steps)) /\
  forall i j : nat,
    (S i < length points)%nat -> (j <= steps)%nat ->
    nth (steps * i + j) (Rfine_graining points steps) 0%R
    = (nth i points 0 + INR j * ((nth (S i) points 0 - nth i points 0) / INR steps))%R.
Proof.
  intros Hs Hn.
  assert (Hsteps : INR steps <> 0%R) by (apply not_0_INR; lia).
  pose proof (Rsegment_chunks points steps) as Hchunks.
  split; [apply fine_graining_exact; assumption|].
  intros i j Hi Hj. unfold Rfine_graining.
  destruct (Nat.eq_dec j steps) as [->|Hneq].
  - destruct (Nat.eq_dec (S (S i)) (length points)) as [Hlast|Hmore].
    + rewrite app_nth2
        by (rewrite (concat_uniform_length steps) by exact Hchunks;
            rewrite length_map, pairwise_length; nia).
      rewrite (concat_uniform_length steps) by exact Hchunks.
      rewrite length_map, pairwise_length.
      replace (steps * i + steps - steps * (length points - 1))%nat with 0%nat by nia.
      cbn [nth].
      rewrite <- (nth_last points 0%R).
      replace (length points - 1)%nat with (S i) by lia.
      field. exact Hsteps.
    + replace (steps * i + steps)%nat with (steps * S i + 0)%nat by lia.
      rewrite (concat_uniform_nth steps) by
        (try exact Hchunks; rewrite ?length_map, ?pairwise_length; lia).
      rewrite (nth_map_in _ _ _ (0%R, 0%R)) by (rewrite pairwise_length; lia).
      rewrite pairwise_nth by lia.
      rewrite Rsegment_nth by lia. cbn [INR]. field. exact Hsteps.
  - rewrite (concat_uniform_nth steps) by
      (try exact Hchunks; rewrite ?length_map, ?pairwise_length; lia).
    rewrite (nth_map_in _ _ _ (0%R, 0%R)) by (rewrite pairwise_length; lia).
    rewrite pairwise_nth by lia.
    apply Rsegment_nth. lia.
Qed.

Lemma fine_graining_points_witness :
  fine_graining (map XR [0; 1]%R) 2 = Some (map XR (Rfine_graining [0; 1]%R 2)).
Proof.
  exact (proj1 (fine_graining_points [0; 1]%R 2 ltac:(lia) ltac:(simpl; lia))).
Defined.

(** *** The loss ratios of a function, with steps *)

Lemma fold_min_exact (r : list R) (x : R) :
  fold_left (fun m y => if fltb y m then y else m) (map XR r) (XR x)
  = XR (fold_left Rmin r x).
Proof.
  revert x. induction r as [|y r IH]; intros x; [reflexivity|].
  cbn [map fold_left].
  replace (if fltb (XR y) (XR x) then XR y else XR x) with (XR (Rmin x y)).
  - apply IH.
  - cbn. unfold Exact.Rltb, Rmin.
    destruct (Rlt_dec y x), (Rle_dec x y); try reflexivity; f_equal; lra.
Qed.

Lemma fold_Rmin_spec (r : list R) (x : R) :
  In (fold_left Rmin r x) (x :: r) /\
  forall y, In y (x :: r) -> (fold_left Rmin r x <= y)%R.
Proof.
  revert x. induction r as [|z r IH]; intros x.
  - split; [left; reflexivity|]. intros y [<-|[]]. cbn. lra.
  - cbn [fold_left]. destruct (IH (Rmin x z)) as [Hin Hle]. split.
    + destruct Hin as [Hin|Hin]; [|right; right; exact Hin].
      rewrite <- Hin. unfold Rmin. destruct (Rle_dec x z); [left|right; left]; reflexivity.
    + intros y Hy.
      assert (Hm : (fold_left Rmin r (Rmin x z) <= Rmin x z)%R)
        by (apply Hle; left; reflexivity).
      destruct Hy as [<-|[<-|Hy]].
      * pose proof (Rmin_l x z). lra.
      * pose proof (Rmin_r x z). lra.
      * apply Hle. right. exact Hy.
Qed.

Lemma fold_Rmax_spec (r : list R) (x : R) :
  In (fold_left Rmax r x) (x :: r) /\
  forall y, In y (x :: r) -> (y <= fold_left Rmax r x)%R.
Proof.
  revert x. induction r as [|z r IH]; intros x.
  - split; [left; reflexivity|]. intros y [<-|[]]. cbn. lra.
  - cbn [fold_left]. destruct (IH (Rmax x z)) as [Hin Hle]. split.
    + destruct Hin as [Hin|Hin]; [|right; right; exact Hin].
      rewrite <- Hin. unfold Rmax. destruct (Rle_dec x z); [right; left|left]; reflexivity.
    + intros y Hy.
      assert (Hm : (Rmax x z <= fold_left Rmax r (Rmax x z))%R)
        by (apply Hle; left; reflexivity).
      destruct Hy as [<-|[<-|Hy]].
      * pose proof (Rmax_l x z). lra.
      * pose proof (Rmax_r x z). lra.
      * apply Hle. right. exact Hy.
Qed.

Lemma Rfine_graining_In (points : list R) (steps : nat) (x : R) :
  (1 <= steps)%nat -> In x points -> In x (Rfine_graining points steps).
Proof.
  intros Hs. unfold Rfine_graining.
  destruct points as [|y points]; [intros []|].
  revert y. induction points as [|z points IH]; intros y Hin.
  - destruct Hin as [<-|[]]. left. reflexivity.
  - change (pairwise (y :: z :: points)) with ((y, z) :: pairwise (z :: points)).
    cbn [map concat]. rewrite <- app_assoc.
    change (last (y :: z :: points) 0%R) with (last (z :: points) 0%R).
    apply in_or_app. destruct Hin as [<-|Hin].
    + left. unfold Rsegment. apply in_map_iff. exists 0%nat. split.
      * cbn [INR]. lra.
      * apply in_seq. lia.
    + right. apply IH. exact Hin.
Qed.

(** X3.  On loss ratios that are numbers, [mean_loss_ratios_with_steps] returns
    for every number of steps; what it returns holds 0 when no loss ratio
    is negative, and 1 when no loss ratio is above 1. *)
Theorem mean_loss_ratios_with_steps_ends
        (self : VulnerabilityFunction xreal) (mlrs : list R) (steps : Z) :
  mean_loss_ratios self = map XR mlrs -> mlrs <> [] ->
  exists loss_ratios,
    mean_loss_ratios_with_steps self steps = Some (map XR loss_ratios) /\
    (Forall (fun r => (0 <= r)%R) mlrs -> In 0%R loss_ratios) /\
    (Forall (fun r => (r <= 1)%R) mlrs -> In 1%R loss_ratios).
Proof.
  intros Hself Hne. unfold mean_loss_ratios_with_steps. rewrite Hself.
  destruct mlrs as [|x r]; [congruence|]. clear Hne.
  cbn [map py_min]. rewrite fold_min_exact.
  destruct (fold_Rmin_spec r x) as [Hmin_in Hmin_le].
  set (lowest := fold_left Rmin r x) in *.
  set (l1 := if Rlt_dec 0 lowest then 0%R :: x :: r else x :: r).
  assert (E1 : (if fgtb (XR lowest) f0 then [f0] ++ XR x :: map XR r
                else XR x :: map XR r) = map XR l1).
  { unfold l1. cbn. unfold Exact.Rltb. destruct (Rlt_dec 0 lowest); reflexivity. }
  rewrite E1.
  assert (Hl1 : exists y t, l1 = y :: t).
  { unfold l1. destruct (Rlt_dec 0 lowest); eauto. }
  destruct Hl1 as [y [t Hl1]]. rewrite Hl1. cbn [map py_max].
  rewrite fold_max_exact.
  destruct (fold_Rmax_spec t y) as [Hmax_in Hmax_ge].
  set (highest := fold_left Rmax t y) in *.
  set (l2 := if Rlt_dec highest 1 then l1 ++ [1%R] else l1).
  assert (E2 : (if fltb (XR highest) f1 then (XR y :: map XR t) ++ [f1]
                else XR y :: map XR t) = map XR l2).
  { unfold l2. rewrite Hl1. cbn [fltb xreal_PyFloat Exact.xcmp].
    change (f1 : xreal) with (XR 1). unfold Exact.Rltb.
    destruct (Rlt_dec highest 1); [|reflexivity].
    rewrite map_app. reflexivity. }
  rewrite E2.
  assert (Hsub1 : incl (x :: r) l1).
  { unfold l1. destruct (Rlt_dec 0 lowest); [apply incl_tl|]; apply incl_refl. }
  assert (Hsub2 : incl l1 l2).
  { unfold l2. destruct (Rlt_dec highest 1); [apply incl_appl|]; apply incl_refl. }
  assert (H0 : Forall (fun r => (0 <= r)%R) (x :: r) -> In 0%R l2).
  { intros Hpos. apply Hsub2. unfold l1.
    destruct (Rlt_dec 0 lowest) as [Hlow|Hlow]; [left; reflexivity|].
    rewrite Forall_forall in Hpos. specialize (Hpos lowest Hmin_in).
    replace 0%R with lowest by lra. exact Hmin_in. }
  assert (H1 : Forall (fun r => (r <= 1)%R) (x :: r) -> In 1%R l2).
  { intros Hle. unfold l2.
    destruct (Rlt_dec highest 1) as [Hhigh|Hhigh].
    - apply in_or_app. right. left. reflexivity.
    - rewrite <- Hl1 in Hmax_in.
      assert (Hh : (highest <= 1)%R).
      { unfold l1 in Hmax_in. rewrite Forall_forall in Hle.
        destruct (Rlt_dec 0 lowest).
        - destruct Hmax_in as [<-|Hin]; [lra|apply Hle; exact Hin].
        - apply Hle. exact Hmax_in. }
      replace 1%R with highest by lra. exact Hmax_in. }
  assert (Hlen : (2 <= length l2)%nat).
  { unfold l2, l1 in *.
    destruct (Rlt_dec 0 lowest) as [Hlow|Hlow].
    - destruct (Rlt_dec highest 1); [rewrite length_app|]; simpl; lia.
    - destruct (Rlt_dec highest 1) as [Hhigh|Hhigh];
        [rewrite length_app; simpl; lia|].
      destruct r as [|z r]; [|simpl; lia]. exfalso.
      injection Hl1 as <- <-. cbn in lowest, highest.
      unfold lowest, highest in *. lra. }
  unfold fine_graining.
  destruct (Z.ltb_spec steps 2) as [Hs|Hs].
  - exists l2. auto.
  - exists (Rfine_graining l2 (Z.to_nat steps)).
    pose proof (fine_graining_exact l2 (Z.to_nat steps) ltac:(lia) Hlen) as Hfine.
    unfold fine_graining in Hfine.
    rewrite Z2Nat.id in Hfine by lia.
    destruct (Z.ltb_spec steps 2) as [?|_]; [lia|].
    split; [exact Hfine|].
    split; intros Hall; apply Rfine_graining_In; auto; lia.
Qed.

Lemma mean_loss_ratios_with_steps_ends_witness :
  exists loss_ratios,
    mean_loss_ratios_with_steps
      (mkVulnerabilityFunction "VF" "PGA" [XR 1; XR 2] (map XR [1 / 2; 7 / 10]%R)
         [XR 0; XR 0] "LN" [XR 0; XR 0] None) 2
    = Some (map XR loss_ratios) /\
    In 0%R loss_ratios /\ In 1%R loss_ratios.
Proof.
  destruct (mean_loss_ratios_with_steps_ends
              (mkVulnerabilityFunction "VF" "PGA" [XR 1; XR 2]
                 (map XR [1 / 2; 7 / 10]%R) [XR 0; XR 0] "LN" [XR 0; XR 0] None)
              [1 / 2; 7 / 10]%R 2 eq_refl ltac:(discriminate))
    as [loss_ratios [Hrun [H0 H1]]].
  exists loss_ratios. split; [exact Hrun|]. split.
  - apply H0. repeat constructor; lra.
  - apply H1. repeat constructor; lra.
Defined.

(** *** The mean IMLs *)

Lemma py_index_from_end {A : Type} (l : list A) (d : A) (k : nat) :
  (1 <= k <= length l)%nat ->
  py_index l (- Z.of_nat k) = Some (nth (length l - k) l d).
Proof.
  intros Hk. unfold py_index.
  destruct (Z.ltb_spec (- Z.of_nat k) 0) as [_|?]; [|lia].
  destruct (Z.leb_spec 0 (- Z.of_nat k + Z.of_nat (length l))) as [_|?]; [|lia].
  destruct (Z.ltb_spec (- Z.of_nat k + Z.of_nat (length l)) (Z.of_nat (length l)))
    as [_|?]; [|lia].
  cbn [andb].
  replace (Z.to_nat (- Z.of_nat k + Z.of_nat (length l))) with (length l - k)%nat by lia.
  apply nth_error_nth'. lia.
Qed.

Lemma py_index_before_last {A : Type} (l : list A) (d : A) :
  (2 <= length l)%nat -> py_index l (-2) = Some (nth (length l - 2) l d).
Proof. intros Hl. apply (py_index_from_end l d 2). lia. Qed.

Lemma py_index_short {A : Type} (l : list A) (i : Z) :
  (Z.of_nat (length l) <= i \/ i < - Z.of_nat (length l))%Z ->
  py_index l i = None.
Proof.
  intros Hi. unfold py_index.
  destruct (Z.ltb_spec i 0).
  - destruct (Z.leb_spec 0 (i + Z.of_nat (length l))); [lia|reflexivity].
  - destruct (Z.ltb_spec i (Z.of_nat (length l))); [lia|].
    rewrite andb_false_r. reflexivity.
Qed.

Section MeanImlsFacts.
Context {F : Type} `{PyFloat F}.

(** X4.  [mean_imls] raises on an [imls] of fewer than two levels; on [N >= 2]
    levels it returns [N + 1] of them. *)
Theorem mean_imls_length (self : VulnerabilityFunction F) :
  if (length (imls self) <? 2)%nat then mean_imls self = None
  else exists means,
      mean_imls self = Some means /\ length means = S (length (imls self)).
Proof.
  unfold mean_imls. destruct (imls self) as [|x [|y l]] eqn:E.
  - reflexivity.
  - cbn [length Nat.ltb Nat.leb]. rewrite py_index_0.
    rewrite py_index_short by (simpl; lia). reflexivity.
  - change (length (x :: y :: l) <? 2)%nat with false. cbv iota.
    rewrite py_index_0.
    rewrite (py_index_nat x (x :: y :: l) 1) by (cbn [length]; lia).
    rewrite (py_index_last (x :: y :: l) x) by discriminate.
    rewrite (py_index_before_last (x :: y :: l) x) by (cbn [length]; lia).
    eexists. split; [reflexivity|].
    cbn [app length]. rewrite length_app, length_map, pairwise_length.
    cbn [length]. lia.
Qed.
End MeanImlsFacts.

Lemma np_mean2_exact (a b : R) : np_mean2 (XR a, XR b) = XR ((a + b) / 2).
Proof.
  unfold np_mean2. cbn [fst snd]. change (fadd (XR a) (XR b)) with (XR (a + b)%R).
  change (f2 : xreal) with (XR 2). apply xdiv_XR. lra.
Qed.

Lemma chain_adjacent {F : Type} (rel : F -> F -> bool) (l : list F) (d : F) (i : nat) :
  chain rel l = true -> (S i < length l)%nat ->
  rel (nth i l d) (nth (S i) l d) = true.
Proof.
  revert i. destruct l as [|x l]; [simpl; lia|].
  revert x. induction l as [|y l IH]; intros x i Hc Hi; [simpl in Hi; lia|].
  change (chain rel (x :: y :: l)) with (rel x y && chain rel (y :: l)) in Hc.
  apply andb_true_iff in Hc. destruct Hc as [Hxy Hc].
  destruct i as [|i]; [exact Hxy|].
  change (nth (S i) (x :: y :: l) d) with (nth i (y :: l) d).
  change (nth (S (S i)) (x :: y :: l) d) with (nth (S i) (y :: l) d).
  apply IH; [exact Hc|simpl in *; lia].
Qed.

Lemma strictly_ascending_exact (xs : list R) (i : nat) :
  strictly_ascending (map XR xs) = true -> (S i < length xs)%nat ->
  (nth i xs 0 < nth (S i) xs 0)%R.
Proof.
  intros Hc Hi.
  pose proof (chain_adjacent fltb (map XR xs) (XR 0) i Hc
                ltac:(rewrite length_map; exact Hi)) as Hlt.
  change (XR 0) with ((fun r => XR r) 0%R) in Hlt. rewrite !map_nth in Hlt.
  cbn in Hlt. unfold Exact.Rltb in Hlt.
  destruct (Rlt_dec (nth i xs 0%R) (nth (S i) xs 0%R)); [assumption|discriminate].
Qed.

(** X5.  In exact arithmetic, on levels that ascend strictly from a level that
    is not negative, the mean IMLs are the ends of bins around the levels:
    each level lies between the mean IML of its rank and the next one. *)
Theorem mean_imls_brackets (self : VulnerabilityFunction xreal) (xs : list R) :
  imls self = map XR xs -> (2 <= length xs)%nat ->
  strictly_ascending (map XR xs) = true -> (0 <= nth 0 xs 0)%R ->
  exists means,
    mean_imls self = Some (map XR means) /\
    length means = S (length xs) /\
    forall k, (k < length xs)%nat ->
      (nth k means 0 <= nth k xs 0 < nth (S k) means 0)%R.
Proof.
  intros Himls Hn Hasc H0. unfold mean_imls. rewrite Himls.
  destruct xs as [|x0 [|x1 rest]]; [simpl in Hn; lia|simpl in Hn; lia|].
  set (xs := x0 :: x1 :: rest) in *.
  assert (Hlen : length (map XR xs) = length xs) by apply length_map.
  change (map XR xs) with (XR x0 :: map XR (x1 :: rest)) at 1. rewrite py_index_0.
  rewrite (py_index_nat (XR 0) (map XR xs) 1) by (rewrite Hlen; lia).
  rewrite (py_index_last (map XR xs) (XR 0)) by discriminate.
  rewrite (py_index_before_last (map XR xs) (XR 0)) by (rewrite Hlen; lia).
  rewrite Hlen.
  rewrite !(nth_map_in XR xs _ 0%R) by lia.
  change (nth (Z.to_nat 1) xs 0%R) with x1.
  set (n := length xs) in *.
  set (lowest := Rmax 0 (x0 - (x1 - x0) / 2)%R).
  set (highest := (nth (n - 1) xs 0 + (nth (n - 1) xs 0 - nth (n - 2) xs 0) / 2)%R).
  set (middle := map (fun p => ((fst p + snd p) / 2)%R) (pairwise xs)).
  exists ([lowest] ++ middle ++ [highest]).
  assert (Hx01 : (x0 < x1)%R) by (apply (strictly_ascending_exact xs 0 Hasc); lia).
  split; [|split].
  - f_equal. rewrite !map_app. f_equal; [|f_equal].
    + cbn [map]. f_equal. unfold py_max2, lowest.
      change (fsub (XR x1) (XR x0)) with (XR (x1 - x0)%R).
      change (f2 : xreal) with (XR 2). rewrite xdiv_XR by lra.
      change (fsub (XR x0) (XR ((x1 - x0) / 2))) with (XR (x0 - (x1 - x0) / 2)%R).
      change (f0 : xreal) with (XR 0). cbn. unfold Exact.Rltb, Rmax.
      destruct (Rlt_dec 0 (x0 - (x1 - x0) / 2)%R), (Rle_dec 0 (x0 - (x1 - x0) / 2)%R);
        try reflexivity; f_equal; lra.
    + unfold middle. rewrite pairwise_map, !map_map. apply map_ext.
      intros [a b]. cbn [fst snd]. apply np_mean2_exact.
    + cbn [map]. f_equal. unfold highest.
      change (fsub (XR (nth (n - 1) xs 0%R)) (XR (nth (n - 2) xs 0%R)))
        with (XR (nth (n - 1) xs 0 - nth (n - 2) xs 0)%R).
      change (f2 : xreal) with (XR 2). rewrite xdiv_XR by lra. reflexivity.
  - cbn [app length]. rewrite length_app. unfold middle.
    rewrite length_map, pairwise_length. cbn [length]. fold n. lia.
  - intros k Hk.
    assert (Hmiddle : forall i, (S i < n)%nat ->
              nth i (middle ++ [highest]) 0%R = ((nth i xs 0 + nth (S i) xs 0) / 2)%R).
    { intros i Hi. rewrite app_nth1
        by (unfold middle; rewrite length_map, pairwise_length; fold n; lia).
      unfold middle.
      rewrite (nth_map_in _ _ _ (0%R, 0%R)) by (rewrite pairwise_length; fold n; lia).
      rewrite pairwise_nth by (fold n; lia). reflexivity. }
    assert (Hlast : nth (n - 1) (middle ++ [highest]) 0%R = highest).
    { rewrite app_nth2
        by (unfold middle; rewrite length_map, pairwise_length; fold n; lia).
      unfold middle. rewrite length_map, pairwise_length. fold n.
      rewrite Nat.sub_diag. reflexivity. }
    cbn [app].
    assert (Hnext : (nth k xs 0 < nth k (middle ++ [highest]) 0)%R).
    { destruct (Nat.eq_dec (S k) n) as [Hend|Hmid].
      - replace k with (n - 1)%nat by lia. rewrite Hlast. unfold highest.
        pose proof (strictly_ascending_exact xs (n - 2) Hasc ltac:(fold n; lia)) as Hlt.
        replace (S (n - 2)) with (n - 1)%nat in Hlt by lia. lra.
      - rewrite Hmiddle by lia.
        pose proof (strictly_ascending_exact xs k Hasc ltac:(fold n; lia)). lra. }
    split; [|exact Hnext].
    destruct k as [|k].
    + cbn [nth]. unfold lowest. change (nth 0 xs 0%R) with x0 in *.
      apply Rmax_lub; lra.
    + cbn [nth]. rewrite Hmiddle by lia.
      pose proof (strictly_ascending_exact xs k Hasc ltac:(fold n; lia)). lra.
Qed.

Lemma mean_imls_brackets_witness :
  exists means,
    mean_imls (mkVulnerabilityFunction "VF" "PGA" (map XR [1; 2; 4]%R) [] [] "LN" [] None)
    = Some (map XR means) /\
    length means = 4%nat.
Proof.
  destruct (mean_imls_brackets
              (mkVulnerabilityFunction "VF" "PGA" (map XR [1; 2; 4]%R) [] [] "LN" [] None)
              [1; 2; 4]%R eq_refl ltac:(simpl; lia))
    as [means [Hrun [Hlen _]]].
  - cbn. unfold Exact.Rltb.
    destruct (Rlt_dec 1 2); [|lra]. destruct (Rlt_dec 2 4); [reflexivity|lra].
  - cbn. lra.
  - exists means. auto.
Defined.

(** ** Insured losses *)

Lemma Rclip_cases (x lo hi : R) :
  (lo <= hi)%R ->
  Rclip x lo hi = if Rlt_dec hi x then hi else if Rlt_dec x lo then lo else x.
Proof.
  intros Hle. unfold Rclip, Rmin, Rmax.
  destruct (Rlt_dec hi x), (Rlt_dec x lo), (Rle_dec x lo);
    try lra; destruct (Rle_dec lo hi); try lra;
    try (destruct (Rle_dec x hi); lra).
Qed.

(** X6.  In exact arithmetic, with a deductible that is not above the insured
    limit, the insured loss is the loss clipped to the interval from the
    deductible to the limit, less the deductible: it is never negative
    and never above the limit less the deductible. *)
Theorem insured_losses_clipped (losses : list R) (deductible insured_limit : R) :
  (deductible <= insured_limit)%R ->
  let insured :=
    map (fun x => (Rclip x deductible insured_limit - deductible)%R) losses in
  insured_losses (map XR losses) (XR deductible) (XR insured_limit)
  = map XR insured /\
  Forall (fun r => (0 <= r <= insured_limit - deductible)%R) insured.
Proof.
  intros Hle insured. split.
  - unfold insured, insured_losses. rewrite !map_map. apply map_ext. intros x.
    rewrite Rclip_cases by exact Hle.
    unfold np_piecewise. cbn [app fold_left existsb fst snd orb negb].
    change (fsub (XR insured_limit) (XR deductible))
      with (XR (insured_limit - deductible)%R).
    change (fsub (XR x) (XR deductible)) with (XR (x - deductible)%R).
    change (f0 : xreal) with (XR 0).
    cbn [fltb fgtb xreal_PyFloat Exact.xcmp]. unfold fgtb. cbn. unfold Exact.Rltb.
    destruct (Rlt_dec x deductible), (Rlt_dec insured_limit x);
      cbn; try reflexivity; f_equal; lra.
  - unfold insured. apply Forall_forall. intros r Hin.
    apply in_map_iff in Hin. destruct Hin as [x [<- _]].
    pose proof (Rclip_bounds x deductible insured_limit Hle). lra.
Qed.

Lemma insured_losses_clipped_witness :
  insured_losses (map XR [3; 20; 101]%R) (XR 5) (XR 100)
  = map XR (map (fun x => (Rclip x 5 100 - 5)%R) [3; 20; 101]%R).
Proof.
  exact (proj1 (insured_losses_clipped [3; 20; 101]%R 5 100 ltac:(lra))).
Defined.

(** The example of the docstring, and a limit below the deductible, where
    the losses above the limit come out negative. *)
Example insured_losses_of_the_docstring :
  insured_losses [3; 20; 101]%float 5%float 100%float = [0; 15; 95]%float.
Proof. vm_compute. reflexivity. Qed.

Example insured_losses_limit_below_deductible :
  insured_losses [20]%float 50%float 10%float = [-40]%float.
Proof. vm_compute. reflexivity. Qed.

Section InsuredLossCurveFacts.
Context {F : Type} `{PyFloatOrder F}.
Variable interp1d_fill : list F -> list F -> F -> F -> option F.

Lemma combine_fst_map_snd {A B C : Type} (g : B -> C) (l : list (A * B)) :
  combine (map fst l) (map g (map snd l)) = map (fun '(a, b) => (a, g b)) l.
Proof.
  induction l as [|[a b] l IH]; [reflexivity|].
  cbn [map combine fst snd]. rewrite IH. reflexivity.
Qed.

(** X7.  The curve that [insured_loss_curve] returns holds, in their order,
    the points of the curve whose loss is not above the insured limit: each
    with its loss, and with its PoE when the PoE is not above the PoE that
    the curve has at the deductible, with that PoE otherwise.  When the
    PoEs are numbers no PoE of the result is above it. *)
Theorem insured_loss_curve_capped (curve0 curve1 : list F)
        (deductible insured_limit limit_poe : F) :
  length curve0 = length curve1 ->
  interp1d_fill curve0 curve1 f1 deductible = Some limit_poe ->
  exists losses poes,
    insured_loss_curve interp1d_fill (curve0, curve1) deductible insured_limit
    = Some (losses, poes) /\
    length poes = length losses /\
    combine losses poes
    = map (fun '(loss, poe) =>
             (loss, if fltb limit_poe poe then limit_poe else poe))
          (filter (fun '(loss, _) => fleb loss insured_limit)
                  (combine curve0 curve1)) /\
    losses = filter (fun loss => fleb loss insured_limit) curve0 /\
    (forallb is_num curve1 = true -> is_num limit_poe = true ->
     forallb (fun poe => fleb poe limit_poe) poes = true).
Proof.
  intros Hlen Hlimit. unfold insured_loss_curve.
  rewrite Hlen, Nat.eqb_refl, Hlimit. cbn [negb].
  eexists _, _. split; [reflexivity|]. split; [|split; [|split]].
  - unfold clip_above. rewrite !length_map. reflexivity.
  - unfold clip_above, fgtb. apply combine_fst_map_snd.
  - clear Hlimit. revert curve1 Hlen.
    induction curve0 as [|loss curve0 IH]; intros [|poe curve1] Hlen;
      try discriminate; [reflexivity|].
    cbn [combine filter]. destruct (fleb loss insured_limit); cbn [map];
      rewrite IH by (simpl in Hlen; lia); reflexivity.
  - intros Hnum Hl. unfold clip_above. apply forallb_forall. intros poe Hin.
    apply in_map_iff in Hin. destruct Hin as [p [<- Hin]].
    apply in_map_iff in Hin. destruct Hin as [[loss p'] [Hp Hin]].
    cbn [snd] in Hp. subst p'. apply filter_In in Hin. destruct Hin as [Hin _].
    apply in_combine_r in Hin.
    assert (Hp : is_num p = true) by (eapply forallb_is_num_In; eauto).
    unfold fgtb. destruct (fltb limit_poe p) eqn:E.
    + apply fleb_refl. exact Hl.
    + apply fltb_false_fleb; assumption.
Qed.
End InsuredLossCurveFacts.

Lemma insured_loss_curve_capped_witness :
  exists losses poes,
    insured_loss_curve (fun _ _ _ _ => Some 0.5%float)
      ([0; 1; 2]%float, [0.9; 0.3; 0.1]%float) 1%float 1.5%float
    = Some (losses, poes) /\
    combine losses poes = [(0, 0.5); (1, 0.3)]%float /\
    forallb (fun poe => fleb poe 0.5%float) poes = true.
Proof.
  assert (Hnum : forallb is_num [0.9; 0.3; 0.1]%float = true)
    by (vm_compute; reflexivity).
  assert (Hlimit : is_num 0.5%float = true) by (vm_compute; reflexivity).
  destruct (insured_loss_curve_capped (fun _ _ _ _ => Some 0.5%float)
              [0; 1; 2]%float [0.9; 0.3; 0.1]%float 1%float 1.5%float 0.5%float
              eq_refl eq_refl)
    as [losses [poes [Hrun [_ [Hpoints [_ Hcap]]]]]].
  exists losses, poes. split; [exact Hrun|]. split; [|exact (Hcap Hnum Hlimit)].
  rewrite Hpoints. vm_compute. reflexivity.
Defined.

(** ** The average loss of a curve *)

Section AverageLossFacts.
Context {F : Type} `{PyFloat F}.

(** X8.  [average_loss] raises exactly when the losses and the PoEs do not make
    the same number of bins; a curve of a single point makes none, as a
    curve without points does. *)
Theorem average_loss_bins (losses poes : list F) :
  average_loss (losses, poes) = None <->
  (length losses - 1)%nat <> (length poes - 1)%nat.
Proof.
  unfold average_loss, np_dot, pairwise_diff, pairwise_mean.
  rewrite !length_map, !pairwise_length.
  destruct (Nat.eqb_spec (length losses - 1) (length poes - 1)) as [E|E].
  - split; [discriminate|]. intros Hne. contradiction.
  - split; auto.
Qed.
End AverageLossFacts.

Lemma pairwise_mean_exact (l : list R) :
  pairwise_mean (map XR l)
  = map XR (map (fun p => ((fst p + snd p) / 2)%R) (pairwise l)).
Proof.
  unfold pairwise_mean. rewrite pairwise_map, !map_map. apply map_ext.
  intros [a b]. apply np_mean2_exact.
Qed.

Lemma Rtrapezoids_sum (losses poes : list R) :
  length losses = length poes ->
  Rsum (map (fun '(x, y) => (x * y)%R)
            (combine (map Ropp (Rdiffs losses))
                     (map (fun p => ((fst p + snd p) / 2)%R) (pairwise poes))))
  = Rtrapezoids losses poes.
Proof.
  unfold Rdiffs. revert poes.
  destruct losses as [|l0 losses]; intros [|p0 poes] Hlen; try discriminate;
    [reflexivity|].
  revert l0 p0 poes Hlen.
  induction losses as [|l1 losses IH]; intros l0 p0 [|p1 poes] Hlen;
    try discriminate; [reflexivity|].
  change (pairwise (l0 :: l1 :: losses)) with ((l0, l1) :: pairwise (l1 :: losses)).
  change (pairwise (p0 :: p1 :: poes)) with ((p0, p1) :: pairwise (p1 :: poes)).
  cbn [map combine Rsum fold_right fst snd].
  change (Rtrapezoids (l0 :: l1 :: losses) (p0 :: p1 :: poes))
    with ((l1 - l0) * ((p0 + p1) / 2) + Rtrapezoids (l1 :: losses) (p1 :: poes))%R.
  rewrite <- (IH l1 p1 poes) by (simpl in *; lia).
  unfold Rsum. lra.
Qed.

Lemma Rtrapezoids_bounds (losses poes : list R) :
  length losses = length poes ->
  non_decreasing (map XR losses) = true ->
  Forall (fun p => (0 <= p <= 1)%R) poes ->
  (0 <= Rtrapezoids losses poes <= last losses 0 - hd 0 losses)%R.
Proof.
  revert poes.
  destruct losses as [|l0 losses]; intros [|p0 poes] Hlen; try discriminate;
    [intros _ _; cbn; lra|].
  revert l0 p0 poes Hlen.
  induction losses as [|l1 losses IH]; intros l0 p0 [|p1 poes] Hlen Hmono Hp;
    try discriminate; [cbn; lra|].
  change (Rtrapezoids (l0 :: l1 :: losses) (p0 :: p1 :: poes))
    with ((l1 - l0) * ((p0 + p1) / 2) + Rtrapezoids (l1 :: losses) (p1 :: poes))%R.
  change (last (l0 :: l1 :: losses) 0%R) with (last (l1 :: losses) 0%R).
  unfold non_decreasing in Hmono.
  change (chain fleb (map XR (l0 :: l1 :: losses)))
    with (fleb (XR l0) (XR l1) && chain fleb (map XR (l1 :: losses))) in Hmono.
  apply andb_true_iff in Hmono. destruct Hmono as [H01 Hmono].
  cbn in H01. unfold Exact.Rleb in H01.
  destruct (Rle_dec l0 l1) as [Hle|]; [|discriminate].
  inversion Hp as [|? ? Hp0 Hp']; subst. inversion Hp' as [|? ? Hp1 _]; subst.
  specialize (IH l1 p1 poes ltac:(simpl in *; lia) Hmono Hp').
  cbn [hd] in *. nra.
Qed.

(** X9.  In exact arithmetic the average loss of a curve is the sum of its
    trapezoids, the widths of the loss bins by the means of the PoEs at
    their ends; on losses that do not decrease, with PoEs between 0 and 1,
    it lies between 0 and the range of the losses. *)
Theorem average_loss_trapezoids (losses poes : list R) :
  length losses = length poes ->
  average_loss (map XR losses, map XR poes)
  = Some (XR (Rtrapezoids losses poes)) /\
  (non_decreasing (map XR losses) = true ->
   Forall (fun p => (0 <= p <= 1)%R) poes ->
   (0 <= Rtrapezoids losses poes <= last losses 0 - hd 0 losses)%R).
Proof.
  intros Hlen. split; [|apply Rtrapezoids_bounds; exact Hlen].
  unfold average_loss, np_dot.
  rewrite pairwise_diff_exact, pairwise_mean_exact.
  rewrite <- Rtrapezoids_sum by exact Hlen.
  unfold Rdiffs. rewrite !length_map, !pairwise_length, Hlen, Nat.eqb_refl.
  f_equal. rewrite <- py_sum_exact. f_equal.
  rewrite !map_map.
  set (diffs := pairwise losses). set (means := pairwise poes).
  clearbody diffs means. clear.
  revert means. induction diffs as [|[a b] diffs IH]; intros [|[p q] means];
    try reflexivity.
  cbn [map combine fst snd]. rewrite IH. reflexivity.
Qed.

Lemma average_loss_trapezoids_witness :
  average_loss (map XR [0; 10; 20]%R, map XR [1; 1 / 2; 0]%R)
  = Some (XR (Rtrapezoids [0; 10; 20]%R [1; 1 / 2; 0]%R)).
Proof.
  exact (proj1 (average_loss_trapezoids [0; 10; 20]%R [1; 1 / 2; 0]%R eq_refl)).
Defined.

(** ** Probabilities and frequencies of exceedance *)

Lemma build_poes_counts (counts : list nat) (nses : R) :
  nses <> 0%R ->
  build_poes xexp (map Z.of_nat counts) (XR nses)
  = map XR (map (fun count => (1 - exp (- INR count / nses))%R) counts).
Proof.
  intros Hn. unfold build_poes. rewrite !map_map. apply map_ext. intros count.
  rewrite of_int_nat_XR. change (fneg (XR (INR count))) with (XR (- INR count)).
  rewrite xdiv_XR by exact Hn. reflexivity.
Qed.

(** X10.  In exact arithmetic, over a positive number of stochastic event sets,
    [build_poes] turns the counts into probabilities: 0 for the count 0,
    and for more counts more, below 1. *)
Theorem build_poes_range (counts : list nat) (nses : R) :
  (0 < nses)%R ->
  exists poes,
    build_poes xexp (map Z.of_nat counts) (XR nses) = map XR poes /\
    length poes = length counts /\
    forall i, (i < length counts)%nat ->
      (0 <= nth i poes 0 < 1)%R /\
      (nth i counts 0%nat = 0%nat -> nth i poes 0%R = 0%R) /\
      forall j, (j < length counts)%nat ->
        (nth i counts 0 <= nth j counts 0)%nat ->
        (nth i poes 0 <= nth j poes 0)%R.
Proof.
  intros Hn.
  exists (map (fun count => (1 - exp (- INR count / nses))%R) counts).
  split; [apply build_poes_counts; lra|].
  split; [apply length_map|].
  intros i Hi. rewrite (nth_map_in _ _ _ 0%nat) by exact Hi.
  assert (Hneg : forall c : nat, (- INR c / nses <= 0)%R).
  { intros c. pose proof (pos_INR c).
    unfold Rdiv. rewrite <- Ropp_mult_distr_l.
    assert (0 <= INR c * / nses)%R; [|lra].
    apply Rmult_le_pos; [assumption|]. left. apply Rinv_0_lt_compat. exact Hn. }
  split; [|split].
  - pose proof (exp_pos (- INR (nth i counts 0%nat) / nses)).
    pose proof (exp_monotone _ _ (Hneg (nth i counts 0%nat))) as Hle.
    rewrite exp_0 in Hle. lra.
  - intros ->. cbn [INR]. replace (- 0 / nses)%R with 0%R by (field; lra).
    rewrite exp_0. lra.
  - intros j Hj Hij. rewrite (nth_map_in _ _ _ 0%nat) by exact Hj.
    assert (Hexp : (exp (- INR (nth j counts 0%nat) / nses)
                    <= exp (- INR (nth i counts 0%nat) / nses))%R); [|lra].
    apply exp_monotone. apply le_INR in Hij.
    unfold Rdiv. apply Rmult_le_compat_r; [|lra].
    left. apply Rinv_0_lt_compat. exact Hn.
Qed.

Lemma build_poes_range_witness :
  exists poes,
    build_poes xexp (map Z.of_nat [0; 3]%nat) (XR 2) = map XR poes /\
    length poes = 2%nat.
Proof.
  destruct (build_poes_range [0; 3]%nat 2 ltac:(lra)) as [poes [Hrun [Hlen _]]].
  exists poes. auto.
Defined.

(** X11.  In exact arithmetic [annual_frequency_of_exceedence] takes the PoEs of
    [build_poes] back to the frequencies they were made of: the count over
    the number of stochastic event sets, by unit of time. *)
Theorem annual_frequency_of_build_poes (counts : list nat) (nses t_haz : R) :
  nses <> 0%R -> t_haz <> 0%R ->
  map (fun poe => annual_frequency_of_exceedence xlog poe (XR t_haz))
      (build_poes xexp (map Z.of_nat counts) (XR nses))
  = map XR (map (fun count => (INR count / nses / t_haz)%R) counts).
Proof.
  intros Hn Ht. rewrite build_poes_counts by exact Hn.
  rewrite !map_map. apply map_ext. intros count.
  unfold annual_frequency_of_exceedence.
  change (f1 : xreal) with (XR 1).
  set (v := (- INR count / nses)%R).
  change (fsub (XR 1) (XR (1 - exp v))) with (XR (1 - (1 - exp v))).
  unfold xlog. pose proof (exp_pos v).
  destruct (Rlt_dec 0 (1 - (1 - exp v))) as [_|Hneg]; [|lra].
  replace (1 - (1 - exp v))%R with (exp v) by lra. rewrite ln_exp.
  change (fneg (XR v)) with (XR (- v)).
  rewrite xdiv_XR by exact Ht. f_equal. unfold v. field. auto.
Qed.

Lemma annual_frequency_of_build_poes_witness :
  map (fun poe => annual_frequency_of_exceedence xlog poe (XR 50))
      (build_poes xexp (map Z.of_nat [0; 3]%nat) (XR 2))
  = map XR (map (fun count => (INR count / 2 / 50)%R) [0; 3]%nat).
Proof.
  exact (annual_frequency_of_build_poes [0; 3]%nat 2 50 ltac:(lra) ltac:(lra)).
Defined.

(** ** Classical damage *)

Lemma pairwise_diff_numbers (l : list xreal) :
  (2 <= length l)%nat -> forallb is_num (pairwise_diff l) = true ->
  exists rs, l = map XR rs.
Proof.
  unfold pairwise_diff.
  destruct l as [|x l]; [simpl; lia|].
  revert x. induction l as [|y l IH]; intros x Hlen Hnum; [simpl in Hlen; lia|].
  change (pairwise (x :: y :: l)) with ((x, y) :: pairwise (y :: l)) in Hnum.
  cbn [map forallb] in Hnum. apply andb_true_iff in Hnum.
  destruct Hnum as [Hxy Hnum].
  destruct x as [|a]; [discriminate|]. destruct y as [|b]; [discriminate|].
  destruct l as [|z l].
  - exists [a; b]. reflexivity.
  - destruct (IH (XR b) ltac:(simpl; lia) Hnum) as [rs Hrs].
    exists (a :: rs). cbn [map]. rewrite <- Hrs. reflexivity.
Qed.

Lemma last_map_XR (rs : list R) (d : R) :
  last (map XR rs) (XR d) = XR (last rs d).
Proof.
  induction rs as [|r rs IH]; [reflexivity|].
  destruct rs as [|r' rs]; [reflexivity|].
  change (last (map XR (r :: r' :: rs)) (XR d)) with (last (map XR (r' :: rs)) (XR d)).
  change (last (r :: r' :: rs) d) with (last (r' :: rs) d). exact IH.
Qed.

Section ClassicalDamageFacts.
Variable interp1d_init : list xreal -> list xreal -> bool.
Variable interp1d : list xreal -> list xreal -> xreal -> option xreal.
Variable lognorm_cdf : xreal -> xreal -> xreal -> xreal.
Variables fsqrt flog fexp : xreal -> xreal.
Variable fpow : xreal -> xreal -> xreal.

Local Abbreviation classical_damage_ :=
  (classical_damage interp1d_init interp1d lognorm_cdf fsqrt flog fexp fpow).

(** X12.  The probabilities of occurrence that [classical_damage] returns, when
    they are numbers, are one more than the fragility functions and sum
    to 1 in exact arithmetic, whatever the hazard curve. *)
Theorem classical_damage_fractions
        (fragility_functions : FragilityFunctionList xreal)
        (hazard_imls hazard_poes : list xreal)
        (investigation_time risk_investigation_time : xreal)
        (poos : list xreal) :
  classical_damage_ fragility_functions hazard_imls hazard_poes
                    investigation_time risk_investigation_time = Some poos ->
  forallb is_num poos = true ->
  length poos = S (length (elements fragility_functions)) /\
  py_sum poos = XR 1.
Proof.
  unfold classical_damage. intros Hrun Hnum.
  match type of Hrun with
  | match ?e with Some _ => _ | None => _ end = _ =>
      destruct e as [[imls' poes]|]; [|discriminate]
  end.
  destruct (py_index _ 0) as [afe0|]; [|discriminate].
  destruct (py_index _ (-1)) as [afe1|]; [|discriminate].
  match type of Hrun with
  | match ?e with Some _ => _ | None => _ end = _ =>
      destruct e as [ps|] eqn:Eps; [|discriminate]
  end.
  injection Hrun as <-.
  apply map_raise_length in Eps.
  destruct (pairwise_diff_numbers ([f1] ++ ps ++ [f0])) as [rs Hrs].
  - cbn [app length]. rewrite length_app. cbn [length]. lia.
  - exact Hnum.
  - change ([f1] ++ ps ++ [f0]) with (XR 1 :: ps ++ [XR 0]) in Hrs.
    rewrite Hrs. rewrite pairwise_diff_exact.
    assert (Hlen : length rs = S (S (length ps))).
    { apply (f_equal (@length xreal)) in Hrs. rewrite length_map in Hrs.
      rewrite <- Hrs. cbn [length]. rewrite length_app. cbn [length]. lia. }
    destruct rs as [|r0 rs]; [discriminate|].
    split.
    + rewrite length_map, Rdiffs_length. simpl in Hlen. lia.
    + rewrite py_sum_exact, Rsum_Rdiffs. f_equal.
      cbn [map] in Hrs. injection Hrs as <- Hrs.
      assert (Hlast : last (map XR rs) (XR 1) = XR 0).
      { rewrite <- Hrs. apply last_last. }
      assert (Hl : last rs 1%R = 0%R).
      { rewrite last_map_XR in Hlast. injection Hlast as ->. reflexivity. }
      rewrite Hl. lra.
Qed.
End ClassicalDamageFacts.

Lemma classical_damage_fractions_witness :
  exists poos,
    classical_damage (fun _ _ => true) linear_interp1d (fun _ _ x => x)
      (fun x => x) (fun x => x) (fun x => x) (fun x _ => x)
      (mkFragilityFunctionList
         [FragilityFunctionDiscrete 0 [XR 1] [XR 1] (Some (XR 5))] [XR 2] None)
      [XR 2] [XR 0] (XR 1) (XR 1)
    = Some poos /\
    length poos = 2%nat /\ py_sum poos = XR 1.
Proof.
  assert (Hrun : exists a b,
             classical_damage (fun _ _ => true) linear_interp1d (fun _ _ x => x)
               (fun x => x) (fun x => x) (fun x => x) (fun x _ => x)
               (mkFragilityFunctionList
                  [FragilityFunctionDiscrete 0 [XR 1] [XR 1] (Some (XR 5))]
                  [XR 2] None)
               [XR 2] [XR 0] (XR 1) (XR 1)
             = Some [XR a; XR b]).
  { unfold classical_damage, annual_frequency_of_exceedence, interpolated.
    cbn. unfold Exact.Rltb.
    repeat match goal with
           | |- context [Req_dec_T ?x ?y] => destruct (Req_dec_T x y); [lra|]
           | |- context [Rlt_dec ?x ?y] => destruct (Rlt_dec x y); [|lra]
           end.
    cbn.
    repeat match goal with
           | |- context [Req_dec_T ?x ?y] => destruct (Req_dec_T x y); [lra|]
           end.
    eexists _, _. reflexivity. }
  destruct Hrun as [a [b Hrun]].
  exists [XR a; XR b]. split; [exact Hrun|].
  apply (classical_damage_fractions _ _ _ _ _ _ _ _ _ _ _ _ _ Hrun).
  cbn [forallb]. rewrite !is_num_XR. reflexivity.
Defined.

Section ClassicalDamageShape.
Context {F : Type} `{PyFloat F}.
Variable interp1d_init : list F -> list F -> bool.
Variable interp1d : list F -> list F -> F -> option F.
Variable lognorm_cdf : F -> F -> F -> F.
Variables fsqrt flog fexp : F -> F.
Variable fpow : F -> F -> F.

(** X13.  Without interpolation the hazard curve is taken at the IMLs of the
    fragility functions as it is: [classical_damage] raises when there is a
    fragility function and the curve does not have one PoE for each IML. *)
Theorem classical_damage_shape
        (fragility_functions : FragilityFunctionList F)
        (hazard_imls hazard_poes : list F)
        (investigation_time risk_investigation_time : F) :
  interpolated fragility_functions = false ->
  elements fragility_functions <> [] ->
  length hazard_poes <> length (ffl_imls fragility_functions) ->
  classical_damage interp1d_init interp1d lognorm_cdf fsqrt flog fexp fpow
    fragility_functions hazard_imls hazard_poes
    investigation_time risk_investigation_time = None.
Proof.
  intros Hinterp Hne Hlen. unfold classical_damage. rewrite Hinterp.
  destruct (py_index _ 0) as [afe0|]; [|reflexivity].
  destruct (py_index _ (-1)) as [afe1|]; [|reflexivity].
  destruct (elements fragility_functions) as [|ff ffs]; [congruence|].
  cbn [map_raise].
  destruct (map_raise _ (ffl_imls fragility_functions)) as [values|] eqn:Ev;
    [|reflexivity].
  apply map_raise_length in Ev.
  unfold np_dot, pairwise_diff, pairwise_mean.
  rewrite length_map, pairwise_length, length_map, pairwise_length.
  cbn [app length]. rewrite length_app, length_map. cbn [length].
  destruct (Nat.eqb_spec (S (length hazard_poes + 1) - 1 - 1) (length values))
    as [E|E]; [lia|reflexivity].
Qed.
End ClassicalDamageShape.

Lemma classical_damage_shape_witness :
  classical_damage (fun _ _ => true) linear_interp1d (fun _ _ x => x)
    PrimFloat.sqrt (fun x => x) (fun x => x) (fun x _ => x)
    (mkFragilityFunctionList
       [FragilityFunctionContinuous 0 0.5%float 0.1%float] [0.1; 0.2]%float None)
    [0.1; 0.2; 0.3]%float [0.9; 0.5; 0.1]%float 50%float 50%float
  = None.
Proof.
  apply classical_damage_shape; [reflexivity|discriminate|cbn; lia].
Defined.

(** ** Loss maps *)

Section MapFacts.
Context {A B : Type}.
Variable g : A -> B.

Lemma py_index_map (l : list A) (i : Z) :
  py_index (map g l) i = option_map g (py_index l i).
Proof.
  unfold py_index. rewrite length_map.
  destruct (_ && _); [|reflexivity].
  rewrite nth_error_map. reflexivity.
Qed.

Lemma py_slice_map (l : list A) (a b : Z) :
  py_slice (map g l) a b = map g (py_slice l a b).
Proof.
  unfold py_slice. rewrite length_map, skipn_map, firstn_map. reflexivity.
Qed.

Lemma py_slice_from_map (l : list A) (a : Z) :
  py_slice_from (map g l) a = map g (py_slice_from l a).
Proof.
  unfold py_slice_from. rewrite length_map, skipn_map. reflexivity.
Qed.

Lemma unpack2_map (l : list A) :
  unpack2 (map g l)
  = option_map (fun p => (g (fst p), g (snd p))) (unpack2 l).
Proof. destruct l as [|x [|y [|z l]]]; reflexivity. Qed.
End MapFacts.

Lemma matching_losses_map (g : xreal -> xreal) (loss_ratios poes : list xreal)
      (probability : xreal) :
  matching_losses (map g loss_ratios) poes probability
  = option_map (map g) (matching_losses loss_ratios poes probability).
Proof.
  revert poes. induction loss_ratios as [|loss l IH]; intros poes; [reflexivity|].
  cbn [map matching_losses]. destruct poes as [|poe poes]; [reflexivity|].
  rewrite IH. destruct (matching_losses l poes probability); [|reflexivity].
  cbn [option_map]. destruct (feqb probability poe); reflexivity.
Qed.

Lemma scaled_max_step (a : R) (y m : xreal) :
  (0 <= a)%R ->
  (if fgtb (fmul y (XR a)) (fmul m (XR a)) then fmul y (XR a) else fmul m (XR a))
  = fmul (if fgtb y m then y else m) (XR a).
Proof.
  intros Ha. destruct y as [|y], m as [|m]; try reflexivity.
  cbn. unfold Exact.Rltb.
  destruct (Rlt_dec (m * a) (y * a)), (Rlt_dec m y); cbn; try reflexivity.
  - exfalso. apply Rnot_lt_le in n.
    pose proof (Rmult_le_compat_r a y m Ha n). lra.
  - f_equal. apply Rnot_lt_le in n.
    pose proof (Rmult_le_compat_r a m y Ha (Rlt_le _ _ r)). lra.
Qed.

Lemma py_max_scaled (a : R) (l : list xreal) :
  (0 <= a)%R ->
  py_max (map (fun r => fmul r (XR a)) l)
  = option_map (fun r => fmul r (XR a)) (py_max l).
Proof.
  intros Ha. destruct l as [|x l]; [reflexivity|].
  cbn [map py_max option_map]. f_equal.
  revert x. induction l as [|y l IH]; intros x; [reflexivity|].
  cbn [map fold_left]. rewrite scaled_max_step by exact Ha. apply IH.
Qed.

Lemma interpolate_between_scaled (a : R) (x1 x2 y1 y2 p : xreal) :
  interpolate_between x1 x2 (fmul y1 (XR a)) (fmul y2 (XR a)) p
  = fmul (interpolate_between x1 x2 y1 y2 p) (XR a).
Proof.
  unfold interpolate_between.
  destruct x1 as [|x1], x2 as [|x2], y1 as [|y1], y2 as [|y2], p as [|p];
    try reflexivity;
    cbn; destruct (Req_dec_T _ _); cbn; try reflexivity.
  f_equal. field. assumption.
Qed.

(** The conditional loss ratio of a curve whose loss ratios are scaled by a
    factor that is not negative is the conditional loss ratio of the curve,
    scaled. *)
Lemma conditional_loss_ratio_scaled (a : R) (loss_ratios poes : list xreal)
      (probability : xreal) :
  (0 <= a)%R ->
  conditional_loss_ratio (map (fun r => fmul r (XR a)) loss_ratios) poes probability
  = option_map (fun r => fmul r (XR a))
               (conditional_loss_ratio loss_ratios poes probability).
Proof.
  intros Ha. unfold conditional_loss_ratio, conditional_loss_ratio_with.
  destruct (py_index poes 0) as [poe_max|]; [|reflexivity].
  destruct (fgtb probability poe_max).
  { cbn. do 2 f_equal. lra. }
  destruct (py_index poes (-1)) as [poe_min|]; [|reflexivity].
  destruct (fltb probability poe_min); [apply py_index_map|].
  destruct (py_in probability poes).
  { rewrite matching_losses_map.
    destruct (matching_losses loss_ratios poes probability); [|reflexivity].
    cbn [option_map]. apply py_max_scaled. exact Ha. }
  destruct (_ =? length poes)%nat; [reflexivity|].
  destruct (_ =? 1)%nat.
  - destruct (unpack2 (py_slice_from poes (-2))) as [[x1 x2]|]; [|reflexivity].
    rewrite py_slice_from_map, unpack2_map.
    destruct (unpack2 (py_slice_from loss_ratios (-2))) as [[y1 y2]|]; [|reflexivity].
    cbn [option_map fst snd]. f_equal. apply interpolate_between_scaled.
  - destruct (unpack2 (py_slice poes _ _)) as [[x1 x2]|]; [|reflexivity].
    rewrite py_slice_map, unpack2_map.
    destruct (unpack2 (py_slice loss_ratios _ _)) as [[y1 y2]|]; [|reflexivity].
    cbn [option_map fst snd]. f_equal. apply interpolate_between_scaled.
Qed.

Lemma map_raise_option_map {A B C : Type} (f : A -> option C) (g : A -> option B)
      (h : B -> C) (l : list A) :
  (forall x, f x = option_map h (g x)) ->
  map_raise f l = option_map (map h) (map_raise g l).
Proof.
  intros Hf. induction l as [|x l IH]; [reflexivity|].
  cbn [map_raise]. rewrite Hf, IH.
  destruct (g x); [|reflexivity]. cbn [option_map].
  destruct (map_raise g l); reflexivity.
Qed.

Lemma map_raise_rows {A B C : Type} (k : A -> B -> option C) (cs : list B)
      (ps : list A) (m : list (list C)) :
  map_raise (fun p => map_raise (k p) cs) ps = Some m ->
  length m = length ps /\ rectangular (length cs) m = true.
Proof.
  revert m. induction ps as [|p ps IH]; intros m; cbn [map_raise].
  - intros [= <-]. split; reflexivity.
  - destruct (map_raise (k p) cs) as [row|] eqn:Erow; [|discriminate].
    destruct (map_raise _ ps) as [rows|]; [|discriminate].
    intros [= <-]. destruct (IH rows eq_refl) as [Hlen Hrect].
    apply map_raise_length in Erow. split; [simpl; lia|].
    unfold rectangular in *. cbn [forallb]. rewrite Hrect, Erow, Nat.eqb_refl.
    reflexivity.
Qed.

Lemma scaled_curves_row (asset_values : list R) (ratios : list xreal)
      (poe_matrix : list (list xreal)) (poe : xreal) :
  Forall (fun a => (0 <= a)%R) asset_values ->
  length asset_values = length poe_matrix ->
  map_raise (fun curve => conditional_loss_ratio (fst curve) (snd curve) poe)
    (map (fun '(avalue, poes) =>
            (map (fun ratio => fmul ratio avalue) ratios, poes))
         (combine (map XR asset_values) poe_matrix))
  = option_map
      (fun row => map (fun '(a, r) => fmul r (XR a)) (combine asset_values row))
      (map_raise (fun curve => conditional_loss_ratio (fst curve) (snd curve) poe)
         (map (fun poes => (ratios, poes)) poe_matrix)).
Proof.
  intros Hpos. revert poe_matrix.
  induction Hpos as [|a avs Ha _ IH]; intros [|poes poe_matrix] Hlen;
    try discriminate; [reflexivity|].
  cbn [map combine map_raise fst snd].
  rewrite conditional_loss_ratio_scaled by exact Ha.
  rewrite IH by (simpl in Hlen; lia).
  destruct (conditional_loss_ratio ratios poes poe); [|reflexivity].
  cbn [option_map]. destruct (map_raise _ _); reflexivity.
Qed.

Lemma transpose_scaled (asset_values : list R) (m : list (list xreal)) :
  m <> [] -> rectangular (length asset_values) m = true ->
  transpose (map (fun row => map (fun '(a, r) => fmul r (XR a))
                                 (combine asset_values row)) m)
  = map (fun '(a, column) => map (fun r => fmul r (XR a)) column)
        (combine asset_values (transpose m)).
Proof.
  intros Hm Hrect. set (n := length asset_values) in *.
  rewrite (transpose_columns XNaN n m Hm Hrect).
  rewrite (transpose_columns XNaN n).
  - assert (Hc : forall column : nat -> list xreal,
               combine asset_values (map column (seq 0 n))
               = map (fun j => (nth j asset_values 0%R, column j)) (seq 0 n)).
    { intros column. rewrite (list_as_nth_seq 0%R asset_values) at 1. fold n.
      apply combine_map_map. }
    rewrite Hc, map_map.
    apply map_ext_in. intros j Hj. apply in_seq in Hj.
    rewrite !map_map. apply map_ext_in. intros row Hrow.
    assert (Hlen : length row = n) by (eapply rectangular_In; eauto).
    rewrite (nth_map_in _ _ _ (0%R, XNaN))
      by (rewrite length_combine; fold n; lia).
    rewrite combine_nth by (fold n; lia). reflexivity.
  - destruct m; [congruence|discriminate].
  - unfold rectangular. apply forallb_forall. intros scaled Hin.
    apply in_map_iff in Hin. destruct Hin as [row [<- Hrow]].
    assert (Hlen : length row = n) by (eapply rectangular_In; eauto).
    rewrite length_map, length_combine. fold n. apply Nat.eqb_eq. lia.
Qed.

(** X14.  In exact arithmetic, for asset values that are not negative, the loss
    maps of [calc_loss_maps] are the asset values times the conditional
    loss ratios of the curves: scaling the loss ratios of a curve scales
    its loss map. *)
Theorem calc_loss_maps_scaled (conditional_loss_poes : list xreal)
        (asset_values : list R) (ratios : list xreal)
        (poe_matrix : list (list xreal)) :
  Forall (fun a => (0 <= a)%R) asset_values ->
  length asset_values = length poe_matrix ->
  conditional_loss_poes <> [] ->
  calc_loss_maps conditional_loss_poes (map XR asset_values) ratios poe_matrix
  = option_map
      (fun matrix =>
         map (fun '(a, column) => map (fun r => fmul r (XR a)) column)
             (combine asset_values (transpose matrix)))
      (loss_map_matrix conditional_loss_poes
                       (map (fun poes => (ratios, poes)) poe_matrix)).
Proof.
  intros Hpos Hlen Hne. unfold calc_loss_maps, loss_map_matrix.
  rewrite (map_raise_option_map _
             (fun poe => map_raise
                (fun curve => conditional_loss_ratio (fst curve) (snd curve) poe)
                (map (fun poes => (ratios, poes)) poe_matrix))
             (fun row => map (fun '(a, r) => fmul r (XR a))
                             (combine asset_values row)))
    by (intros poe; apply scaled_curves_row; assumption).
  destruct (map_raise _ conditional_loss_poes) as [m|] eqn:Em; [|reflexivity].
  cbn [option_map]. f_equal.
  destruct (map_raise_rows _ _ _ _ Em) as [Hrows Hrect].
  rewrite length_map, <- Hlen in Hrect.
  destruct conditional_loss_poes as [|poe ps]; [congruence|].
  apply transpose_scaled; [|exact Hrect].
  destruct m; [discriminate|discriminate].
Qed.

Lemma calc_loss_maps_scaled_witness :
  calc_loss_maps [XR (1 / 2)] (map XR [100; 200]%R) [XR 0; XR 1]
                 [[XR 1; XR (1 / 2)]; [XR 1; XR 0]]
  = option_map
      (fun matrix =>
         map (fun '(a, column) => map (fun r => fmul r (XR a)) column)
             (combine [100; 200]%R (transpose matrix)))
      (loss_map_matrix [XR (1 / 2)]
         (map (fun poes => ([XR 0; XR 1], poes))
              [[XR 1; XR (1 / 2)]; [XR 1; XR 0]])).
Proof.
  apply calc_loss_maps_scaled; [|reflexivity|discriminate].
  repeat constructor; lra.
Defined.

(** ** The data of a vulnerability function *)

Section CheckFacts.
Context {F : Type} `{PyFloatOrder F}.

(** X15.  The constructor's check accepts the data exactly when the IMLs ascend
    strictly, the IMLs, the loss ratios and the covs are numbers that are
    not negative, there is a loss ratio and a cov for each IML, and the
    distribution is named ["LN"] or ["BT"]. *)
Theorem check_vulnerability_data_accepts (imls loss_ratios covs : list F)
        (distribution : string) :
  _check_vulnerability_data imls loss_ratios (Some covs) distribution = true <->
  strictly_ascending imls = true /\
  forallb (fun x => fgeb x f0) imls = true /\
  length covs = length imls /\
  length loss_ratios = length imls /\
  forallb (fun x => fgeb x f0) loss_ratios = true /\
  forallb (fun x => fgeb x f0) covs = true /\
  (distribution = "LN"%string \/ distribution = "BT"%string).
Proof.
  unfold _check_vulnerability_data.
  rewrite !andb_true_iff, orb_true_iff, !Nat.eqb_eq, !String.eqb_eq.
  split.
  - intros [[[[[[Hsorted Himls] Hlc] Hll] Hlr] Hcovs] Hname].
    repeat split; try assumption.
    apply sorted_set_ascending; [apply nonnegative_is_num|]; assumption.
  - intros [Hasc [Himls [Hlc [Hll [Hlr [Hcovs Hname]]]]]].
    repeat split; try assumption.
    apply ascending_sorted_set; [apply nonnegative_is_num|]; assumption.
Qed.
End CheckFacts.

Lemma check_vulnerability_data_accepts_witness :
  _check_vulnerability_data example_imls example_mean_loss_ratios
                            (Some example_covs) "LN" = true <->
  strictly_ascending example_imls = true /\
  forallb (fun x => fgeb x f0) example_imls = true /\
  length example_covs = length example_imls /\
  length example_mean_loss_ratios = length example_imls /\
  forallb (fun x => fgeb x f0) example_mean_loss_ratios = true /\
  forallb (fun x => fgeb x f0) example_covs = true /\
  ("LN"%string = "LN"%string \/ "LN"%string = "BT"%string).
Proof.
  exact (check_vulnerability_data_accepts example_imls example_mean_loss_ratios
           example_covs "LN").
Defined.

(** Levels that do not ascend, and a level that occurs twice. *)
Example check_vulnerability_data_unsorted :
  _check_vulnerability_data [0.2; 0.1]%float [0.5; 0.6]%float
                            (Some [0; 0]%float) "LN" = false.
Proof. vm_compute. reflexivity. Qed.

Example check_vulnerability_data_duplicate :
  _check_vulnerability_data [0.1; 0.1]%float [0.5; 0.6]%float
                            (Some [0; 0]%float) "LN" = false.
Proof. vm_compute. reflexivity. Qed.

(** ** Vulnerability functions with a probability mass function *)

Section PMFFacts.
Context {F : Type} `{PyFloat F}.

(** X16.  The check of a function with a probability mass function never looks
    at the probabilities: two arrays of one shape pass or fail together,
    whatever they hold. *)
Theorem pmf_check_ignores_probabilities (imls loss_ratios : list F)
        (probs probs' : list (list F)) :
  map (@length F) probs = map (@length F) probs' ->
  VulnerabilityFunctionWithPMF_check_vulnerability_data imls loss_ratios probs
  = VulnerabilityFunctionWithPMF_check_vulnerability_data imls loss_ratios probs'.
Proof.
  intros Hshape. unfold VulnerabilityFunctionWithPMF_check_vulnerability_data.
  assert (Hlen : length probs = length probs').
  { apply (f_equal (@length nat)) in Hshape. rewrite !length_map in Hshape.
    exact Hshape. }
  assert (Hwidth : shape1 probs = shape1 probs').
  { destruct probs as [|row rest], probs' as [|row' rest']; try discriminate;
      [reflexivity|].
    cbn [map] in Hshape. injection Hshape as Hrow Hrest.
    unfold shape1. rewrite Hrow.
    replace (forallb (fun other => (length other =? length row')%nat) rest)
      with (forallb (fun other => (length other =? length row')%nat) rest');
      [reflexivity|].
    clear Hlen Hrow. revert rest' Hrest.
    induction rest as [|r rest IH]; intros [|r' rest'] Hrest;
      try discriminate; [reflexivity|].
    cbn [map] in Hrest. injection Hrest as Hr Hrest.
    cbn [forallb]. rewrite Hr, (IH rest' Hrest). reflexivity. }
  assert (Hrows : forallb (fun y => py_bool (map (fun x => fgeb f1 x && fgeb x f0) y))
                          probs
                  = forallb (fun y => py_bool (map (fun x => fgeb f1 x && fgeb x f0) y))
                            probs').
  { clear Hlen Hwidth. revert probs' Hshape.
    induction probs as [|row probs IH]; intros [|row' probs'] Hshape;
      try discriminate; [reflexivity|].
    cbn [map] in Hshape. injection Hshape as Hrow Hshape.
    cbn [forallb]. rewrite (IH probs' Hshape). f_equal.
    destruct row, row'; try discriminate; reflexivity. }
  rewrite Hrows, Hlen, Hwidth. reflexivity.
Qed.
End PMFFacts.

Lemma pmf_check_ignores_probabilities_witness :
  VulnerabilityFunctionWithPMF_check_vulnerability_data
    [0.1; 0.2]%float [0.5]%float [[0.3; 0.7]]%float
  = VulnerabilityFunctionWithPMF_check_vulnerability_data
      [0.1; 0.2]%float [0.5]%float [[2; -3]]%float.
Proof.
  apply pmf_check_ignores_probabilities. reflexivity.
Defined.

(** Probabilities of 2 and -3 pass the check. *)
Example pmf_check_accepts_any_probability :
  VulnerabilityFunctionWithPMF_check_vulnerability_data
    [0.1; 0.2]%float [0.5]%float [[2; -3]]%float = true.
Proof. vm_compute. reflexivity. Qed.

(** ** The counts of the curve builder *)

Section CurveBuilderFacts.
Context {F : Type} `{PyFloatOrder F}.

Lemma filter_length_impl {A : Type} (p q : A -> bool) (l : list A) :
  (forall x, p x = true -> q x = true) ->
  (length (filter p l) <= length (filter q l))%nat.
Proof.
  intros Himpl. induction l as [|x l IH]; [reflexivity|].
  cbn [filter]. destruct (p x) eqn:Ep.
  - rewrite (Himpl x Ep). cbn [length]. lia.
  - destruct (q x); cbn [length]; lia.
Qed.

Lemma uint32_small (n : Z) : (0 <= n < 2 ^ 32)%Z -> uint32 n = n.
Proof. intros Hn. unfold uint32. apply Z.mod_small. exact Hn. Qed.

(** X17.  On a builder whose curve resolution is the number of its ratios, as
    the constructor sets it, [build_counts] returns for each asset a count
    for each ratio: the number of the asset's loss ratios that reach the
    ratio.  On ratios that do not decrease the counts do not grow, and no
    count exceeds the number of loss ratios. *)
Theorem build_counts_monotone (self : CurveBuilder F)
        (loss_matrix : list (list F)) (i : nat) (loss_ratios : list F) :
  curve_resolution self = length (ratios self) ->
  nth_error loss_matrix i = Some loss_ratios ->
  (Z.of_nat (length loss_ratios) < 2 ^ 32)%Z ->
  non_decreasing (ratios self) = true ->
  exists matrix counts,
    build_counts self loss_matrix = Some matrix /\
    length matrix = length loss_matrix /\
    nth_error matrix i = Some counts /\
    length counts = length (ratios self) /\
    Zchain_ge counts = true /\
    Forall (fun count => (0 <= count <= Z.of_nat (length loss_ratios))%Z) counts.
Proof.
  intros Hresolution Hrow Hsmall Hmono. unfold build_counts.
  rewrite (map_raise_all _
             (fun loss_ratios =>
                map (fun ratio =>
                       uint32 (Z.of_nat (length (filter (fun x => fgeb x ratio)
                                                        loss_ratios))))
                    (ratios self))).
  2:{ intros row _. cbv zeta. rewrite length_map, Hresolution, Nat.eqb_refl.
      reflexivity. }
  do 2 eexists. split; [reflexivity|]. split; [apply length_map|].
  split; [rewrite nth_error_map, Hrow; reflexivity|].
  assert (Hcount : forall ratio,
             uint32 (Z.of_nat (length (filter (fun x => fgeb x ratio) loss_ratios)))
             = Z.of_nat (length (filter (fun x => fgeb x ratio) loss_ratios))).
  { intros ratio. apply uint32_small.
    pose proof (filter_length_le (fun x => fgeb x ratio) loss_ratios). lia. }
  split; [apply length_map|]. split.
  - unfold non_decreasing in Hmono. clear Hresolution.
    induction (ratios self) as [|r rs IH]; [reflexivity|].
    destruct rs as [|r' rs]; [reflexivity|].
    change (chain fleb (r :: r' :: rs))
      with (fleb r r' && chain fleb (r' :: rs)) in Hmono.
    apply andb_true_iff in Hmono. destruct Hmono as [Hrr Hmono].
    cbn [map Zchain_ge]. apply andb_true_iff. split; [|apply IH; exact Hmono].
    rewrite !Hcount. apply Z.leb_le. apply inj_le.
    apply filter_length_impl. intros x Hx. unfold fgeb in *.
    eapply fleb_trans; eauto.
  - apply Forall_forall. intros count Hin. apply in_map_iff in Hin.
    destruct Hin as [ratio [<- _]]. rewrite Hcount.
    pose proof (filter_length_le (fun x => fgeb x ratio) loss_ratios). lia.
Qed.
End CurveBuilderFacts.

Lemma build_counts_monotone_witness :
  exists matrix counts,
    build_counts example_curve_builder [[0.05; 0.2; 0.3; 1]]%float = Some matrix /\
    nth_error matrix 0 = Some counts /\
    Zchain_ge counts = true.
Proof.
  assert (Hmono : non_decreasing (ratios example_curve_builder) = true)
    by (vm_compute; reflexivity).
  destruct (build_counts_monotone example_curve_builder
              [[0.05; 0.2; 0.3; 1]]%float 0 [0.05; 0.2; 0.3; 1]%float
              eq_refl eq_refl ltac:(cbn; lia) Hmono)
    as [matrix [counts [Hrun [_ [Hnth [_ [Hchain _]]]]]]].
  exists matrix, counts. auto.
Defined.

(** ** Discrete fragility functions *)

Section FragilityFacts.
Context {F : Type} `{PyFloatOrder F}.
Variable interp1d : list F -> list F -> F -> option F.
Variable lognorm_cdf : F -> F -> F -> F.
Variables fsqrt flog : F -> F.
Variable fpow : F -> F -> F.

(** X18.  A discrete fragility function saturates: above its highest IML it
    returns what it returns at the highest IML, when its no-damage limit,
    if it has one, is not above that IML. *)
Theorem fragility_function_saturates (limit_state : nat) (imls poes : list F)
        (no_damage_limit : option F) (highest iml : F) :
  py_index imls (-1) = Some highest ->
  fgtb iml highest = true ->
  match no_damage_limit with
  | Some limit => fleb limit highest = true
  | None => True
  end ->
  let ff := FragilityFunctionDiscrete limit_state imls poes no_damage_limit in
  FragilityFunction_call interp1d lognorm_cdf fsqrt flog fpow ff iml
  = FragilityFunction_call interp1d lognorm_cdf fsqrt flog fpow ff highest.
Proof.
  intros Hhigh Hgt Hlimit ff. unfold ff, FragilityFunction_call.
  rewrite Hhigh, Hgt. unfold fgtb in *. rewrite fltb_irrefl.
  destruct no_damage_limit as [limit|]; [|reflexivity].
  rewrite (fleb_fltb_false _ _ Hlimit).
  assert (Hlt : fltb limit iml = true) by (eapply fleb_fltb_trans; eauto).
  rewrite (fltb_asym _ _ Hlt). reflexivity.
Qed.
End FragilityFacts.

Lemma fragility_function_saturates_witness :
  FragilityFunction_call linear_interp1d (fun _ _ x => x) PrimFloat.sqrt
    (fun x => x) (fun x _ => x)
    (FragilityFunctionDiscrete 0 [0.1; 0.2]%float [0.3; 0.6]%float (Some 0.05%float))
    5%float
  = FragilityFunction_call linear_interp1d (fun _ _ x => x) PrimFloat.sqrt
      (fun x => x) (fun x _ => x)
      (FragilityFunctionDiscrete 0 [0.1; 0.2]%float [0.3; 0.6]%float (Some 0.05%float))
      0.2%float.
Proof.
  assert (Hgt : fgtb 5%float 0.2%float = true) by (vm_compute; reflexivity).
  assert (Hlimit : fleb 0.05%float 0.2%float = true) by (vm_compute; reflexivity).
  exact (fragility_function_saturates linear_interp1d (fun _ _ x => x)
           PrimFloat.sqrt (fun x => x) (fun x _ => x) 0
           [0.1; 0.2]%float [0.3; 0.6]%float (Some 0.05%float) 0.2%float 5%float
           eq_refl Hgt Hlimit).
Defined.

(** ** A row of losses *)

Section ScatterFacts.
Context {A : Type}.

Lemma list_update_length (l : list A) (i : nat) (x : A) :
  length (list_update l i x) = length l.
Proof.
  revert i. induction l as [|y l IH]; intros [|i]; cbn; auto.
Qed.

Lemma list_update_other (l : list A) (i j : nat) (x : A) :
  i <> j -> nth_error (list_update l i x) j = nth_error l j.
Proof.
  revert i j. induction l as [|y l IH]; intros [|i] [|j] Hij; cbn; auto.
  congruence.
Qed.

Lemma list_update_same (l : list A) (i : nat) (x : A) :
  (i < length l)%nat -> nth_error (list_update l i x) i = Some x.
Proof.
  revert i. induction l as [|y l IH]; intros [|i] Hi; cbn in *; try lia; auto.
  apply IH. lia.
Qed.

Lemma fold_update_length (updates : list (nat * A)) (l : list A) :
  length (fold_left (fun acc '(i, x) => list_update acc i x) updates l)
  = length l.
Proof.
  revert l. induction updates as [|[i x] updates IH]; intros l; [reflexivity|].
  cbn [fold_left]. rewrite IH. apply list_update_length.
Qed.

Lemma fold_update_other (updates : list (nat * A)) (l : list A) (j : nat) :
  ~ In j (map fst updates) ->
  nth_error (fold_left (fun acc '(i, x) => list_update acc i x) updates l) j
  = nth_error l j.
Proof.
  revert l. induction updates as [|[i x] updates IH]; intros l Hj; [reflexivity|].
  cbn [fold_left]. rewrite IH by (intros Hin; apply Hj; right; exact Hin).
  apply list_update_other. intros ->. apply Hj. left. reflexivity.
Qed.

Lemma fold_update_hit (updates : list (nat * A)) (l : list A) (k i : nat) (x : A) :
  NoDup (map fst updates) ->
  (forall j, In j (map fst updates) -> (j < length l)%nat) ->
  nth_error updates k = Some (i, x) ->
  nth_error (fold_left (fun acc '(i, x) => list_update acc i x) updates l) i
  = Some x.
Proof.
  revert l k. induction updates as [|[i0 x0] updates IH]; intros l k Hnd Hlt Hk.
  - destruct k; discriminate.
  - cbn [map fst] in Hnd. inversion Hnd as [|? ? Hnotin Hnd']; subst.
    cbn [fold_left]. destruct k as [|k].
    + injection Hk as -> ->. rewrite fold_update_other by exact Hnotin.
      apply list_update_same. apply Hlt. left. reflexivity.
    + apply (IH _ k); [exact Hnd'| |exact Hk].
      intros j Hj. rewrite list_update_length. apply Hlt. right. exact Hj.
Qed.
End ScatterFacts.

Section WhereFacts.
Context {F : Type} `{PyFloat F}.

Lemma combine_seq_In {A : Type} (xs : list A) (start j : nat) (x : A) :
  In (j, x) (combine (seq start (length xs)) xs) <->
  (start <= j)%nat /\ nth_error xs (j - start) = Some x.
Proof.
  revert start. induction xs as [|y xs IH]; intros start; cbn [length seq combine].
  - split; [intros []|]. intros [_ Hn]. destruct (j - start)%nat; discriminate.
  - split.
    + intros [[= <- <-]|Hin].
      * rewrite Nat.sub_diag. auto.
      * apply IH in Hin. destruct Hin as [Hle Hn]. split; [lia|].
        replace (j - start)%nat with (S (j - S start)) by lia. exact Hn.
    + intros [Hle Hn]. destruct (Nat.eq_dec j start) as [->|Hneq].
      * rewrite Nat.sub_diag in Hn. injection Hn as ->. left. reflexivity.
      * right. apply IH. split; [lia|].
        replace (j - start)%nat with (S (j - S start)) in Hn by lia. exact Hn.
Qed.

Lemma np_where_In (cond : F -> bool) (xs : list F) (j : nat) :
  In j (np_where cond xs) <->
  exists x, nth_error xs j = Some x /\ cond x = true.
Proof.
  unfold np_where. rewrite in_map_iff. split.
  - intros [[i x] [Hi Hin]]. cbn [fst] in Hi. subst i.
    apply filter_In in Hin. destruct Hin as [Hin Hc].
    apply combine_seq_In in Hin. rewrite Nat.sub_0_r in Hin.
    exists x. tauto.
  - intros [x [Hn Hc]]. exists (j, x). split; [reflexivity|].
    apply filter_In. split; [|exact Hc].
    apply combine_seq_In. rewrite Nat.sub_0_r. split; [lia|exact Hn].
Qed.

Lemma NoDup_map_fst_filter {A B : Type} (p : A * B -> bool) (l : list (A * B)) :
  NoDup (map fst l) -> NoDup (map fst (filter p l)).
Proof.
  induction l as [|[a b] l IH]; intros Hnd; [constructor|].
  cbn [map fst] in Hnd. inversion Hnd as [|? ? Hnotin Hnd']; subst.
  cbn [filter]. destruct (p (a, b)); [|apply IH; exact Hnd'].
  cbn [map fst]. constructor; [|apply IH; exact Hnd'].
  intros Hin. apply Hnotin. apply in_map_iff in Hin.
  destruct Hin as [[a' b'] [Ha Hin]]. cbn [fst] in Ha. subst a'.
  apply filter_In in Hin. apply in_map_iff. exists (a, b'). tauto.
Qed.

Lemma np_where_NoDup (cond : F -> bool) (xs : list F) :
  NoDup (np_where cond xs).
Proof.
  unfold np_where. apply NoDup_map_fst_filter.
  rewrite map_fst_combine by (rewrite length_seq; reflexivity).
  apply seq_NoDup.
Qed.

Lemma scatter_length (ret : list F) (idxs : list nat) (samples out : list F) :
  scatter ret idxs samples = Some out -> length out = length ret.
Proof.
  unfold scatter. destruct (_ =? _)%nat; [|discriminate].
  intros [= <-]. apply fold_update_length.
Qed.

Lemma scatter_miss (ret : list F) (idxs : list nat) (samples out : list F) (j : nat) :
  scatter ret idxs samples = Some out -> ~ In j idxs ->
  nth_error out j = nth_error ret j.
Proof.
  unfold scatter. destruct (Nat.eqb_spec (length idxs) (length samples)) as [E|];
    [|discriminate].
  intros [= <-] Hj. apply fold_update_other.
  rewrite map_fst_combine by exact E. exact Hj.
Qed.

Lemma scatter_hit (ret : list F) (idxs : list nat) (samples out : list F)
      (k i : nat) (x : F) :
  scatter ret idxs samples = Some out -> NoDup idxs ->
  (forall j, In j idxs -> (j < length ret)%nat) ->
  nth_error idxs k = Some i -> nth_error samples k = Some x ->
  nth_error out i = Some x.
Proof.
  unfold scatter. destruct (Nat.eqb_spec (length idxs) (length samples)) as [E|];
    [|discriminate].
  intros [= <-] Hnd Hlt Hi Hx.
  assert (Hfst : map fst (combine idxs samples) = idxs).
  { apply map_fst_combine. exact E. }
  apply (fold_update_hit _ _ k); rewrite ?Hfst; auto.
  clear - Hi Hx. revert k samples Hi Hx.
  induction idxs as [|i0 idxs IH]; intros [|k] [|x0 samples] Hi Hx;
    try discriminate; cbn in *.
  - congruence.
  - apply IH; assumption.
Qed.
End WhereFacts.

Section ApplyRowFacts.
Context {F RNG : Type} `{PyFloatOrder F}.
Variable interp1d : list F -> list F -> F -> option F.
Variables fsqrt flog fexp : F -> F.
Variable fpow : F -> F -> F.
Variable random_beta : RNG -> list F -> list F -> list F * RNG.

Local Abbreviation sample_ := (sample (RNG := RNG) fsqrt flog fexp fpow random_beta).
Local Abbreviation apply_row :=
  (VulnerabilityFunction_apply (RNG := RNG) interp1d fsqrt flog fexp fpow random_beta).

(** What a call of [_apply] that returns has gone through. *)
Lemma apply_row_returns (s s' : Store F RNG) (self : nat)
      (vf : VulnerabilityFunction F) (gmvs losses : list F) :
  nth_error (functions s) self = Some vf ->
  apply_row self gmvs s = (Some losses, s') ->
  exists highest lowest means covs' d samples,
    py_index (imls vf) (-1) = Some highest /\
    py_index (imls vf) 0 = Some lowest /\
    let imls_curve := clip_above highest gmvs in
    let idxs := np_where (fun x => fgeb x lowest) imls_curve in
    let selected := map (fun i => nth i imls_curve fnan) idxs in
    map_raise (interp1d (imls vf) (mean_loss_ratios vf)) selected = Some means /\
    map_raise (interp1d (imls vf) (covs vf)) (clip_both lowest highest selected)
    = Some covs' /\
    distribution vf = Some d /\
    sample_ d means covs'
            (map (fun '(cov, iml) => fmul cov iml) (combine covs' selected))
            idxs s = (Some samples, s') /\
    scatter (repeat f0 (length gmvs)) idxs samples = Some losses.
Proof.
  intros Hvf. unfold VulnerabilityFunction_apply.
  rewrite bind_get_function, Hvf, bind_lift.
  destruct (py_index (imls vf) (-1)) as [highest|]; [|discriminate].
  rewrite bind_lift.
  destruct (py_index (imls vf) 0) as [lowest|]; [|discriminate].
  rewrite bind_lift.
  destruct (map_raise (interp1d (imls vf) (mean_loss_ratios vf)) _) as [means|]
    eqn:Emeans; [|discriminate].
  rewrite bind_lift.
  destruct (map_raise (interp1d (imls vf) (covs vf)) _) as [covs'|] eqn:Ecovs;
    [|discriminate].
  rewrite bind_lift.
  destruct (distribution vf) as [d|]; [|discriminate].
  rewrite bind_run.
  destruct (sample_ d means covs' _ _ s) as [[samples|] s1] eqn:Esample;
    [|discriminate].
  unfold lift. destruct (scatter _ _ samples) as [out|] eqn:Escatter;
    [|discriminate].
  cbn [ret]. intros [= <- <-].
  exists highest, lowest, means, covs', d, samples. cbv zeta.
  repeat split; try reflexivity; assumption.
Qed.

(** X19.  A row of losses has a loss for each ground-motion value, and the loss
    is zero where the value is below the lowest IML of the function. *)
Theorem apply_below_lowest_iml (s s' : Store F RNG) (self : nat)
        (vf : VulnerabilityFunction F) (gmvs losses : list F) :
  nth_error (functions s) self = Some vf ->
  apply_row self gmvs s = (Some losses, s') ->
  length losses = length gmvs /\
  forall (j : nat) (gmv lowest highest : F),
    nth_error gmvs j = Some gmv ->
    py_index (imls vf) 0 = Some lowest ->
    py_index (imls vf) (-1) = Some highest ->
    fleb lowest highest = true ->
    fltb gmv lowest = true ->
    nth_error losses j = Some f0.
Proof.
  intros Hvf Hrun.
  destruct (apply_row_returns s s' self vf gmvs losses Hvf Hrun)
    as [highest [lowest [means [covs' [d [samples
          [Hhigh [Hlow [_ [_ [_ [_ Hscatter]]]]]]]]]]]].
  split.
  - rewrite (scatter_length _ _ _ _ Hscatter). apply repeat_length.
  - intros j gmv lowest' highest' Hj Hlow' Hhigh' Hle Hlt.
    rewrite Hlow in Hlow'. injection Hlow' as <-.
    rewrite Hhigh in Hhigh'. injection Hhigh' as <-.
    rewrite (scatter_miss _ _ _ _ j Hscatter).
    + apply nth_error_repeat. apply nth_error_Some. congruence.
    + intros Hin. apply np_where_In in Hin. destruct Hin as [x [Hx Hc]].
      unfold clip_above in Hx. rewrite nth_error_map, Hj in Hx.
      cbn [option_map] in Hx. injection Hx as <-.
      unfold fgtb, fgeb in Hc.
      destruct (fltb highest gmv) eqn:Ehigh.
      * pose proof (fltb_trans _ _ _ Ehigh Hlt) as Hhl.
        rewrite (fleb_fltb_false _ _ Hle) in Hhl. discriminate.
      * rewrite (fleb_fltb_false _ _ Hc) in Hlt. discriminate.
Qed.

(** X20.  On a function with the degenerate distribution [_apply] leaves the
    store as it is, and the loss at a ground-motion value that reaches the
    lowest IML is the mean loss ratio that the interpolator gives at the
    value, or at the highest IML for a value above it. *)
Theorem apply_degenerate (s s' : Store F RNG) (self d : nat)
        (vf : VulnerabilityFunction F) (dist : Distribution F)
        (gmvs losses : list F) :
  nth_error (functions s) self = Some vf ->
  distribution vf = Some d ->
  nth_error (distributions s) d = Some dist ->
  dist_class dist = DegenerateDistribution ->
  apply_row self gmvs s = (Some losses, s') ->
  s' = s /\
  forall (j : nat) (gmv lowest highest : F),
    nth_error gmvs j = Some gmv ->
    py_index (imls vf) 0 = Some lowest ->
    py_index (imls vf) (-1) = Some highest ->
    let iml := if fgtb gmv highest then highest else gmv in
    fgeb iml lowest = true ->
    exists mean,
      interp1d (imls vf) (mean_loss_ratios vf) iml = Some mean /\
      nth_error losses j = Some mean.
Proof.
  intros Hvf Hd Hdist Hclass Hrun.
  destruct (apply_row_returns s s' self vf gmvs losses Hvf Hrun)
    as [highest [lowest [means [covs' [d' [samples
          [Hhigh [Hlow [Hmeans [_ [Hd' [Hsample Hscatter]]]]]]]]]]]].
  rewrite Hd in Hd'. injection Hd' as <-.
  unfold sample in Hsample. rewrite bind_run in Hsample.
  unfold get_distribution in Hsample. rewrite Hdist, Hclass in Hsample.
  cbn [ret] in Hsample. injection Hsample as <- <-.
  split; [reflexivity|].
  intros j gmv lowest' highest' Hj Hlow' Hhigh' iml Hreach.
  rewrite Hlow in Hlow'. injection Hlow' as <-.
  rewrite Hhigh in Hhigh'. injection Hhigh' as <-.
  set (imls_curve := clip_above highest gmvs) in *.
  set (idxs := np_where (fun x => fgeb x lowest) imls_curve) in *.
  assert (Hcurve : nth_error imls_curve j = Some iml).
  { unfold imls_curve, clip_above. rewrite nth_error_map, Hj. reflexivity. }
  assert (Hin : In j idxs).
  { apply np_where_In. exists iml. auto. }
  apply In_nth_error in Hin. destruct Hin as [k Hk].
  assert (Hsel : nth_error (map (fun i => nth i imls_curve fnan) idxs) k = Some iml).
  { rewrite nth_error_map, Hk. cbn [option_map]. f_equal.
    apply nth_error_nth. exact Hcurve. }
  assert (Hmean : exists mean,
             nth_error means k = Some mean /\
             interp1d (imls vf) (mean_loss_ratios vf) iml = Some mean).
  { clear - Hmeans Hsel. revert k means Hmeans Hsel.
    induction (map (fun i => nth i imls_curve fnan) idxs) as [|x xs IH];
      intros k means Hmeans Hsel; [destruct k; discriminate|].
    cbn [map_raise] in Hmeans.
    destruct (interp1d _ _ x) as [y|] eqn:Ey; [|discriminate].
    destruct (map_raise _ xs) as [ys|]; [|discriminate].
    injection Hmeans as <-. destruct k as [|k].
    - injection Hsel as ->. exists y. auto.
    - apply (IH k ys eq_refl Hsel). }
  destruct Hmean as [mean [Hmean Hinterp]].
  exists mean. split; [exact Hinterp|].
  apply (scatter_hit _ _ _ _ k j mean Hscatter); auto.
  - apply np_where_NoDup.
  - intros i Hi. apply np_where_In in Hi. destruct Hi as [x [Hx _]].
    rewrite repeat_length.
    assert (Hlt : (i < length imls_curve)%nat)
      by (apply nth_error_Some; congruence).
    unfold imls_curve, clip_above in Hlt. rewrite length_map in Hlt. exact Hlt.
Qed.

(** X21.  A lognormal distribution that no epsilons were given to cannot be
    sampled: on a function bound to one, [_apply] raises whatever the
    ground-motion values. *)
Theorem apply_without_epsilons (s : Store F RNG) (self d : nat)
        (vf : VulnerabilityFunction F) (dist : Distribution F) (gmvs : list F) :
  nth_error (functions s) self = Some vf ->
  distribution vf = Some d ->
  nth_error (distributions s) d = Some dist ->
  dist_class dist = LogNormalDistribution ->
  epsilons dist = None ->
  fst (apply_row self gmvs s) = None.
Proof.
  intros Hvf Hd Hdist Hclass Heps.
  destruct (apply_row self gmvs s) as [[losses|] s'] eqn:Hrun; [|reflexivity].
  exfalso.
  destruct (apply_row_returns s s' self vf gmvs losses Hvf Hrun)
    as [highest [lowest [means [covs' [d' [samples
          [_ [_ [_ [_ [Hd' [Hsample _]]]]]]]]]]]].
  rewrite Hd in Hd'. injection Hd' as <-.
  unfold sample in Hsample. rewrite bind_run in Hsample.
  unfold get_distribution in Hsample. rewrite Hdist, Hclass, Heps in Hsample.
  discriminate.
Qed.
Lemma map_raise_nth {A B : Type} (g : A -> option B) (xs : list A) (ys : list B)
      (k : nat) (x : A) :
  map_raise g xs = Some ys -> nth_error xs k = Some x ->
  exists y, nth_error ys k = Some y /\ g x = Some y.
Proof.
  revert k ys. induction xs as [|x0 xs IH]; intros k ys Hys Hk;
    [destruct k; discriminate|].
  cbn [map_raise] in Hys.
  destruct (g x0) as [y0|] eqn:Ey; [|discriminate].
  destruct (map_raise g xs) as [ys'|]; [|discriminate].
  injection Hys as <-. destruct k as [|k].
  - injection Hk as ->. exists y0. auto.
  - apply (IH k ys' eq_refl Hk).
Qed.

Lemma nth_error_combine {A B : Type} (a : list A) (b : list B) (k : nat)
      (x : A) (y : B) :
  nth_error a k = Some x -> nth_error b k = Some y ->
  nth_error (combine a b) k = Some (x, y).
Proof.
  revert b k. induction a as [|x0 a IH]; intros [|y0 b] [|k] Hx Hy;
    try discriminate; cbn in *.
  - congruence.
  - apply IH; assumption.
Qed.

(** On a function bound to a lognormal distribution with epsilons,
    [_apply] takes the row of epsilons under the cursor of the distribution
    and moves the cursor to the next row. *)
Lemma apply_row_lognormal (s s' : Store F RNG) (self d : nat)
        (vf : VulnerabilityFunction F) (dist : Distribution F)
        (eps : list (list F)) (gmvs losses : list F) :
  nth_error (functions s) self = Some vf ->
  distribution vf = Some d ->
  nth_error (distributions s) d = Some dist ->
  dist_class dist = LogNormalDistribution ->
  epsilons dist = Some eps ->
  apply_row self gmvs s = (Some losses, s') ->
  nth_error (distributions s') d
  = Some (mkDistribution LogNormalDistribution (Some eps) (S (asset_idx dist))) /\
  forall (j : nat) (gmv lowest highest : F),
    nth_error gmvs j = Some gmv ->
    py_index (imls vf) 0 = Some lowest ->
    py_index (imls vf) (-1) = Some highest ->
    let iml := if fgtb gmv highest then highest else gmv in
    fgeb iml lowest = true ->
    exists mean cov row e,
      interp1d (imls vf) (mean_loss_ratios vf) iml = Some mean /\
      interp1d (imls vf) (covs vf) iml = Some cov /\
      nth_error eps (asset_idx dist) = Some row /\
      nth_error row j = Some e /\
      nth_error losses j = Some (lognormal_sample fsqrt flog fexp fpow mean cov e).
Proof.
  intros Hvf Hd Hdist Hclass Heps Hrun.
  destruct (apply_row_returns s s' self vf gmvs losses Hvf Hrun)
    as [highest [lowest [means [covs' [d' [samples
          [Hhigh [Hlow [Hmeans [Hcovs [Hd' [Hsample Hscatter]]]]]]]]]]]].
  rewrite Hd in Hd'. injection Hd' as <-.
  unfold sample in Hsample. rewrite bind_run in Hsample.
  unfold get_distribution in Hsample. rewrite Hdist, Hclass, Heps in Hsample.
  rewrite bind_lift in Hsample.
  destruct (nth_error eps (asset_idx dist)) as [row|] eqn:Hrow; [|discriminate].
  rewrite bind_lift in Hsample.
  destruct (map_raise (nth_error row) _) as [es|] eqn:Hes; [|discriminate].
  unfold bind, put_distribution in Hsample. cbn [ret] in Hsample.
  injection Hsample as <- <-.
  assert (Hdlt : (d < length (distributions s))%nat)
    by (apply nth_error_Some; congruence).
  split.
  { cbn [distributions]. rewrite list_update_same by exact Hdlt.
    reflexivity. }
  intros j gmv lowest' highest' Hj Hlow' Hhigh' iml Hreach.
  rewrite Hlow in Hlow'. injection Hlow' as <-.
  rewrite Hhigh in Hhigh'. injection Hhigh' as <-.
  set (imls_curve := clip_above highest gmvs) in *.
  set (idxs := np_where (fun x => fgeb x lowest) imls_curve) in *.
  set (selected := map (fun i => nth i imls_curve fnan) idxs) in *.
  assert (Hcurve : nth_error imls_curve j = Some iml).
  { unfold imls_curve, clip_above. rewrite nth_error_map, Hj. reflexivity. }
  assert (Hin : In j idxs) by (apply np_where_In; exists iml; auto).
  apply In_nth_error in Hin. destruct Hin as [k Hk].
  assert (Hsel : nth_error selected k = Some iml).
  { unfold selected. rewrite nth_error_map, Hk. cbn [option_map]. f_equal.
    apply nth_error_nth. exact Hcurve. }
  assert (Hclip : nth_error (clip_both lowest highest selected) k = Some iml).
  { unfold clip_both. rewrite nth_error_map, Hsel. cbn [option_map]. f_equal.
    unfold fgeb in Hreach. rewrite (fleb_fltb_false _ _ Hreach).
    unfold iml, fgtb. destruct (fltb highest gmv) eqn:E.
    - rewrite fltb_irrefl. reflexivity.
    - rewrite E. reflexivity. }
  destruct (map_raise_nth _ _ _ k iml Hmeans Hsel) as [mean [Hmean Hm]].
  destruct (map_raise_nth _ _ _ k iml Hcovs Hclip) as [cov [Hcov Hc]].
  destruct (map_raise_nth _ _ _ k j Hes Hk) as [e [He Hrowj]].
  exists mean, cov, row, e.
  repeat split; try assumption.
  apply (scatter_hit _ _ _ _ k j _ Hscatter); auto.
  - apply np_where_NoDup.
  - intros i Hi. apply np_where_In in Hi. destruct Hi as [x [Hx _]].
    rewrite repeat_length.
    assert (Hlt : (i < length imls_curve)%nat)
      by (apply nth_error_Some; congruence).
    unfold imls_curve, clip_above in Hlt. rewrite length_map in Hlt. exact Hlt.
  - rewrite nth_error_map.
    rewrite (nth_error_combine _ _ k (mean, cov) e);
      [reflexivity| |exact He].
    apply nth_error_combine; assumption.
Qed.
End ApplyRowFacts.

Lemma apply_below_lowest_iml_witness :
  exists losses s',
    example_apply 0 [0.05; 0.15]%float example_degenerate_store = (Some losses, s') /\
    length losses = 2%nat /\
    nth_error losses 0 = Some f0.
Proof.
  destruct (example_apply 0 [0.05; 0.15]%float example_degenerate_store)
    as [[losses|] s'] eqn:Hrun; [|vm_compute in Hrun; discriminate].
  exists losses, s'. split; [reflexivity|].
  assert (Hvf : exists vf,
             nth_error (functions example_degenerate_store) 0 = Some vf /\
             py_index (imls vf) 0 = Some 0.1%float /\
             py_index (imls vf) (-1) = Some 0.5%float).
  { eexists. vm_compute. repeat split; reflexivity. }
  destruct Hvf as [vf [Hvf [Hlow Hhigh]]].
  destruct (apply_below_lowest_iml linear_interp1d PrimFloat.sqrt (fun x => x)
              (fun x => x) (fun x _ => PrimFloat.mul x x) example_random_beta
              example_degenerate_store s' 0 vf [0.05; 0.15]%float losses Hvf Hrun)
    as [Hlen Hzero].
  split; [exact Hlen|].
  apply (Hzero 0%nat 0.05%float 0.1%float 0.5%float eq_refl Hlow Hhigh);
    vm_compute; reflexivity.
Defined.

Lemma apply_degenerate_witness :
  exists losses mean,
    example_apply 0 [0.05; 0.6]%float example_degenerate_store
    = (Some losses, example_degenerate_store) /\
    linear_interp1d example_imls example_mean_loss_ratios 0.5%float = Some mean /\
    nth_error losses 1 = Some mean.
Proof.
  destruct (example_apply 0 [0.05; 0.6]%float example_degenerate_store)
    as [[losses|] s'] eqn:Hrun; [|vm_compute in Hrun; discriminate].
  assert (Hvf : exists vf d dist,
             nth_error (functions example_degenerate_store) 0 = Some vf /\
             distribution vf = Some d /\
             nth_error (distributions example_degenerate_store) d = Some dist /\
             dist_class dist = DegenerateDistribution /\
             imls vf = example_imls /\
             mean_loss_ratios vf = example_mean_loss_ratios).
  { do 3 eexists. vm_compute. repeat split; reflexivity. }
  destruct Hvf as [vf [d [dist [Hvf [Hd [Hdist [Hclass [Himls Hmlrs]]]]]]]].
  destruct (apply_degenerate linear_interp1d PrimFloat.sqrt (fun x => x)
              (fun x => x) (fun x _ => PrimFloat.mul x x) example_random_beta
              example_degenerate_store s' 0 d vf dist [0.05; 0.6]%float losses
              Hvf Hd Hdist Hclass Hrun)
    as [-> Hloss].
  destruct (Hloss 1%nat 0.6%float 0.1%float 0.5%float eq_refl)
    as [mean [Hmean Hnth]].
  - rewrite Himls. vm_compute. reflexivity.
  - rewrite Himls. vm_compute. reflexivity.
  - vm_compute. reflexivity.
  - exists losses, mean. split; [reflexivity|].
    rewrite Himls, Hmlrs in Hmean. split; [|exact Hnth].
    exact Hmean.
Defined.

Lemma apply_without_epsilons_witness :
  fst (example_apply 0 [0.15]%float example_store) = None.
Proof.
  assert (Hvf : exists vf d dist,
             nth_error (functions example_store) 0 = Some vf /\
             distribution vf = Some d /\
             nth_error (distributions example_store) d = Some dist /\
             dist_class dist = LogNormalDistribution /\
             epsilons dist = None).
  { do 3 eexists. vm_compute. repeat split; reflexivity. }
  destruct Hvf as [vf [d [dist [Hvf [Hd [Hdist [Hclass Heps]]]]]]].
  exact (apply_without_epsilons linear_interp1d PrimFloat.sqrt (fun x => x)
           (fun x => x) (fun x _ => PrimFloat.mul x x) example_random_beta
           example_store 0 d vf dist [0.15]%float Hvf Hd Hdist Hclass Heps).
Defined.

(** ** The pickled state of a vulnerability function *)

Lemma list_update_twice {A : Type} (l : list A) (i : nat) (x y : A) :
  list_update (list_update l i x) i y = list_update l i y.
Proof.
  revert i. induction l as [|z l IH]; intros [|i]; cbn; try reflexivity.
  rewrite IH. reflexivity.
Qed.

Section PicklingFacts.
Context {F RNG : Type} `{PyFloatOrder F}.
Variable interp1d_init : list F -> list F -> bool.

(** [set_distribution] makes one new distribution object, of the class of
    the function, and binds the function to it. *)
Lemma set_distribution_run (s : Store F RNG) (self : nat)
      (c : VulnerabilityFunction F) (eps : option (list (list F))) :
  nth_error (functions s) self = Some c ->
  set_distribution self eps s
  = match distribution_class_for (covs c) (distribution_name c) with
    | None => (None, s)
    | Some class =>
        (Some tt,
         mkStore (distributions s ++ [mkDistribution class eps 0])
                 (list_update (functions s) self
                    (mkVulnerabilityFunction (vf_id c) (imt c) (imls c)
                       (mean_loss_ratios c) (covs c) (distribution_name c)
                       (stddevs c) (Some (length (distributions s)))))
                 (random_state s))
    end.
Proof.
  intros Hc. unfold set_distribution. rewrite bind_get_function, Hc, bind_lift.
  destruct (distribution_class_for (covs c) (distribution_name c)) as [class|];
    [|reflexivity].
  unfold bind, new_distribution, put_function, get_distribution, put_distribution.
  cbn [distributions functions random_state].
  rewrite nth_error_app_last. cbn [dist_class asset_idx].
  rewrite list_update_app_last. reflexivity.
Qed.

(** X22.  A vulnerability function goes through pickling with its identity, its
    points and the name of its distribution; the standard deviations and
    the distribution are made anew, and the new distribution has no
    epsilons, whatever the distribution of the pickled function held.  No
    other object of the store changes. *)
Theorem setstate_getstate (s : Store F RNG) (self target : nat)
        (vf w : VulnerabilityFunction F) :
  nth_error (functions s) self = Some vf ->
  nth_error (functions s) target = Some w ->
  constructed interp1d_init vf ->
  exists s' vf' class,
    bind (VulnerabilityFunction_getstate self)
         (VulnerabilityFunction_setstate interp1d_init target) s = (Some tt, s') /\
    nth_error (functions s') target = Some vf' /\
    same_function vf' vf /\
    stddevs vf' = map (fun '(cov, lr) => fmul cov lr)
                      (combine (covs vf) (mean_loss_ratios vf)) /\
    distribution vf' = Some (length (distributions s)) /\
    distribution_class_for (covs vf) (distribution_name vf) = Some class /\
    distributions s' = distributions s ++ [mkDistribution class None 0] /\
    forall r, r <> target ->
      nth_error (functions s') r = nth_error (functions s) r.
Proof.
  intros Hvf Hw [Hcheck [_ Hinterp]].
  destruct (check_lengths _ _ _ _ Hcheck) as [_ Hlen].
  destruct (registered_class (covs vf) (distribution_name vf)
              (check_name interp1d_init _ _ _ _ Hcheck)) as [class Hclass].
  assert (Htarget : (target < length (functions s))%nat)
    by (apply nth_error_Some; congruence).
  unfold VulnerabilityFunction_getstate.
  rewrite bind_run, bind_get_function, Hvf. cbn [ret].
  unfold VulnerabilityFunction_setstate.
  rewrite bind_get_function, Hw, bind_run.
  unfold put_function at 1. cbn [functions distributions random_state].
  unfold init. rewrite bind_get_function.
  cbn [functions]. rewrite list_update_same by exact Htarget.
  cbn [covs mean_loss_ratios imls vf_id imt distribution_name stddevs distribution].
  unfold np_mul. rewrite Hlen, Nat.eqb_refl, bind_lift, bind_run.
  unfold put_function at 1. cbn [functions distributions random_state].
  rewrite list_update_twice, Hinterp. cbn [negb].
  rewrite (set_distribution_run _ target
             (mkVulnerabilityFunction (vf_id vf) (imt vf) (imls vf)
                (mean_loss_ratios vf) (covs vf) (distribution_name vf)
                (map (fun '(x, y) => fmul x y) (combine (covs vf) (mean_loss_ratios vf)))
                (distribution w)))
    by (cbn [functions]; apply list_update_same; exact Htarget).
  cbn [covs distribution_name]. rewrite Hclass.
  cbn [functions distributions random_state vf_id imt imls mean_loss_ratios
       covs distribution_name stddevs].
  rewrite list_update_twice.
  do 3 eexists. split; [reflexivity|].
  cbn [functions distributions].
  split; [apply list_update_same; exact Htarget|].
  split; [unfold same_function; cbn; auto 10|].
  split; [reflexivity|]. split; [reflexivity|]. split; [reflexivity|].
  split; [reflexivity|].
  intros r Hr. apply list_update_other. congruence.
Qed.
End PicklingFacts.

Lemma setstate_getstate_witness :
  exists s' vf',
    bind (VulnerabilityFunction_getstate 0)
         (VulnerabilityFunction_setstate example_interp1d_init 1) example_store
    = (Some tt, s') /\
    nth_error (functions s') 1 = Some vf' /\
    same_function vf' example_function.
Proof.
  assert (Hvf : nth_error (functions example_store) 0 = Some example_function)
    by (vm_compute; reflexivity).
  assert (Hw : exists w, nth_error (functions example_store) 1 = Some w)
    by (eexists; vm_compute; reflexivity).
  destruct Hw as [w Hw].
  assert (Hc : constructed example_interp1d_init example_function)
    by (vm_compute; auto).
  destruct (setstate_getstate example_interp1d_init example_store 0 1
              example_function w Hvf Hw Hc)
    as [s' [vf' [class [Hrun [Htarget [Hsame _]]]]]].
  exists s', vf'. auto.
Defined.

(** ** The benefit-cost ratio *)

(** X23.  In exact arithmetic, at a positive interest rate, life expectancy,
    asset value and retrofitting cost, the benefit-cost ratio is a number
    with the sign of the loss that the retrofitting spares: positive when
    the expected annual loss of the retrofitted asset is the smaller one,
    zero when the two losses are equal, negative otherwise. *)
Theorem bcr_sign (eal_original eal_retrofitted interest_rate
                    asset_life_expectancy asset_value retrofitting_cost : R) :
  (0 < interest_rate)%R -> (0 < asset_life_expectancy)%R ->
  (0 < asset_value)%R -> (0 < retrofitting_cost)%R ->
  exists ratio,
    bcr xexp (XR eal_original) (XR eal_retrofitted) (XR interest_rate)
        (XR asset_life_expectancy) (XR asset_value) (XR retrofitting_cost)
    = XR ratio /\
    ((0 < ratio)%R <-> (eal_retrofitted < eal_original)%R) /\
    (ratio = 0%R <-> eal_original = eal_retrofitted).
Proof.
  intros Hr Ht Hv Hc.
  set (q := (1 - exp (- interest_rate * asset_life_expectancy))%R).
  assert (Hq : (0 < q)%R).
  { unfold q.
    assert (Hneg : (- interest_rate * asset_life_expectancy < 0)%R).
    { rewrite <- Ropp_mult_distr_l.
      pose proof (Rmult_lt_0_compat _ _ Hr Ht). lra. }
    pose proof (exp_increasing _ _ Hneg) as Hexp. rewrite exp_0 in Hexp. lra. }
  assert (Hrc : (0 < interest_rate * retrofitting_cost)%R)
    by (apply Rmult_lt_0_compat; assumption).
  set (k := (asset_value * q / (interest_rate * retrofitting_cost))%R).
  assert (Hk : (0 < k)%R).
  { unfold k. apply Rdiv_lt_0_compat; [|exact Hrc].
    apply Rmult_lt_0_compat; assumption. }
  exists ((eal_original - eal_retrofitted) * k)%R.
  split; [|split].
  - unfold bcr, xexp. cbn [fsub fmul fneg xreal_PyFloat Exact.lift1 Exact.lift2].
    change (f1 : xreal) with (XR 1). cbn [Exact.lift2].
    change (fdiv ?a ?b) with (Exact.xdiv a b).
    unfold Exact.xdiv.
    destruct (Req_dec_T (interest_rate * retrofitting_cost) 0) as [E|_]; [lra|].
    f_equal. unfold k, q. field. lra.
  - split; intros Hpos.
    + destruct (Rlt_dec eal_retrofitted eal_original) as [|Hn]; [assumption|].
      exfalso. apply Rnot_lt_le in Hn.
      assert (0 <= (eal_retrofitted - eal_original) * k)%R
        by (apply Rmult_le_pos; lra).
      lra.
    + apply Rmult_lt_0_compat; lra.
  - split; intros Hzero.
    + apply Rmult_integral in Hzero. destruct Hzero; lra.
    + rewrite Hzero. lra.
Qed.

Lemma bcr_sign_witness :
  exists ratio,
    bcr xexp (XR 2) (XR 1) (XR 1) (XR 1) (XR 1) (XR 1) = XR ratio /\
    (0 < ratio)%R.
Proof.
  destruct (bcr_sign 2 1 1 1 1 1 ltac:(lra) ltac:(lra) ltac:(lra) ltac:(lra))
    as [ratio [Hrun [Hpos _]]].
  exists ratio. split; [exact Hrun|]. apply Hpos. lra.
Defined.

(** ** The constructor of a vulnerability function *)

Section ConstructorFacts.
Context {F RNG : Type} `{PyFloatOrder F}.
Variable interp1d_init : list F -> list F -> bool.

Lemma check_without_covs (imls mlrs : list F) (name : string) :
  _check_vulnerability_data imls mlrs None name = true ->
  _check_vulnerability_data imls mlrs (Some (repeat f0 (length imls))) name = true.
Proof.
  unfold _check_vulnerability_data. rewrite !andb_true_iff.
  intros [[[[[[Hsorted Himls] _] Hlen] Hmlrs] _] Hname].
  repeat split; try assumption.
  - rewrite repeat_length. apply Nat.eqb_refl.
  - apply forallb_forall. intros x Hx. apply repeat_spec in Hx. subst x.
    unfold fgeb. apply fleb_refl. apply f0_is_num.
Qed.

(** X24.  A function that the constructor returns is validly constructed: its
    attributes are the arguments, zeros standing for covs that are not
    given, and they pass the checks; it is the newest object of the store,
    bound to a new distribution object without epsilons, and the objects
    that were in the store are as they were. *)
Theorem init_constructed (s s' : Store F RNG) (id type : string)
        (imls' mlrs : list F) (covs' : option (list F)) (name : string)
        (self : nat) :
  VulnerabilityFunction_init interp1d_init id type imls' mlrs covs' name s
  = (Some self, s') ->
  exists vf class,
    self = length (functions s) /\
    functions s' = functions s ++ [vf] /\
    vf_id vf = id /\ imt vf = type /\ imls vf = imls' /\
    mean_loss_ratios vf = mlrs /\
    covs vf = match covs' with
              | Some given => given
              | None => repeat f0 (length imls')
              end /\
    distribution_name vf = name /\
    constructed interp1d_init vf /\
    distribution vf = Some (length (distributions s)) /\
    distributions s' = distributions s ++ [mkDistribution class None 0] /\
    random_state s' = random_state s.
Proof.
  unfold VulnerabilityFunction_init.
  destruct (_check_vulnerability_data imls' mlrs covs' name) eqn:Hcheck;
    [|discriminate].
  cbn [negb].
  set (cs := match covs' with
             | Some given => given
             | None => repeat f0 (length imls')
             end).
  destruct (existsb _ (combine mlrs cs)) eqn:Hzero; [discriminate|].
  destruct (interp1d_init imls' mlrs && interp1d_init imls' cs) eqn:Hinterp;
    [|discriminate].
  cbn [negb]. rewrite bind_run. cbn [new_function].
  set (c := mkVulnerabilityFunction id type imls' mlrs cs name _ None).
  set (s1 := mkStore (distributions s) (functions s ++ [c]) (random_state s)).
  assert (Hcheck' : _check_vulnerability_data imls' mlrs (Some cs) name = true).
  { unfold cs. destruct covs'; [exact Hcheck|].
    apply check_without_covs. exact Hcheck. }
  destruct (registered_class cs name (check_name interp1d_init _ _ _ _ Hcheck))
    as [class Hclass].
  rewrite bind_run.
  rewrite (set_distribution_run s1 (length (functions s)) c None)
    by (apply nth_error_app_last).
  cbn [covs distribution_name c]. rewrite Hclass. cbn [ret].
  intros [= <- <-].
  eexists _, class. cbn [functions distributions random_state s1].
  rewrite list_update_app_last.
  split; [reflexivity|]. split; [reflexivity|].
  cbn [vf_id imt imls mean_loss_ratios covs distribution_name distribution c].
  repeat split; try reflexivity; assumption.
Qed.
End ConstructorFacts.

Lemma init_constructed_witness :
  exists vf,
    functions example_degenerate_store = [vf] /\
    constructed example_interp1d_init vf.
Proof.
  destruct (VulnerabilityFunction_init example_interp1d_init "DG1" "PGA"
              example_imls example_mean_loss_ratios None "LN"
              (mkStore [] [] 0%nat)) as [[self|] s'] eqn:Hrun;
    [|vm_compute in Hrun; discriminate].
  destruct (init_constructed example_interp1d_init _ _ _ _ _ _ _ _ _ Hrun)
    as [vf [class [_ [Hfs [_ [_ [_ [_ [_ [_ [Hc _]]]]]]]]]]].
  exists vf. split; [|exact Hc].
  unfold example_degenerate_store. rewrite Hrun. exact Hfs.
Defined.

(** ** The shape of a loss matrix *)

Section ApplyShape.
Context {F RNG : Type} `{PyFloatOrder F}.
Variable interp1d : list F -> list F -> F -> option F.
Variables fsqrt flog fexp : F -> F.
Variable fpow : F -> F -> F.
Variable random_beta : RNG -> list F -> list F -> list F * RNG.

Local Abbreviation sample_ := (sample (RNG := RNG) fsqrt flog fexp fpow random_beta).
Local Abbreviation apply_row :=
  (VulnerabilityFunction_apply (RNG := RNG) interp1d fsqrt flog fexp fpow random_beta).
Local Abbreviation apply_to_ :=
  (apply_to (RNG := RNG) interp1d fsqrt flog fexp fpow random_beta).

(** Sampling works on the distribution objects and on the random
    generator, not on the function objects. *)
Lemma sample_functions (s s' : Store F RNG) (d : nat)
      (means covs' stddevs' : list F) (idxs : list nat) (r : option (list F)) :
  sample_ d means covs' stddevs' idxs s = (r, s') -> functions s' = functions s.
Proof.
  unfold sample. rewrite bind_run. unfold get_distribution.
  destruct (nth_error (distributions s) d) as [dist|]; [|intros [= _ <-]; reflexivity].
  destruct (dist_class dist).
  - intros [= _ <-]. reflexivity.
  - destruct (epsilons dist) as [eps|]; [|intros [= _ <-]; reflexivity].
    rewrite bind_lift.
    destruct (nth_error eps (asset_idx dist)) as [row|];
      [|intros [= _ <-]; reflexivity].
    rewrite bind_lift.
    destruct (map_raise (nth_error row) idxs) as [es|];
      [|intros [= _ <-]; reflexivity].
    unfold bind, put_distribution. cbn [ret]. intros [= _ <-]. reflexivity.
  - destruct (random_beta _ _ _) as [draws state]. intros [= _ <-]. reflexivity.
  - intros [= _ <-]. reflexivity.
Qed.

Lemma for_each_shape (self : nat) (rows : list (list F)) :
  forall (s s' : Store F RNG) (losses : list (list F)),
    nth_error (functions s) self <> None ->
    for_each (apply_row self) rows s = (Some losses, s') ->
    Forall2 (fun row loss_row => length loss_row = length row) rows losses.
Proof.
  induction rows as [|row rows IH]; intros s s' losses Hself.
  - cbn. intros [= <- _]. constructor.
  - cbn [for_each]. rewrite bind_run.
    destruct (apply_row self row s) as [[loss_row|] s1] eqn:Erow; [|discriminate].
    rewrite bind_run.
    destruct (for_each (apply_row self) rows s1) as [[rest|] s2] eqn:Erest;
      [|discriminate].
    cbn [ret]. intros [= <- _].
    destruct (nth_error (functions s) self) as [vf|] eqn:Hvf; [|congruence].
    destruct (apply_row_returns interp1d fsqrt flog fexp fpow random_beta
                s s1 self vf row loss_row Hvf Erow)
      as [highest [lowest [means [covs' [d [samples
            [_ [_ [_ [_ [_ [Hsample Hscatter]]]]]]]]]]]].
    constructor.
    + rewrite (scatter_length _ _ _ _ Hscatter). apply repeat_length.
    + apply (IH s1 s2 rest); [|exact Erest].
      rewrite (sample_functions _ _ _ _ _ _ _ _ Hsample), Hvf. discriminate.
Qed.

(** X25.  The loss matrix that [apply_to] returns has the shape of the ground
    motion values: a row for each row of them, of the same length. *)
Theorem apply_to_shape (s s' : Store F RNG) (self : nat)
        (ground_motion_values epsilons' losses : list (list F)) :
  apply_to_ self ground_motion_values epsilons' s = (Some losses, s') ->
  Forall2 (fun row loss_row => length loss_row = length row)
          ground_motion_values losses.
Proof.
  unfold apply_to.
  destruct (length epsilons' =? length ground_motion_values)%nat; [|discriminate].
  cbn [negb]. rewrite bind_get_function.
  destruct (nth_error (functions s) self) as [vf|]; [|discriminate].
  rewrite bind_run. cbn [new_function]. rewrite bind_run.
  set (s1 := mkStore (distributions s) (functions s ++ [vf]) (random_state s)).
  rewrite (set_distribution_run s1 (length (functions s)) vf (Some epsilons'))
    by (apply nth_error_app_last).
  destruct (distribution_class_for (covs vf) (distribution_name vf)) as [class|];
    [|discriminate].
  unfold numpy_map. apply for_each_shape.
  cbn [functions s1]. rewrite list_update_app_last, nth_error_app_last.
  discriminate.
Qed.
End ApplyShape.

Lemma apply_to_shape_witness :
  exists losses s',
    example_apply_to 0 example_gmvs example_epsilons example_store
    = (Some losses, s') /\
    Forall2 (fun row loss_row => length loss_row = length row)
            example_gmvs losses.
Proof.
  destruct (example_apply_to 0 example_gmvs example_epsilons example_store)
    as [[losses|] s'] eqn:Hrun; [|vm_compute in Hrun; discriminate].
  exists losses, s'. split; [reflexivity|].
  exact (apply_to_shape linear_interp1d PrimFloat.sqrt (fun x => x) (fun x => x)
           (fun x _ => PrimFloat.mul x x) example_random_beta
           example_store s' 0 example_gmvs example_epsilons losses Hrun).
Defined.

(** ** Curves on common losses *)

Lemma map_raise_In {A B : Type} (g : A -> option B) (xs : list A) (ys : list B)
      (x : A) :
  map_raise g xs = Some ys -> In x xs -> exists y, g x = Some y /\ In y ys.
Proof.
  intros Hys Hin. apply In_nth_error in Hin. destruct Hin as [k Hk].
  destruct (map_raise_nth g xs ys k x Hys Hk) as [y [Hy Hg]].
  exists y. split; [exact Hg|]. eapply nth_error_In; eauto.
Qed.

Lemma map_raise_In_inv {A B : Type} (g : A -> option B) (xs : list A)
      (ys : list B) (y : B) :
  map_raise g xs = Some ys -> In y ys -> exists x, In x xs /\ g x = Some y.
Proof.
  revert ys. induction xs as [|x0 xs IH]; intros ys Hys Hin; cbn [map_raise] in Hys.
  - injection Hys as <-. destruct Hin.
  - destruct (g x0) as [y0|] eqn:Ey; [|discriminate].
    destruct (map_raise g xs) as [ys'|]; [|discriminate].
    injection Hys as <-. destruct Hin as [<-|Hin].
    + exists x0. split; [left; reflexivity|exact Ey].
    + destruct (IH ys' eq_refl Hin) as [x [Hx Hg]]. exists x. split; [right|]; auto.
Qed.

Lemma flagged_In {A : Type} (g : A -> option bool) (xs : list A)
      (flags : list bool) (x : A) :
  map_raise g xs = Some flags ->
  In x (map fst (filter snd (combine xs flags))) <->
  In x xs /\ g x = Some true.
Proof.
  revert flags. induction xs as [|x0 xs IH]; intros flags Hflags;
    cbn [map_raise] in Hflags.
  - injection Hflags as <-. cbn. tauto.
  - destruct (g x0) as [flag|] eqn:Eg; [|discriminate].
    destruct (map_raise g xs) as [flags'|]; [|discriminate].
    injection Hflags as <-. cbn [combine filter snd].
    specialize (IH flags' eq_refl).
    destruct flag; cbn [map fst In]; rewrite IH; split.
    + intros [<-|[Hin Hg]]; auto.
    + intros [[<-|Hin] Hg]; auto.
    + intros [Hin Hg]. auto.
    + intros [[<-|Hin] Hg]; [congruence|auto].
Qed.

Section NormalizeCurvesFacts.
Context {F : Type} `{PyFloatOrder F}.
Variable interp1d_fill_init : list F -> list F -> bool.
Variable interp1d_fill : list F -> list F -> F -> F -> F.

Lemma argmax_from_largest (l : list F) :
  forall (best : F) (best_rank rank : nat),
    is_num best = true -> forallb is_num l = true ->
    exists v,
      (argmax_from best best_rank rank l = best_rank /\ v = best \/
       (rank <= argmax_from best best_rank rank l)%nat /\
       nth_error l (argmax_from best best_rank rank l - rank) = Some v) /\
      fleb best v = true /\
      forall x, In x l -> fleb x v = true.
Proof.
  induction l as [|x l IH]; intros best best_rank rank Hbest Hnum.
  - exists best. cbn [argmax_from]. split; [left; auto|].
    split; [apply fleb_refl; exact Hbest|]. intros x [].
  - cbn [forallb] in Hnum. apply andb_true_iff in Hnum. destruct Hnum as [Hx Hnum].
    cbn [argmax_from]. rewrite Hx. cbn [negb andb]. rewrite orb_false_r.
    unfold fgtb. destruct (fltb best x) eqn:Elt.
    + destruct (IH x rank (S rank) Hx Hnum) as [v [Hrank [Hxv Hall]]].
      exists v. split; [|split].
      * right. destruct Hrank as [[-> ->]|[Hle Hnth]].
        -- split; [lia|]. rewrite Nat.sub_diag. reflexivity.
        -- split; [lia|].
           replace (argmax_from x rank (S rank) l - rank)%nat
             with (S (argmax_from x rank (S rank) l - S rank)) by lia.
           exact Hnth.
      * eapply fleb_trans; [|exact Hxv]. apply fleb_true. left. exact Elt.
      * intros y [<-|Hy]; [exact Hxv|apply Hall; exact Hy].
    + destruct (IH best best_rank (S rank) Hbest Hnum) as [v [Hrank [Hbv Hall]]].
      exists v. split; [|split].
      * destruct Hrank as [[E ->]|[Hle Hnth]]; [left; auto|].
        right. split; [lia|].
        replace (argmax_from best best_rank (S rank) l - rank)%nat
          with (S (argmax_from best best_rank (S rank) l - S rank)) by lia.
        exact Hnth.
      * exact Hbv.
      * intros y [<-|Hy]; [|apply Hall; exact Hy].
        eapply fleb_trans; [|exact Hbv]. apply fltb_false_fleb; assumption.
Qed.

Lemma np_argmax_largest (l : list F) (rank : nat) :
  forallb is_num l = true -> np_argmax l = Some rank ->
  exists v, nth_error l rank = Some v /\ forall x, In x l -> fleb x v = true.
Proof.
  destruct l as [|x l]; [discriminate|].
  cbn [forallb np_argmax]. intros [Hx Hnum]%andb_true_iff [= <-].
  destruct (argmax_from_largest l x 0 1 Hx Hnum) as [v [Hrank [Hxv Hall]]].
  exists v. split.
  - destruct Hrank as [[-> ->]|[Hle Hnth]]; [reflexivity|].
    replace (argmax_from x 0 1 l) with (S (argmax_from x 0 1 l - 1)) by lia.
    exact Hnth.
  - intros y [<-|Hy]; [exact Hxv|apply Hall; exact Hy].
Qed.

(** X26.  What [normalize_curves_eb] returns has an array of PoEs for each curve,
    on the losses of one of the curves; these losses reach as far as the
    losses of every curve whose largest loss, the last one, is positive. *)
Theorem normalize_curves_eb_reference (curves : list (list F * list F))
        (loss_ratios : list F) (curves_poes : list (list F)) :
  normalize_curves_eb interp1d_fill_init interp1d_fill curves
  = Some (loss_ratios, curves_poes) ->
  length curves_poes = length curves /\
  In loss_ratios (map fst curves) /\
  forall (losses poes : list F) (last : F),
    In (losses, poes) curves ->
    py_index losses (-1) = Some last -> fgtb last f0 = true ->
    exists reference_last,
      py_index loss_ratios (-1) = Some reference_last /\
      fleb last reference_last = true.
Proof.
  unfold normalize_curves_eb.
  set (flag := fun curve : list F * list F =>
                 (last <- py_index (fst curve) (-1) ;; Some (fgtb last f0))%py).
  destruct (map_raise flag curves) as [flags|] eqn:Hflags; [|discriminate].
  set (non_zero_curves := map fst (filter snd (combine curves flags))).
  assert (Hnz : forall curve, In curve non_zero_curves <->
                              In curve curves /\ flag curve = Some true)
    by (intros curve; apply flagged_In; exact Hflags).
  assert (Hflag : forall losses poes last,
             py_index losses (-1) = Some last -> fgtb last f0 = true ->
             flag (losses, poes) = Some true).
  { intros losses poes last Hlast Hpos. unfold flag. cbn [fst].
    rewrite Hlast, Hpos. reflexivity. }
  destruct (py_bool non_zero_curves) eqn:Hbool; cbn [negb].
  - destruct (map_raise _ non_zero_curves) as [max_losses|] eqn:Hmax;
      [|discriminate].
    destruct (np_argmax max_losses) as [rank|] eqn:Hrank; [|discriminate].
    destruct (py_index non_zero_curves (Z.of_nat rank)) as [reference_curve|]
      eqn:Href; [|discriminate].
    match goal with
    | |- context [map_raise ?g curves] =>
        destruct (map_raise g curves) as [poes'|] eqn:Hpoes; [|discriminate]
    end.
    intros [= <- <-].
    assert (Hnth : nth_error non_zero_curves rank = Some reference_curve).
    { unfold py_index in Href.
      destruct (Z.ltb_spec (Z.of_nat rank) 0) as [?|_]; [lia|].
      destruct (_ && _); [|discriminate].
      rewrite Nat2Z.id in Href. exact Href. }
    assert (Hnum : forallb is_num max_losses = true).
    { apply forallb_forall. intros y Hy.
      destruct (map_raise_In_inv _ _ _ y Hmax Hy) as [curve [Hin Hy']].
      apply Hnz in Hin. destruct Hin as [_ Hf]. unfold flag in Hf.
      rewrite Hy' in Hf. injection Hf as Hf. unfold fgtb in Hf.
      apply fltb_is_num in Hf. tauto. }
    destruct (np_argmax_largest max_losses rank Hnum Hrank) as [v [Hv Hall]].
    destruct (map_raise_nth _ _ _ rank reference_curve Hmax Hnth)
      as [v' [Hv' Hlast]].
    rewrite Hv in Hv'. injection Hv' as <-.
    split; [apply (map_raise_length _ _ _ Hpoes)|]. split.
    + apply in_map. apply nth_error_In in Hnth. apply Hnz in Hnth. tauto.
    + intros losses poes last Hin Hl Hpos. exists v. split; [exact Hlast|].
      apply Hall.
      assert (Hc : In (losses, poes) non_zero_curves)
        by (apply Hnz; split; [exact Hin|eapply Hflag; eauto]).
      destruct (map_raise_In _ _ _ _ Hmax Hc) as [y [Hy Hiny]].
      cbn [fst] in Hy. rewrite Hl in Hy. injection Hy as <-. exact Hiny.
  - destruct (py_index curves 0) as [first|] eqn:Hfirst; [|discriminate].
    intros [= <- <-]. split; [apply length_map|]. split.
    + apply in_map. unfold py_index in Hfirst.
      destruct (_ && _); [|discriminate].
      apply nth_error_In in Hfirst. exact Hfirst.
    + intros losses poes last Hin Hl Hpos. exfalso.
      assert (Hc : In (losses, poes) non_zero_curves)
        by (apply Hnz; split; [exact Hin|eapply Hflag; eauto]).
      destruct non_zero_curves; [destruct Hc|discriminate].
Qed.
End NormalizeCurvesFacts.

Lemma normalize_curves_eb_reference_witness :
  exists loss_ratios curves_poes,
    normalize_curves_eb (fun _ _ => true) (fun _ _ _ x => x)
      [([0; 1]%float, [1; 0.5]%float); ([0; 3; 5]%float, [1; 0.5; 0.1]%float)]
    = Some (loss_ratios, curves_poes) /\
    length curves_poes = 2%nat.
Proof.
  destruct (normalize_curves_eb (fun _ _ => true) (fun _ _ _ x => x)
              [([0; 1]%float, [1; 0.5]%float);
               ([0; 3; 5]%float, [1; 0.5; 0.1]%float)])
    as [[loss_ratios curves_poes]|] eqn:Hrun;
    [|vm_compute in Hrun; discriminate].
  exists loss_ratios, curves_poes. split; [reflexivity|].
  exact (proj1 (normalize_curves_eb_reference _ _ _ _ _ Hrun)).
Defined.

(** ** The epsilons of a loss matrix *)

Section ApplyLognormal.
Context {F RNG : Type} `{PyFloatOrder F}.
Variable interp1d : list F -> list F -> F -> option F.
Variables fsqrt flog fexp : F -> F.
Variable fpow : F -> F -> F.
Variable random_beta : RNG -> list F -> list F -> list F * RNG.

Local Abbreviation apply_row :=
  (VulnerabilityFunction_apply (RNG := RNG) interp1d fsqrt flog fexp fpow random_beta).
Local Abbreviation apply_to_ :=
  (apply_to (RNG := RNG) interp1d fsqrt flog fexp fpow random_beta).

(** The loss at the rank [j] of the row of ground-motion values, with
    the epsilons of the row [eps_row]:
    [mean / sqrt(1 + cov ** 2) * exp(eps * sqrt(log(cov ** 2 + 1)))]. *)
Local Abbreviation sampled vf row eps_row loss_row :=
  (forall (j : nat) (gmv lowest highest : F),
      nth_error row j = Some gmv ->
      py_index (imls vf) 0 = Some lowest ->
      py_index (imls vf) (-1) = Some highest ->
      let iml := if fgtb gmv highest then highest else gmv in
      fgeb iml lowest = true ->
      exists mean cov e,
        interp1d (imls vf) (mean_loss_ratios vf) iml = Some mean /\
        interp1d (imls vf) (covs vf) iml = Some cov /\
        nth_error eps_row j = Some e /\
        nth_error loss_row j
        = Some (fmul (fdiv mean (fsqrt (fadd f1 (fpow cov f2))))
                     (fexp (fmul e (fsqrt (flog (fadd (fpow cov f2) f1))))))).

Lemma for_each_lognormal (self d : nat) (vf : VulnerabilityFunction F)
      (eps : list (list F)) (rows : list (list F)) :
  forall (s s' : Store F RNG) (losses : list (list F)) (cursor : nat),
    nth_error (functions s) self = Some vf ->
    distribution vf = Some d ->
    nth_error (distributions s) d
    = Some (mkDistribution LogNormalDistribution (Some eps) cursor) ->
    for_each (apply_row self) rows s = (Some losses, s') ->
    forall (i : nat) (row : list F),
      nth_error rows i = Some row ->
      exists loss_row eps_row,
        nth_error losses i = Some loss_row /\
        nth_error eps (cursor + i) = Some eps_row /\
        sampled vf row eps_row loss_row.
Proof.
  induction rows as [|row0 rows IH]; intros s s' losses cursor Hvf Hd Hdist Hrun i row Hi.
  - destruct i; discriminate.
  - cbn [for_each] in Hrun. rewrite bind_run in Hrun.
    destruct (apply_row self row0 s) as [[loss_row0|] s1] eqn:Erow; [|discriminate].
    rewrite bind_run in Hrun.
    destruct (for_each (apply_row self) rows s1) as [[rest|] s2] eqn:Erest;
      [|discriminate].
    cbn [ret] in Hrun. injection Hrun as <- <-.
    destruct (apply_row_lognormal interp1d fsqrt flog fexp fpow random_beta
                s s1 self d vf _ eps row0 loss_row0 Hvf Hd Hdist eq_refl eq_refl Erow)
      as [Hcursor Hloss].
    cbn [asset_idx] in Hcursor, Hloss.
    destruct i as [|i].
    + injection Hi as <-. cbn [nth_error].
      assert (Hrow : exists eps_row, nth_error eps cursor = Some eps_row).
      { destruct (apply_row_returns interp1d fsqrt flog fexp fpow random_beta
                    s s1 self vf row0 loss_row0 Hvf Erow)
          as [highest [lowest [means [covs' [d' [samples
                [_ [_ [_ [_ [Hd' [Hsample _]]]]]]]]]]]].
        rewrite Hd in Hd'. injection Hd' as <-.
        unfold sample in Hsample. rewrite bind_run in Hsample.
        unfold get_distribution in Hsample. rewrite Hdist in Hsample.
        cbn [dist_class epsilons asset_idx] in Hsample.
        rewrite bind_lift in Hsample.
        destruct (nth_error eps cursor) as [eps_row|]; [|discriminate].
        eauto. }
      destruct Hrow as [eps_row Hrow].
      exists loss_row0, eps_row. rewrite Nat.add_0_r.
      split; [reflexivity|]. split; [exact Hrow|].
      intros j gmv lowest highest Hj Hlow Hhigh Hreach.
      destruct (Hloss j gmv lowest highest Hj Hlow Hhigh Hreach)
        as [mean [cov [row' [e [Hmean [Hcov [Hrow' [He Hnth]]]]]]]].
      rewrite Hrow in Hrow'. injection Hrow' as <-.
      exists mean, cov, e. repeat split; assumption.
    + cbn [nth_error] in Hi |- *.
      replace (cursor + S i)%nat with (S cursor + i)%nat by lia.
      apply (IH s1 s2 rest (S cursor)); auto.
      destruct (apply_row_returns interp1d fsqrt flog fexp fpow random_beta
                  s s1 self vf row0 loss_row0 Hvf Erow)
        as [highest [lowest [means [covs' [d' [samples
              [_ [_ [_ [_ [_ [Hsample _]]]]]]]]]]]].
      rewrite (sample_functions _ _ _ _ _ _ _ _ _ _ _ _ _ Hsample). exact Hvf.
Qed.

(** X27.  On a function with a positive cov and the lognormal distribution,
    [apply_to] gives each row of ground-motion values the row of epsilons
    of the same rank: the loss at a ground-motion value that reaches the
    lowest IML is
    [mean / sqrt(1 + cov ** 2) * exp(eps * sqrt(log(cov ** 2 + 1)))],
    [mean] and [cov] being what the interpolators of the mean loss ratios
    and of the covs give at the value (at the highest IML for a value above
    it), and [eps] the epsilon at the same place of the matrix. *)
Theorem apply_to_lognormal (s s' : Store F RNG) (self : nat)
        (vf : VulnerabilityFunction F)
        (ground_motion_values epsilons' losses : list (list F)) :
  nth_error (functions s) self = Some vf ->
  distribution_class_for (covs vf) (distribution_name vf)
  = Some LogNormalDistribution ->
  apply_to_ self ground_motion_values epsilons' s = (Some losses, s') ->
  forall (i : nat) (row : list F),
    nth_error ground_motion_values i = Some row ->
    exists loss_row eps_row,
      nth_error losses i = Some loss_row /\
      nth_error epsilons' i = Some eps_row /\
      sampled vf row eps_row loss_row.
Proof.
  intros Hvf Hclass. unfold apply_to.
  destruct (length epsilons' =? length ground_motion_values)%nat; [|discriminate].
  cbn [negb]. rewrite bind_get_function, Hvf.
  rewrite bind_run. cbn [new_function]. rewrite bind_run.
  set (s1 := mkStore (distributions s) (functions s ++ [vf]) (random_state s)).
  rewrite (set_distribution_run s1 (length (functions s)) vf (Some epsilons'))
    by (apply nth_error_app_last).
  rewrite Hclass. unfold numpy_map. intros Hrun i row Hi.
  set (c := mkVulnerabilityFunction (vf_id vf) (imt vf) (imls vf)
              (mean_loss_ratios vf) (covs vf) (distribution_name vf)
              (stddevs vf) (Some (length (distributions s1)))) in *.
  assert (Hc : nth_error (functions (mkStore
                  (distributions s1 ++ [mkDistribution LogNormalDistribution
                                          (Some epsilons') 0])
                  (list_update (functions s1) (length (functions s)) c)
                  (random_state s1))) (length (functions s)) = Some c).
  { cbn [functions s1]. rewrite list_update_app_last. apply nth_error_app_last. }
  assert (Hdist : nth_error (distributions (mkStore
                  (distributions s1 ++ [mkDistribution LogNormalDistribution
                                          (Some epsilons') 0])
                  (list_update (functions s1) (length (functions s)) c)
                  (random_state s1))) (length (distributions s1))
                  = Some (mkDistribution LogNormalDistribution (Some epsilons') 0)).
  { cbn [distributions]. apply nth_error_app_last. }
  exact (for_each_lognormal (length (functions s)) (length (distributions s1)) c
           epsilons' ground_motion_values _ _ losses 0 Hc eq_refl Hdist
           Hrun i row Hi).
Qed.
End ApplyLognormal.

Lemma apply_to_lognormal_witness :
  exists losses s' loss_row,
    example_apply_to 0 example_gmvs example_epsilons example_store
    = (Some losses, s') /\
    nth_error losses 1 = Some loss_row /\
    exists mean cov,
      linear_interp1d example_imls example_mean_loss_ratios 0.3%float = Some mean /\
      linear_interp1d example_imls example_covs 0.3%float = Some cov /\
      nth_error loss_row 1
      = Some (PrimFloat.mul
                (PrimFloat.div mean
                   (PrimFloat.sqrt (PrimFloat.add 1 (PrimFloat.mul cov cov))))
                (PrimFloat.mul 5
                   (PrimFloat.sqrt (PrimFloat.add (PrimFloat.mul cov cov) 1))))%float.
Proof.
  destruct (example_apply_to 0 example_gmvs example_epsilons example_store)
    as [[losses|] s'] eqn:Hrun; [|vm_compute in Hrun; discriminate].
  assert (Hvf : nth_error (functions example_store) 0 = Some example_function)
    by (vm_compute; reflexivity).
  assert (Hclass : distribution_class_for (covs example_function)
                     (distribution_name example_function)
                   = Some LogNormalDistribution)
    by (vm_compute; reflexivity).
  destruct (apply_to_lognormal linear_interp1d PrimFloat.sqrt (fun x => x)
              (fun x => x) (fun x _ => PrimFloat.mul x x) example_random_beta
              example_store s' 0 example_function example_gmvs example_epsilons
              losses Hvf Hclass Hrun 1%nat [0.2; 0.3; 0.1]%float eq_refl)
    as [loss_row [eps_row [Hrow [Heps Hloss]]]].
  vm_compute in Heps. injection Heps as <-.
  destruct (Hloss 1%nat 0.3%float 0.1%float 0.5%float eq_refl)
    as [mean [cov [e [Hmean [Hcov [He Hnth]]]]]];
    try (vm_compute; reflexivity).
  vm_compute in He. injection He as <-.
  exists losses, s', loss_row. split; [reflexivity|]. split; [exact Hrow|].
  exists mean, cov. repeat split; assumption.
Defined.
